(** * TSCoDe: conformer pruning, clash detection and conformational density

    A shallow embedding of the algorithmic core of TSCoDe:
    - [_fallback.py]: [compenetration_check], [scramble], [prune_conformers],
      [rmsd_py];
    - [rdkit_Class.py]: [Density_object.compute_CoDe] and
      [Density_object.write_cubefile];
    - [tscode/automep.py]: [cycle_to_dihedrals] and [get_exocyclic_dihedrals].

    Numbers are exact rationals ([Qc], canonical fractions with Leibniz
    equality); the transcendental and linear-algebra primitives the code takes
    from [math] and [numpy] ([sqrt], [exp], [eig]) and the external
    [rmsd.kabsch_rmsd] are section variables.  A Python exception is a
    [Raise] in the [result] type. *)

From Stdlib Require Import ZArith QArith Qcanon Qround Lia.
From stdpp Require Import base tactics option list numbers relations gmap sets sorting.

Set Default Proof Using "Type".
Local Open Scope nat_scope.

(** ** Python exceptions as results *)

Inductive exn : Set := IndexError | ValueError | ZeroDivisionError.

Inductive result (A : Type) : Type :=
  | Ok (a : A)
  | Raise (e : exn).
Arguments Ok {A} a.
Arguments Raise {A} e.

Definition rbind {A B} (m : result A) (f : A → result B) : result B :=
  match m with
  | Ok a => f a
  | Raise e => Raise e
  end.

Notation "x ← m ;;; k" := (rbind m (λ x, k))
  (at level 20, m at level 100, k at level 200, right associativity,
   format "x  ←  m  ;;;  '/' k").

(** [seq[i]] on a Python list or a numpy array, for [i >= 0]. *)
Definition py_index {A} (l : list A) (i : nat) : result A :=
  match l !! i with
  | Some a => Ok a
  | None => Raise IndexError
  end.

Definition raises {A} (m : result A) : Prop := ∃ e, m = Raise e.

(** [[f(x) for x in l]] where [f] may raise. *)
Fixpoint mapM {A B} (f : A → result B) (l : list A) : result (list B) :=
  match l with
  | [] => Ok []
  | x :: l' => y ← f x ;;; ys ← mapM f l' ;;; Ok (y :: ys)
  end.

(** ** Numbers *)

(** The fraction [n/d] for a positive [d]. *)
Definition frac (n d : Z) : Qc := Q2Qc (n # Z.to_pos d).

Definition of_Z (z : Z) : Qc := Q2Qc (inject_Z z).

Definition of_nat (n : nat) : Qc := of_Z (Z.of_nat n).

Definition Qc_floor (q : Qc) : Z := (Qnum q / Z.pos (Qden q))%Z.

(** [int(np.ceil(q))] *)
Definition Qc_ceil (q : Qc) : Z := (- Qc_floor (- q))%Z.

(** Python 3 [round(q)]: to the nearest integer, ties to the even one. *)
Definition py_round (q : Qc) : Z :=
  let f := Qc_floor q in
  let r := (q - of_Z f)%Qc in
  if bool_decide (r < frac 1 2)%Qc then f
  else if bool_decide (frac 1 2 < r)%Qc then (f + 1)%Z
  else if Z.even f then f else (f + 1)%Z.

Definition Qc_abs (q : Qc) : Qc := if bool_decide (q < 0)%Qc then (- q)%Qc else q.

(** [min(l)] and [max(l)] of a Python sequence; empty raises [ValueError]. *)
Definition py_min (l : list Qc) : result Qc :=
  match l with
  | [] => Raise ValueError
  | x :: l' => Ok (foldl (λ m y, if bool_decide (y < m)%Qc then y else m) x l')
  end.

Definition py_max (l : list Qc) : result Qc :=
  match l with
  | [] => Raise ValueError
  | x :: l' => Ok (foldl (λ m y, if bool_decide (m < y)%Qc then y else m) x l')
  end.

(** ** Steric clash detector: [compenetration_check] *)

Module Clash.

Definition vec : Type := Qc * Qc * Qc.

Definition vsub (a b : vec) : vec :=
  let '(ax, ay, az) := a in
  let '(bx, by_, bz) := b in
  (ax - bx, ay - by_, az - bz)%Qc.

Section clash.
(** [math.sqrt] *)
Variable sqrt : Qc → Qc.

Definition norm_of (v : vec) : Qc :=
  let '(v0, v1, v2) := v in
  let s := (v0 * v0 + v1 * v1 + v2 * v2)%Qc in
  sqrt s.

Variable thresh : Qc.
Variable max_clashes : Z.

(** One pass of the inner [for v2 in m2] loop for a fixed [v1].  [None] is
    the early [return False]; [Some c] is the counter on normal exit. *)
Fixpoint inner_loop (v1 : vec) (m2 : list vec) (clashes : Z) : option Z :=
  match m2 with
  | [] => Some clashes
  | v2 :: m2' =>
      let dist := norm_of (vsub v1 v2) in
      let clashes := if bool_decide (dist < thresh)%Qc then (clashes + 1)%Z else clashes in
      if bool_decide (clashes > max_clashes)%Z then None
      else inner_loop v1 m2' clashes
  end.

(** [for v1 in m1: for v2 in m2: ...] *)
Fixpoint pair_loop (m1 m2 : list vec) (clashes : Z) : option Z :=
  match m1 with
  | [] => Some clashes
  | v1 :: m1' =>
      match inner_loop v1 m2 clashes with
      | None => None
      | Some c => pair_loop m1' m2 c
      end
  end.

Definition compenetration_check (coords : list vec) (ids : list nat) : result bool :=
  let clashes := 0%Z in
  if decide (length ids = 2) then
    i0 ← py_index ids 0 ;;;
    let m1 := take i0 coords in
    let m2 := drop i0 coords in
    match pair_loop m1 m2 clashes with
    | None => Ok false
    | Some _ => Ok true
    end
  else
    i0 ← py_index ids 0 ;;;
    i1 ← py_index ids 1 ;;;
    let m1 := take i0 coords in
    let m2 := take i1 (drop i0 coords) in
    let m3 := drop (i0 + i1) coords in
    match pair_loop m1 m2 clashes with
    | None => Ok false
    | Some c12 =>
        match pair_loop m2 m3 c12 with
        | None => Ok false
        | Some c23 =>
            match pair_loop m3 m1 c23 with
            | None => Ok false
            | Some _ => Ok true
            end
        end
    end.

(** *** The count the specification speaks of *)

(** Euclidean distance strictly below the threshold. *)
Definition clashing (v w : vec) : bool :=
  bool_decide (norm_of (vsub v w) < thresh)%Qc.

Definition count_row (v : vec) (b : list vec) : nat :=
  length (filter (λ w, clashing v w = true) b).

(** Number of clashing pairs with one atom in [a] and the other in [b]. *)
Fixpoint count_between (a b : list vec) : nat :=
  match a with
  | [] => 0
  | v :: a' => count_row v b + count_between a' b
  end.

(** The fragments: contiguous blocks of the given atom counts. *)
Fixpoint split_by_counts (coords : list vec) (ids : list nat) : list (list vec) :=
  match ids with
  | [] => []
  | n :: ids' => take n coords :: split_by_counts (drop n coords) ids'
  end.

(** Every unordered pair of distinct fragments once; no pair inside a
    fragment. *)
Fixpoint inter_fragment_clashes (frags : list (list vec)) : nat :=
  match frags with
  | [] => 0
  | f :: fs => sum_list (map (count_between f) fs) + inter_fragment_clashes fs
  end.

End clash.
End Clash.

(** ** Ensemble deduplication: [prune_conformers] *)

Module Prune.

(** [rmsd_mat]: a square numpy array as a list of rows. *)
Abbreviation matrix := (list (list Qc)).

Definition mat_full (l : nat) (v : Qc) : matrix := replicate l (replicate l v).

(** [rmsd_mat[i, j] = val] for indices inside the array. *)
Definition mat_set (i j : nat) (v : Qc) (m : matrix) : matrix :=
  alter (λ row, <[j := v]> row) i m.

Definition mat_get (m : matrix) (i j : nat) : option Qc :=
  m !! i ≫= λ row, row !! j.

Definition shape_ok (l : nat) (m : matrix) : Prop :=
  length m = l ∧ Forall (λ row, length row = l) m.

(** The entry at [(a, b)] is below [t]. *)
Definition hit (t : Qc) (m : matrix) (a b : nat) : Prop :=
  ∃ v, mat_get m a b = Some v ∧ (v < t)%Qc.

(** [np.where(rmsd_mat < t)] zipped into index pairs, in row-major order. *)
Definition np_where_lt (m : matrix) (t : Qc) : list (nat * nat) :=
  concat (imap (λ i row,
    omap id (imap (λ j v, if bool_decide (v < t)%Qc then Some (i, j) else None) row)) m).

(** *** The part of networkx the function uses *)

(** [nx.Graph(matches)]: nodes in insertion order. *)
Definition add_node (v : nat) (ns : list nat) : list nat :=
  if decide (v ∈ ns) then ns else ns ++ [v].

Definition graph_nodes (E : list (nat * nat)) : list nat :=
  foldl (λ ns e, add_node e.2 (add_node e.1 ns)) [] E.

(** [G.adj[v]] of the undirected graph. *)
Definition neighbours (E : list (nat * nat)) (v : nat) : gset nat :=
  list_to_set (flat_map (λ e,
    (if decide (e.1 = v) then [e.2] else []) ++
    (if decide (e.2 = v) then [e.1] else [])) E).

Definition neighbours_of (E : list (nat * nat)) (vs : gset nat) : gset nat :=
  ⋃ (neighbours E <$> elements vs).

(** [_plain_bfs]: the [while nextlevel] loop, level by level.  The loop of
    the source has no bound; every round but the last adds a node to [seen],
    so the number of nodes is fuel enough ([bfs_loop_spec] below). *)
Fixpoint bfs_loop (E : list (nat * nat)) (fuel : nat) (seen nextlevel : gset nat) : gset nat :=
  match fuel with
  | 0 => seen
  | S fuel' =>
      if decide (nextlevel = ∅) then seen
      else
        let fresh := nextlevel ∖ seen in
        bfs_loop E fuel' (seen ∪ fresh) (neighbours_of E fresh)
  end.

Definition plain_bfs (E : list (nat * nat)) (source : nat) : gset nat :=
  bfs_loop E (length (graph_nodes E) + 3) ∅ {[source]}.

(** [nx.connected_components(G)] *)
Fixpoint cc_loop (E : list (nat * nat)) (vs : list nat) (seen : gset nat) : list (gset nat) :=
  match vs with
  | [] => []
  | v :: vs' =>
      if decide (v ∈ seen) then cc_loop E vs' seen
      else
        let c := plain_bfs E v in
        c :: cc_loop E vs' (seen ∪ c)
  end.

Definition connected_components (E : list (nat * nat)) : list (gset nat) :=
  cc_loop E (graph_nodes E) ∅.

(** A node listing that follows the insertion order of the graph. *)
Definition insertion_order (g : list nat) (c : gset nat) : list nat :=
  filter (λ v, v ∈ c) g.

(** [scramble] and [scramble_mask] have the same body. *)
Definition scramble {A} (array : list A) (sequence : list nat) : result (list A) :=
  mapM (py_index array) sequence.

Definition scramble_mask {A} (array : list A) (sequence : list nat) : result (list A) :=
  mapM (py_index array) sequence.

(** [np.where(sequence == i)[0][0]] *)
Definition first_index (sequence : list nat) (i : nat) : result nat :=
  match list_find (λ s, s = i) sequence with
  | Some (p, _) => Ok p
  | None => Raise IndexError
  end.

(** [structures[mask]] with a boolean mask. *)
Fixpoint select {A} (l : list A) (mask : list bool) : list A :=
  match l, mask with
  | x :: l', b :: mask' => if b then x :: select l' mask' else select l' mask'
  | _, _ => []
  end.

Definition mask_index {A} (l : list A) (mask : list bool) : result (list A) :=
  if decide (length mask = length l) then Ok (select l mask) else Raise IndexError.

(** [mask[i] = False] *)
Definition mask_clear (mask : list bool) (i : nat) : result (list bool) :=
  if decide (i < length mask) then Ok (<[i := false]> mask) else Raise IndexError.

Fixpoint mask_clear_all (mask : list bool) (rejects : list nat) : result (list bool) :=
  match rejects with
  | [] => Ok mask
  | i :: rejects' => mask' ← mask_clear mask i ;;; mask_clear_all mask' rejects'
  end.

(** *** The graph the specification speaks of *)

Definition edge (E : list (nat * nat)) (u v : nat) : Prop := (u, v) ∈ E.

(** In the same connected component of the undirected graph. *)
Definition similar (E : list (nat * nat)) : relation nat := rtsc (edge E).

(** The edges come row by row, and each goes from a smaller to a larger
    index. *)
Definition row_ordered (E : list (nat * nat)) : Prop :=
  StronglySorted (λ e e' : nat * nat, e.1 ≤ e'.1) E ∧ Forall (λ e : nat * nat, e.1 < e.2) E.

(** The endpoints in the order [nx.Graph] meets them. *)
Definition endpoints (E : list (nat * nat)) : list nat := flat_map (λ e, [e.1; e.2]) E.

(** The node kept for a component: the first one of its listing. *)
Definition representative (listing : list nat → gset nat → list nat)
    (E : list (nat * nat)) (c : gset nat) : option nat :=
  head (listing (graph_nodes E) c).

Section prune.
Context {conformer : Type}.
(** [rmsd.kabsch_rmsd(a, b, translate=True)] *)
Variable kabsch_rmsd : conformer → conformer → Qc.
(** [tuple(g.subgraph(c).nodes)]: the listing of the nodes of a component,
    given the nodes of [g] in insertion order. *)
Variable subgraph_nodes : list nat → gset nat → list nat.
Variable max_rmsd : Qc.

Definition below (si sj : conformer) : Prop := (kabsch_rmsd si sj < max_rmsd)%Qc.

(** [j] is the first index after [i] whose conformer is closer to the one at
    [i] than the threshold. *)
Definition first_match (subset : list conformer) (i j : nat) : Prop :=
  i < j ∧
  ∃ si sj, subset !! i = Some si ∧ subset !! j = Some sj ∧ below si sj ∧
    ∀ j' sj', i < j' → j' < j → subset !! j' = Some sj' → ¬ below si sj'.

(** Every pair [i < j] closer than the threshold, whether first or not. *)
Definition any_match (subset : list conformer) (i j : nat) : Prop :=
  i < j ∧ ∃ si sj, subset !! i = Some si ∧ subset !! j = Some sj ∧ below si sj.

(** [for j in range(i+1, l)] with its [break]; [rest] is
    [structures_subset[j:]]. *)
Fixpoint inner_loop (i : nat) (si : conformer) (j : nat) (rest : list conformer)
    (rmsd_mat : matrix) : matrix :=
  match rest with
  | [] => rmsd_mat
  | sj :: rest' =>
      let val := kabsch_rmsd si sj in
      let rmsd_mat := mat_set i j val rmsd_mat in
      if bool_decide (val < max_rmsd)%Qc then rmsd_mat
      else inner_loop i si (S j) rest' rmsd_mat
  end.

(** [for i in range(l)]; [rest] is [structures_subset[i:]]. *)
Fixpoint outer_loop (i : nat) (rest : list conformer) (rmsd_mat : matrix) : matrix :=
  match rest with
  | [] => rmsd_mat
  | si :: rest' => outer_loop (S i) rest' (inner_loop i si (S i) rest' rmsd_mat)
  end.

Definition rmsd_matrix (structures_subset : list conformer) : matrix :=
  let l := length structures_subset in
  outer_loop 0 structures_subset (mat_full l max_rmsd).

Definition matches (structures_subset : list conformer) : list (nat * nat) :=
  np_where_lt (rmsd_matrix structures_subset) max_rmsd.

(** The body of [for step in range(k)] after the slice is taken. *)
Definition prune_shard (structures_subset : list conformer) : result (list bool) :=
  let l := length structures_subset in
  let matches := matches structures_subset in
  let g := graph_nodes matches in
  let groups := subgraph_nodes g <$> connected_components matches in
  best_of_cluster ← mapM (λ group, py_index group 0) groups ;;;
  let rejects_sets : list (gset nat) :=
    zip_with (λ a b, list_to_set a ∖ {[b]}) groups best_of_cluster in
  let rejects := concat (elements <$> rejects_sets) in
  mask_clear_all (replicate l true) rejects.

Definition shard (structures : list conformer) (d k step : nat) : list conformer :=
  if decide (step = k - 1) then drop (d * step) structures
  else take (d * (step + 1) - d * step) (drop (d * step) structures).

(** The value of [np.concatenate(mask_out)] for an ensemble already in the
    order in which it is cut into shards. *)
Definition shard_masks (structures : list conformer) (k : nat) : result (list bool) :=
  let d := length structures / k in
  mask_out ← mapM (λ step, prune_shard (shard structures d k step)) (seq 0 k) ;;;
  Ok (concat mask_out).

(** [sequence] is the value drawn by [np.random.permutation(r)]; it is not
    read when [k = 1]. *)
Definition prune_conformers (structures : list conformer) (k : nat) (sequence : list nat)
    : result (list conformer * list bool) :=
  shuffled ←
    (if decide (k ≠ 1) then
       let r := seq 0 (length structures) in
       inv_sequence ← mapM (first_index sequence) r ;;;
       structures ← scramble structures sequence ;;;
       Ok (structures, Some inv_sequence)
     else Ok (structures, None)) ;;;
  let '(structures, inv_sequence) := shuffled in
  if decide (k = 0) then Raise ZeroDivisionError
  else
    let d := length structures / k in
    mask_out ← mapM (λ step, prune_shard (shard structures d k step)) (seq 0 k) ;;;
    let mask := concat mask_out in
    unshuffled ←
      match inv_sequence with
      | Some inv_sequence =>
          mask ← scramble_mask mask inv_sequence ;;;
          structures ← scramble structures inv_sequence ;;;
          Ok (structures, mask)
      | None => Ok (structures, mask)
      end ;;;
    let '(structures, mask) := unshuffled in
    subset ← mask_index structures mask ;;;
    Ok (subset, mask).

End prune.
End Prune.

(** ** Rigid alignment metric: [rmsd_py] *)

Module Rmsd.

(** A two-dimensional numpy array with its shape. *)
Record ndarray : Type := mk_ndarray {
  nrows : nat;
  ncols : nat;
  rows : list (list Qc)
}.

Definition entry (a : ndarray) (i j : nat) : Qc :=
  default 0%Qc (rows a !! i ≫= λ r, r !! j).

Definition sumQc (l : list Qc) : Qc := foldr Qcplus 0%Qc l.

Definition of_coords (c : list (Qc * Qc * Qc)) : ndarray :=
  mk_ndarray (length c) 3 ((λ p, [p.1.1; p.1.2; p.2]) <$> c).

(** [a.T] *)
Definition transpose (a : ndarray) : ndarray :=
  mk_ndarray (ncols a) (nrows a)
    ((λ j, (λ i, entry a i j) <$> seq 0 (nrows a)) <$> seq 0 (ncols a)).

(** [a @ b]; numpy raises [ValueError] when the inner dimensions differ. *)
Definition matmul (a b : ndarray) : result ndarray :=
  if decide (ncols a = nrows b) then
    Ok (mk_ndarray (nrows a) (ncols b)
      ((λ i, (λ j, sumQc ((λ k, entry a i k * entry b k j)%Qc <$> seq 0 (ncols a)))
               <$> seq 0 (ncols b)) <$> seq 0 (nrows a)))
  else Raise ValueError.

(** [np.trace] *)
Definition trace (a : ndarray) : Qc :=
  sumQc ((λ i, entry a i i) <$> seq 0 (min (nrows a) (ncols a))).

(** [np.mean(a, axis=0)]; the mean of no rows is not a number in numpy and is
    0 here, which is never read because there is then no row to subtract it
    from. *)
Definition mean0 (a : ndarray) : list Qc :=
  (λ j, (sumQc ((λ i, entry a i j) <$> seq 0 (nrows a)) / of_nat (nrows a))%Qc)
    <$> seq 0 (ncols a).

(** [a - np.mean(a, axis=0)] *)
Definition center (a : ndarray) : ndarray :=
  let m := mean0 a in
  mk_ndarray (nrows a) (ncols a)
    ((λ r, zip_with (λ x mu, (x - mu)%Qc) r m) <$> rows a).

(** [M[i, j]] *)
Definition item (a : ndarray) (i j : nat) : result Qc :=
  r ← py_index (rows a) i ;;; py_index r j.

Definition M_mtx (A B : ndarray) : result ndarray := matmul (transpose B) A.

Definition K_mtx (M : ndarray) : result ndarray :=
  S_xx ← item M 0 0 ;;;
  S_xy ← item M 0 1 ;;;
  S_xz ← item M 0 2 ;;;
  S_yx ← item M 1 0 ;;;
  S_yy ← item M 1 1 ;;;
  S_yz ← item M 1 2 ;;;
  S_zx ← item M 2 0 ;;;
  S_zy ← item M 2 1 ;;;
  S_zz ← item M 2 2 ;;;
  let S_xx_yy_zz_ppp := (S_xx + S_yy + S_zz)%Qc in
  let S_yz_zy_pm := (S_yz - S_zy)%Qc in
  let S_zx_xz_pm := (S_zx - S_xz)%Qc in
  let S_xy_yx_pm := (S_xy - S_yx)%Qc in
  let S_xx_yy_zz_pmm := (S_xx - S_yy - S_zz)%Qc in
  let S_xy_yx_pp := (S_xy + S_yx)%Qc in
  let S_zx_xz_pp := (S_zx + S_xz)%Qc in
  let S_xx_yy_zz_mpm := (- S_xx + S_yy - S_zz)%Qc in
  let S_yz_zy_pp := (S_yz + S_zy)%Qc in
  let S_xx_yy_zz_mmp := (- S_xx - S_yy + S_zz)%Qc in
  Ok (mk_ndarray 4 4
    [ [S_xx_yy_zz_ppp; S_yz_zy_pm; S_zx_xz_pm; S_xy_yx_pm];
      [S_yz_zy_pm; S_xx_yy_zz_pmm; S_xy_yx_pp; S_zx_xz_pp];
      [S_zx_xz_pm; S_xy_yx_pp; S_xx_yy_zz_mpm; S_yz_zy_pp];
      [S_xy_yx_pm; S_zx_xz_pp; S_yz_zy_pp; S_xx_yy_zz_mmp] ]).

Section rmsd.
(** [np.sqrt] *)
Variable sqrt : Qc → Qc.
(** [_lambda_max_eig]: [np.max(np.linalg.eig(K)[0])] *)
Variable lambda_max_eig : ndarray → Qc.

Definition rmsd_py (coords1 coords2 : list (Qc * Qc * Qc)) : result Qc :=
  let atol := frac 1 1000000000 in
  let A := center (of_coords coords1) in
  let B := center (of_coords coords2) in
  let N := nrows A in
  AtA ← matmul (transpose A) A ;;;
  let Ga := trace AtA in
  BtB ← matmul (transpose B) B ;;;
  let Gb := trace BtB in
  M ← M_mtx A B ;;;
  K ← K_mtx M ;;;
  let l_max := lambda_max_eig K in
  let s := (Ga + Gb - frac 2 1 * l_max)%Qc in
  if bool_decide (Qc_abs s < atol)%Qc then Ok 0%Qc
  else Ok (sqrt (s / of_nat N)%Qc).

End rmsd.
End Rmsd.

(** ** Density voxelizer: [Density_object] *)

Module Density.

Definition vec : Type := Qc * Qc * Qc.

(** A three-dimensional numpy array as nested lists, outer axis first. *)
Abbreviation grid A := (list (list (list A))).

Definition cells {A} (g : grid A) : list A := concat (concat g).

Definition zeros (shape : nat * nat * nat) : grid Qc :=
  replicate shape.1.1 (replicate shape.1.2 (replicate shape.2 0%Qc)).

(** The grid a call left in [self.box], or the empty grid if it raised. *)
Definition grid_of {A} (r : result (grid A)) : grid A :=
  match r with
  | Ok g => g
  | Raise _ => []
  end.

(** The fields of [Density_object] that [compute_CoDe] reads. [self.atoms] is
    built from [self.atomcoords] in [__init__]. *)
Record density_object : Type := mk_density_object {
  atomcoords : list (list vec);
  energies : list Qc;
  T : Qc
}.

Definition atoms (self : density_object) : list vec := concat (atomcoords self).

(** What a numpy float holds after a division. *)
Inductive np_float : Type :=
  | Fin (q : Qc)
  | PInf
  | NInf
  | NaN.

(** numpy division: dividing by zero gives an infinity or not-a-number (with
    a warning), never an exception. *)
Definition np_div (x m : Qc) : np_float :=
  if decide (m = 0%Qc) then
    if decide (x = 0%Qc) then NaN
    else if decide (0 < x)%Qc then PInf else NInf
  else Fin (x / m)%Qc.

(** A Python slice bound on an axis of length [n]: negative bounds count from
    the end, and the result is clipped to the axis. *)
Definition slice_bound (n : nat) (i : Z) : nat :=
  if decide (i < 0)%Z then Z.to_nat (Z.max 0 (i + Z.of_nat n))
  else Z.to_nat (Z.min i (Z.of_nat n)).

(** Start and length of [a[start:stop]]. *)
Definition slice (n : nat) (start stop : Z) : nat * nat :=
  let lo := slice_bound n start in
  let hi := slice_bound n stop in
  (lo, hi - lo).

(** An axis of the right-hand side of length [s] broadcasts against a slice of
    length [len] when they agree or [s = 1]. *)
Definition broadcasts (len s : nat) : bool :=
  bool_decide (len = s) || bool_decide (s = 1).

Definition inside (lo len i : nat) : bool :=
  bool_decide (lo ≤ i) && bool_decide (i < lo + len).

(** The index read on the right-hand side for index [i] of the left one. *)
Definition source_index (lo s i : nat) : nat := if decide (s = 1) then 0 else i - lo.

(** [box[x_pos:x_pos+s, y_pos:y_pos+s, z_pos:z_pos+s] += stamp * weight] *)
Definition stamp_add (shape : nat * nat * nat) (box : grid Qc) (x_pos y_pos z_pos : Z)
    (stamp_len : nat) (stamp : nat → nat → nat → Qc) (weight : Qc) : result (grid Qc) :=
  let s := Z.of_nat stamp_len in
  let '(x0, nx) := slice shape.1.1 x_pos (x_pos + s) in
  let '(y0, ny) := slice shape.1.2 y_pos (y_pos + s) in
  let '(z0, nz) := slice shape.2 z_pos (z_pos + s) in
  if broadcasts nx stamp_len && broadcasts ny stamp_len && broadcasts nz stamp_len then
    Ok (imap (λ x plane,
          imap (λ y row,
            imap (λ z c,
              if inside x0 nx x && inside y0 ny y && inside z0 nz z
              then (c + stamp (source_index x0 stamp_len x) (source_index y0 stamp_len y)
                            (source_index z0 stamp_len z) * weight)%Qc
              else c) row) plane) box)
  else Raise ValueError.

Section density.
(** [np.exp] *)
Variable exp : Qc → Qc.

Variables (voxel_dim stamp_size hardness : Qc).

(** [self.stamp[x, y, z]] *)
Definition stamp (stamp_len : Z) (x y z : nat) : Qc :=
  let half := (of_Z stamp_len / frac 2 1)%Qc in
  let r_2 := ((of_nat x - half) * (of_nat x - half)
              + (of_nat y - half) * (of_nat y - half)
              + (of_nat z - half) * (of_nat z - half))%Qc in
  exp (- hardness * voxel_dim / stamp_size * r_2)%Qc.

(** [for atom in conformer] *)
Fixpoint atom_loop (self : density_object) (shape : nat * nat * nat) (stamp_len : Z)
    (min_x min_y min_z : Qc) (energy : Qc) (conformer : list vec) (box : grid Qc)
    : result (grid Qc) :=
  match conformer with
  | [] => Ok box
  | atom :: conformer' =>
      let outline := (2 * stamp_len)%Z in
      let x_pos := py_round ((atom.1.1 - min_x) / voxel_dim + of_Z outline / frac 2 1)%Qc in
      let y_pos := py_round ((atom.1.2 - min_y) / voxel_dim + of_Z outline / frac 2 1)%Qc in
      let z_pos := py_round ((atom.2 - min_z) / voxel_dim + of_Z outline / frac 2 1)%Qc in
      if decide (T self = 0%Qc) then Raise ZeroDivisionError
      else
        let weight := exp (- energy * frac 5032475342795285 10000000000000 / T self)%Qc in
        box ← stamp_add shape box x_pos y_pos z_pos (Z.to_nat stamp_len)
                (stamp stamp_len) weight ;;;
        atom_loop self shape stamp_len min_x min_y min_z energy conformer' box
  end.

(** [for i, conformer in enumerate(self.atomcoords)]; [rest] is
    [self.atomcoords[i:]]. *)
Fixpoint conformer_loop (self : density_object) (shape : nat * nat * nat) (stamp_len : Z)
    (min_x min_y min_z : Qc) (i : nat) (rest : list (list vec)) (box : grid Qc)
    : result (grid Qc) :=
  match rest with
  | [] => Ok box
  | conformer :: rest' =>
      energy ← py_index (energies self) i ;;;
      box ← (if bool_decide (energy < frac 10 1)%Qc
             then atom_loop self shape stamp_len min_x min_y min_z energy conformer box
             else Ok box) ;;;
      conformer_loop self shape stamp_len min_x min_y min_z (S i) rest' box
  end.

(** [compute_CoDe] up to the end of the accumulation loop: the grid before
    it is normalized. *)
Definition accumulate (self : density_object) : result (grid Qc) :=
  if decide (voxel_dim = 0%Qc) then Raise ZeroDivisionError
  else
    let stamp_len := py_round (stamp_size / voxel_dim)%Qc in
    if decide (stamp_len < 0)%Z then Raise ValueError
    else
      let x_coords := (λ pos : vec, pos.1.1) <$> atoms self in
      let y_coords := (λ pos : vec, pos.1.2) <$> atoms self in
      let z_coords := (λ pos : vec, pos.2) <$> atoms self in
      min_x ← py_min x_coords ;;;
      min_y ← py_min y_coords ;;;
      min_z ← py_min z_coords ;;;
      max_x ← py_max x_coords ;;;
      max_y ← py_max y_coords ;;;
      max_z ← py_max z_coords ;;;
      let size := (max_x - min_x, max_y - min_y, max_z - min_z)%Qc in
      let outline := (2 * stamp_len)%Z in
      let shape := (Qc_ceil (size.1.1 / voxel_dim) + outline,
                    Qc_ceil (size.1.2 / voxel_dim) + outline,
                    Qc_ceil (size.2 / voxel_dim) + outline)%Z in
      if decide (shape.1.1 < 0 ∨ shape.1.2 < 0 ∨ shape.2 < 0)%Z then Raise ValueError
      else
        let shape := (Z.to_nat shape.1.1, Z.to_nat shape.1.2, Z.to_nat shape.2) in
        conformer_loop self shape stamp_len min_x min_y min_z 0 (atomcoords self)
          (zeros shape).

(** The last statement: [100 * self.box / max(self.box.reshape(...)[0])]. *)
Definition normalize (box : grid Qc) : result (grid np_float) :=
  m ← py_max (cells box) ;;;
  Ok (map (map (map (λ c, np_div (frac 100 1 * c) m))) box).

(** The new value of [self.box]. *)
Definition compute_CoDe (self : density_object) : result (grid np_float) :=
  box ← accumulate self ;;;
  normalize box.

End density.

(** *** [write_cubefile]: the body of the cube file *)

(** An entry of [print_list]: a formatted value or a line break. *)
Inductive token (A : Type) : Type :=
  | Value (v : A)
  | Newline.
Arguments Value {A} v.
Arguments Newline {A}.

(** The body of the innermost loop; the state is [print_list] and [count]. *)
Definition emit {A} (st : list (token A) * nat) (v : A) : list (token A) * nat :=
  let '(print_list, count) := st in
  let print_list := print_list ++ [Value v] in
  let count := count + 1 in
  if decide (count `mod` 6 = 5) then (print_list ++ [Newline], count)
  else (print_list, count).

(** The tokens joined into the file after the atom lines. *)
Definition cube_body {A} (box : grid A) : list (token A) :=
  let st := foldl (λ st plane, foldl (λ st row, foldl emit st row) st plane) ([], 0) box in
  st.1 ++ [Newline].

(** The lines of a text: the runs of values each line break closes. *)
Fixpoint lines_from {A} (cur : list A) (toks : list (token A)) : list (list A) :=
  match toks with
  | [] => []
  | Value v :: toks' => lines_from (cur ++ [v]) toks'
  | Newline :: toks' => cur :: lines_from [] toks'
  end.

Definition lines {A} (toks : list (token A)) : list (list A) := lines_from [] toks.

Definition values {A} (toks : list (token A)) : list A :=
  omap (λ t, match t with Value v => Some v | Newline => None end) toks.

End Density.

(** The value a call returned, or [d] if it raised. *)
Definition value_or {A} (d : A) (r : result A) : A :=
  match r with
  | Ok a => a
  | Raise _ => d
  end.

(** ** The bounding box of an ensemble *)

Module Box.

(** An atom between the corners [lo] and [hi] of the bounding box. *)
Definition within (lo hi : Density.vec) (a : Density.vec) : Prop :=
  (lo.1.1 ≤ a.1.1 ∧ a.1.1 ≤ hi.1.1 ∧ lo.1.2 ≤ a.1.2 ∧ a.1.2 ≤ hi.1.2 ∧
   lo.2 ≤ a.2 ∧ a.2 ≤ hi.2)%Qc.

End Box.

(** ** Ring dihedrals for the minimum-energy path: [automep.py] *)

Module Automep.

(** [i % n] on non-negative integers. *)
Definition py_mod (i n : nat) : result nat :=
  if decide (n = 0) then Raise ZeroDivisionError else Ok (i `mod` n).

(** [cycle_to_dihedrals(cycle)] *)
Definition cycle_to_dihedrals (cycle : list nat) : result (list (list nat)) :=
  mapM (λ i,
          ia ← py_mod i (length cycle) ;;;
          a ← py_index cycle ia ;;;
          ib ← py_mod (i + 1) (length cycle) ;;;
          b ← py_index cycle ib ;;;
          ic ← py_mod (i + 2) (length cycle) ;;;
          c ← py_index cycle ic ;;;
          id ← py_mod (i + 3) (length cycle) ;;;
          d ← py_index cycle id ;;;
          Ok [a; b; c; d])
       (seq 0 (length cycle)).

(** [next(i for i in cycle if p(i))]: the first such element; [None] stands
    for [StopIteration]. *)
Definition next (p : nat → bool) (cycle : list nat) : option nat := List.find p cycle.

Section exocyclic.
(** [neighbors(graph, index)] for the graph of the molecule. *)
Variable neighbors : nat → list nat.

(** [i not in (...) and i in neighbors(graph, atom)] *)
Definition candidate (excluded : list nat) (atom : nat) (i : nat) : bool :=
  bool_decide (i ∉ excluded) && bool_decide (i ∈ neighbors atom).

(** The body of the inner loop for one neighbour [exo_id] of [index]. *)
Definition exo_step (cycle : list nat) (index : nat) (exo_dihs : list (list nat))
    (exo_id : nat) : option (list (list nat)) :=
  if bool_decide (exo_id ∉ cycle) then
    dummy1 ← next (candidate [exo_id; index] index) cycle;
    dummy2 ← next (candidate [exo_id; index; dummy1] dummy1) cycle;
    Some (exo_dihs ++ [[exo_id; index; dummy1; dummy2]])
  else Some exo_dihs.

(** A [for] loop whose body may stop the function. *)
Fixpoint for_each {A S} (body : S → A → option S) (st : S) (l : list A) : option S :=
  match l with
  | [] => Some st
  | x :: l' => st' ← body st x; for_each body st' l'
  end.

(** [get_exocyclic_dihedrals(graph, cycle)] *)
Definition get_exocyclic_dihedrals (cycle : list nat) : option (list (list nat)) :=
  for_each (λ exo_dihs index, for_each (exo_step cycle index) exo_dihs (neighbors index))
    [] cycle.

(** A chain [exo_id - index - dummy1 - dummy2] that leaves the ring at
    [index]. *)
Definition exo_chain (cycle d : list nat) : Prop :=
  ∃ exo_id index dummy1 dummy2,
    d = [exo_id; index; dummy1; dummy2] ∧
    (exo_id ∉ cycle) ∧ index ∈ cycle ∧ dummy1 ∈ cycle ∧ dummy2 ∈ cycle ∧
    exo_id ∈ neighbors index ∧ dummy1 ∈ neighbors index ∧ dummy2 ∈ neighbors dummy1 ∧
    NoDup d.

(** A ring atom has two ring neighbours. *)
Definition two_ring_neighbours (cycle : list nat) : Prop :=
  ∀ a, a ∈ cycle →
    ∃ b c, b ∈ cycle ∧ c ∈ cycle ∧ b ≠ c ∧ b ≠ a ∧ c ≠ a ∧
           b ∈ neighbors a ∧ c ∈ neighbors a.

End exocyclic.
End Automep.

(** ** Stand-ins for the numeric primitives, to run the code on examples *)

(** A square root exact on the squares of integers. *)
Definition sqrt_int (q : Qc) : Qc := of_Z (Z.sqrt (Qc_floor q)).

(** A positive, increasing stand-in for [exp]. *)
Definition exp_rat (x : Qc) : Qc :=
  if bool_decide (x < 0)%Qc then (1 / (1 - x))%Qc else (1 + x)%Qc.

(** ** Inputs for the examples *)

(** A four-atom geometry: two atoms 5 apart and two more far away. *)
Definition four_atoms : list Clash.vec :=
  [(0, 0, 0); (of_Z 3, of_Z 4, 0); (of_Z 30, 0, 0); (of_Z 60, 0, 0)]%Qc.

(** Two conformers of a two-atom molecule; the second is above the cut. *)
Definition two_conformers : Density.density_object :=
  Density.mk_density_object
    [[(0, 0, 0); (frac 1 2, 0, 0)]; [(0, 0, 0); (frac 1 2, 0, 0)]]%Qc
    [0%Qc; frac 50 1] (frac 29815 100).

(** The same geometry with every conformer above the cut. *)
Definition all_excluded : Density.density_object :=
  Density.mk_density_object
    [[(0, 0, 0); (frac 1 2, 0, 0)]; [(0, 0, 0); (frac 1 2, 0, 0)]]%Qc
    [frac 50 1; frac 50 1] (frac 29815 100).

(** Two-atom conformers given by their bond length: after the optimal
    superposition the RMSD of two of them is half the difference of the
    lengths. *)
Definition diatomic_rmsd (a b : Qc) : Qc := (Qc_abs (a - b) / frac 2 1)%Qc.

(** Bond lengths 2, 3.5 and 0.5: the first is within 1 of both others, which
    are 1.5 apart. *)
Definition three_diatomics : list Qc := [frac 2 1; frac 7 2; frac 1 2].

(** One conformer of a two-atom molecule that lies along no axis. *)
Definition bent_conformer : Density.density_object :=
  Density.mk_density_object [[(0, 0, 0); (of_Z 2, of_Z 1, of_Z 1)]]%Qc [0%Qc] (frac 29815 100).

(** A seven-membered ring with one atom bound to ring atom 0 and one to
    ring atom 3. *)
Definition seven_ring : list nat := [0; 1; 2; 3; 4; 5; 6].

Definition seven_ring_neighbors (a : nat) : list nat :=
  match a with
  | 0 => [1; 6; 7]
  | 1 => [0; 2]
  | 2 => [1; 3]
  | 3 => [2; 4; 8]
  | 4 => [3; 5]
  | 5 => [4; 6]
  | 6 => [5; 0]
  | 7 => [0]
  | 8 => [3]
  | _ => []
  end.

(** * Properties *)

Lemma py_index_Ok {A} (l : list A) i a : l !! i = Some a → py_index l i = Ok a.
Proof. unfold py_index. by intros ->. Qed.

Lemma py_index_lt {A} (l : list A) i :
  i < length l → ∃ a, py_index l i = Ok a ∧ l !! i = Some a.
Proof.
  intros Hi. destruct (lookup_lt_is_Some_2 l i Hi) as [a Ha].
  exists a. by rewrite (py_index_Ok _ _ _ Ha).
Qed.

Lemma py_index_ge {A} (l : list A) i : length l ≤ i → py_index l i = Raise IndexError.
Proof. intros Hi. unfold py_index. by rewrite lookup_ge_None_2. Qed.

Lemma mapM_Ok {A B} (f : A → result B) l ys :
  mapM f l = Ok ys ↔ Forall2 (λ x y, f x = Ok y) l ys.
Proof.
  revert ys. induction l as [|x l IH]; intros ys; cbn [mapM].
  - split; [intros [= <-]; constructor | by inversion 1].
  - destruct (f x) as [y|e] eqn:Hx; cbn [rbind].
    + destruct (mapM f l) as [ys'|e] eqn:Hl; cbn [rbind].
      * split.
        -- intros [= <-]. constructor; [done|]. by apply IH.
        -- inversion 1 as [|? y' ? ys'' Hy Hys]; subst.
           apply IH in Hys. congruence.
      * split; [done|]. inversion 1 as [|? y' ? ys'' Hy Hys]; subst.
        by apply IH in Hys.
    + split; [done|]. inversion 1; congruence.
Qed.

Lemma mapM_total {A B} (f : A → result B) l :
  Forall (λ x, ∃ y, f x = Ok y) l → ∃ ys, mapM f l = Ok ys.
Proof.
  induction 1 as [|x l [y Hy] _ [ys Hys]]; cbn [mapM].
  - by eexists.
  - rewrite Hy, Hys. by eexists.
Qed.

Lemma mapM_length {A B} (f : A → result B) l ys : mapM f l = Ok ys → length ys = length l.
Proof. intros H%mapM_Ok. symmetry. by eapply Forall2_length. Qed.

(** ** The clash detector *)

Module ClashFacts.
Import Clash.

Section facts.
Variable sqrt : Qc → Qc.
Variable thresh : Qc.
Variable max_clashes : Z.

Abbreviation norm_of := (norm_of sqrt).
Abbreviation clashing := (clashing sqrt thresh).
Abbreviation count_row := (count_row sqrt thresh).
Abbreviation count_between := (count_between sqrt thresh).
Abbreviation inter_fragment_clashes := (inter_fragment_clashes sqrt thresh).
Abbreviation inner_loop := (inner_loop sqrt thresh max_clashes).
Abbreviation pair_loop := (pair_loop sqrt thresh max_clashes).
Abbreviation compenetration_check := (compenetration_check sqrt thresh max_clashes).

Lemma norm_of_vsub_sym v w : norm_of (vsub v w) = norm_of (vsub w v).
Proof.
  destruct v as [[a b] c], w as [[a' b'] c']. unfold Clash.norm_of, vsub.
  f_equal. ring.
Qed.

Lemma clashing_sym v w : clashing v w = clashing w v.
Proof. unfold Clash.clashing. by rewrite norm_of_vsub_sym. Qed.

Lemma count_row_cons v w b :
  count_row v (w :: b) = (if clashing v w then 1 else 0) + count_row v b.
Proof.
  unfold Clash.count_row. rewrite filter_cons.
  destruct (clashing v w); case_decide; simpl; congruence.
Qed.

Lemma inner_loop_count v1 m2 (c : Z) :
  (c ≤ max_clashes)%Z →
  inner_loop v1 m2 c =
    if decide (c + Z.of_nat (count_row v1 m2) ≤ max_clashes)%Z
    then Some (c + Z.of_nat (count_row v1 m2))%Z else None.
Proof.
  revert c. induction m2 as [|v2 m2 IH]; intros c Hc.
  - simpl. rewrite Z.add_0_r. by rewrite decide_True.
  - cbn [Clash.inner_loop]. rewrite count_row_cons.
    change (bool_decide (norm_of (vsub v1 v2) < thresh)%Qc) with (clashing v1 v2).
    destruct (clashing v1 v2).
    + case_bool_decide as Hgt.
      * rewrite decide_False; [done | lia].
      * rewrite IH by lia.
        repeat case_decide; try lia; f_equal; lia.
    + rewrite bool_decide_eq_false_2 by lia.
      rewrite IH by lia. done.
Qed.

Lemma pair_loop_count m1 m2 (c : Z) :
  (c ≤ max_clashes)%Z →
  pair_loop m1 m2 c =
    if decide (c + Z.of_nat (count_between m1 m2) ≤ max_clashes)%Z
    then Some (c + Z.of_nat (count_between m1 m2))%Z else None.
Proof.
  revert c. induction m1 as [|v1 m1 IH]; intros c Hc.
  - simpl. rewrite Z.add_0_r. by rewrite decide_True.
  - cbn [Clash.pair_loop Clash.count_between].
    rewrite inner_loop_count by done. case_decide as Hrow.
    + rewrite IH by done.
      repeat case_decide; try lia; f_equal; lia.
    + rewrite decide_False; [done | lia].
Qed.

Lemma count_between_nil_r a : count_between a [] = 0.
Proof. induction a as [|v a IH]; simpl; [done|]. by rewrite IH. Qed.

Lemma count_between_cons_r b v a :
  count_between b (v :: a) = count_row v b + count_between b a.
Proof.
  induction b as [|w b IH]; [done|].
  cbn [Clash.count_between]. rewrite IH, !count_row_cons, (clashing_sym w v). lia.
Qed.

Lemma count_between_sym a b : count_between a b = count_between b a.
Proof.
  induction a as [|v a IH]; simpl.
  - by rewrite count_between_nil_r.
  - by rewrite count_between_cons_r, IH.
Qed.

Lemma verdict_of_count m1 m2 (c : Z) :
  (c ≤ max_clashes)%Z →
  is_Some (pair_loop m1 m2 c) ↔ (c + Z.of_nat (count_between m1 m2) ≤ max_clashes)%Z.
Proof.
  intros Hc. rewrite pair_loop_count by done.
  case_decide; split; intros H'; try done; by destruct H'.
Qed.


(** C4, as the code has it.  The length of [ids] is not validated: every
    length other than 2 takes the three-fragment branch, which reads
    [ids[0]] and [ids[1]] only.  With fewer than two entries that lookup
    raises [IndexError]; with three or more a verdict is returned, the one
    the first three entries give; and two sequences of lengths other than 2
    that agree on their first two entries, present or missing, give the same
    result, whatever else they hold. *)
Theorem compenetration_check_length_not_validated coords ids :
  length ids ≠ 2 →
  (length ids < 2 → compenetration_check coords ids = Raise IndexError) ∧
  (3 ≤ length ids →
     ∃ verdict : bool,
       compenetration_check coords ids = Ok verdict ∧
       compenetration_check coords (take 3 ids) = Ok verdict) ∧
  (∀ ids', length ids' ≠ 2 → ids' !! 0 = ids !! 0 → ids' !! 1 = ids !! 1 →
     compenetration_check coords ids' = compenetration_check coords ids).
Proof.
  intros Hne. split_and!.
  - intros Hlt. unfold Clash.compenetration_check.
    rewrite decide_False by done.
    destruct ids as [|i0 [|i1 ids]]; simpl in *; try done; lia.
  - intros Hge. unfold Clash.compenetration_check.
    rewrite !decide_False by (rewrite ?length_take; lia).
    destruct ids as [|i0 [|i1 [|i2 ids]]]; simpl in Hge; try lia.
    change (take 3 (i0 :: i1 :: i2 :: ids)) with [i0; i1; i2].
    cbn -[Clash.pair_loop take drop].
    destruct (pair_loop _ _ 0) as [c12|]; [|by eexists].
    destruct (pair_loop _ _ c12) as [c23|]; [|by eexists].
    destruct (pair_loop _ _ c23) as [c31|]; by eexists.
  - intros ids' Hne' H0 H1. unfold Clash.compenetration_check.
    rewrite !decide_False by done. unfold py_index. by rewrite H0, H1.
Qed.

(** C10. With exactly two atom counts the second one is never read: the
    second fragment is every atom from index [ids[0]] to the end, whatever
    the second count says, and no error is raised. *)
Theorem compenetration_check_second_count_unread coords (i0 i1 i1' : nat) :
  compenetration_check coords [i0; i1] = compenetration_check coords [i0; i1'] ∧
  compenetration_check coords [i0; i1] =
    Ok (bool_decide (is_Some (pair_loop (take i0 coords) (drop i0 coords) 0))).
Proof.
  split; [done|].
  unfold Clash.compenetration_check. rewrite decide_True by done.
  cbn -[Clash.pair_loop take drop].
  destruct (pair_loop _ _ 0) as [c|].
  - by rewrite bool_decide_eq_true_2.
  - rewrite bool_decide_eq_false_2; [done | by intros []].
Qed.

End facts.


(** C4, as stated, fails: four atom counts give a verdict, not an error. *)
Lemma compenetration_check_four_counts_verdict :
  length [1; 1; 1; 1] ≠ 2 ∧ length [1; 1; 1; 1] ≠ 3 ∧
  compenetration_check sqrt_int (of_Z 6) 0 four_atoms [1; 1; 1; 1] = Ok false.
Proof. split; [|split]; [simpl; lia | simpl; lia | vm_compute; reflexivity]. Qed.

Lemma compenetration_check_length_not_validated_witness :
  (length [1; 1; 1; 1] < 2 →
     compenetration_check sqrt_int (of_Z 6) 0 four_atoms [1; 1; 1; 1] = Raise IndexError) ∧
  (3 ≤ length [1; 1; 1; 1] →
     ∃ verdict : bool,
       compenetration_check sqrt_int (of_Z 6) 0 four_atoms [1; 1; 1; 1] = Ok verdict ∧
       compenetration_check sqrt_int (of_Z 6) 0 four_atoms (take 3 [1; 1; 1; 1]) = Ok verdict) ∧
  (∀ ids', length ids' ≠ 2 → ids' !! 0 = [1; 1; 1; 1] !! 0 → ids' !! 1 = [1; 1; 1; 1] !! 1 →
     compenetration_check sqrt_int (of_Z 6) 0 four_atoms ids' =
     compenetration_check sqrt_int (of_Z 6) 0 four_atoms [1; 1; 1; 1]).
Proof.
  apply (compenetration_check_length_not_validated sqrt_int (of_Z 6) 0 four_atoms [1; 1; 1; 1]).
  simpl. lia.
Defined.

(** The boundary example of the specification: two single-atom fragments just
    inside the threshold are rejected with [max_clashes = 0], and accepted
    just outside it. *)
Example single_atoms_inside_threshold :
  compenetration_check sqrt_int (of_Z 5) 0 [(0, 0, 0); (of_Z 4, 0, 0)]%Qc [1; 1] = Ok false.
Proof. vm_compute. reflexivity. Qed.

Example single_atoms_outside_threshold :
  compenetration_check sqrt_int (of_Z 5) 0 [(0, 0, 0); (of_Z 6, 0, 0)]%Qc [1; 1] = Ok true.
Proof. vm_compute. reflexivity. Qed.

End ClashFacts.


(** ** The RMSD metric *)

Module RmsdFacts.
Import Rmsd.

Section facts.
Variable sqrt : Qc → Qc.
Variable lambda_max_eig : ndarray → Qc.

Lemma nrows_center_of_coords c : nrows (center (of_coords c)) = length c.
Proof. done. Qed.

Lemma matmul_transpose_self a : ∃ g, matmul (transpose a) a = Ok g.
Proof. unfold matmul. rewrite decide_True by done. by eexists. Qed.

Lemma M_mtx_shape_mismatch A B : nrows A ≠ nrows B → M_mtx A B = Raise ValueError.
Proof.
  intros Hne. unfold M_mtx, matmul. simpl.
  rewrite decide_False; [done | congruence].
Qed.

(** C6. Two point sets of different lengths make [rmsd_py] raise: the
    product [B.T @ A] has mismatched inner dimensions, and no number is
    returned. *)
Theorem rmsd_py_mismatched_lengths_raise coords1 coords2 :
  length coords1 ≠ length coords2 →
  rmsd_py sqrt lambda_max_eig coords1 coords2 = Raise ValueError.
Proof.
  intros Hne. unfold rmsd_py.
  destruct (matmul_transpose_self (center (of_coords coords1))) as [ga ->].
  destruct (matmul_transpose_self (center (of_coords coords2))) as [gb ->].
  cbn [rbind]. rewrite M_mtx_shape_mismatch; [done|].
  by rewrite !nrows_center_of_coords.
Qed.

End facts.

Lemma rmsd_py_mismatched_lengths_raise_witness :
  rmsd_py sqrt_int (λ _, 0%Qc) [(0, 0, 0); (1, 0, 0)]%Qc [(0, 0, 0)]%Qc = Raise ValueError.
Proof. apply rmsd_py_mismatched_lengths_raise. simpl. lia. Defined.

End RmsdFacts.

(** ** The cube file body *)

Module CubeFacts.
Import Density.

Section facts.
Context {A : Type}.

Lemma emit_values (st : list (token A) * nat) v :
  values (emit st v).1 = values st.1 ++ [v] ∧ (emit st v).2 = st.2 + 1.
Proof.
  destruct st as [pl count]. unfold emit, values. simpl.
  case_decide; simpl; rewrite ?omap_app; simpl; by rewrite ?app_nil_r.
Qed.

Lemma foldl_emit_values (row : list A) st :
  values (foldl emit st row).1 = values st.1 ++ row.
Proof.
  revert st. induction row as [|v row IH]; intros st; simpl.
  - by rewrite app_nil_r.
  - rewrite IH. destruct (emit_values st v) as [-> _]. by rewrite <-app_assoc.
Qed.

Lemma foldl_rows_values (plane : list (list A)) st :
  values (foldl (λ st row, foldl emit st row) st plane).1 = values st.1 ++ concat plane.
Proof.
  revert st. induction plane as [|row plane IH]; intros st; simpl.
  - by rewrite app_nil_r.
  - rewrite IH, foldl_emit_values. by rewrite <-app_assoc.
Qed.

(** The values of the body are the cells in row-major order, the last
    axis fastest. *)
Lemma cube_body_row_major (box : grid A) : values (cube_body box) = cells box.
Proof.
  unfold cube_body, cells.
  set (f := λ st plane, foldl (λ st row, foldl emit st row) st plane).
  assert (∀ st, values (foldl f st box).1 = values st.1 ++ concat (concat box)) as H.
  { induction box as [|plane box IH]; intros st; simpl.
    - by rewrite app_nil_r.
    - rewrite IH. unfold f at 1. rewrite foldl_rows_values.
      by rewrite concat_app, <-app_assoc. }
  unfold values in *. rewrite omap_app, H. simpl. by rewrite app_nil_r.
Qed.

Lemma foldl_emit_prefix (row : list A) st : ∃ more, (foldl emit st row).1 = st.1 ++ more.
Proof.
  revert st. induction row as [|v row IH]; intros st; cbn [foldl].
  - exists []. by rewrite app_nil_r.
  - destruct (IH (emit st v)) as [more ->].
    destruct st as [pl count]. unfold emit. case_decide; cbn [fst];
      rewrite <-?app_assoc; by eexists.
Qed.

Lemma foldl_planes_flat (box : grid A) st :
  foldl (λ st plane, foldl (λ st row, foldl emit st row) st plane) st box =
  foldl emit st (cells box).
Proof.
  unfold cells. revert st. induction box as [|plane box IH]; intros st; [done|].
  cbn [foldl concat]. rewrite concat_app, foldl_app, IH. f_equal.
  clear. revert st. induction plane as [|row plane IH]; intros st; [done|].
  cbn [foldl concat]. by rewrite foldl_app, IH.
Qed.

(** Whatever the grid, as soon as it has five cells the first line of the
    body holds exactly the first five. *)
Lemma cube_body_first_line (box : grid A) :
  5 ≤ length (cells box) → head (lines (cube_body box)) = Some (take 5 (cells box)).
Proof.
  intros Hlen. unfold cube_body. rewrite foldl_planes_flat.
  destruct (cells box) as [|v1 [|v2 [|v3 [|v4 [|v5 rest]]]]]; simpl in Hlen; try lia.
  cbn [foldl]. change (emit (emit (emit (emit (emit ([], 0) v1) v2) v3) v4) v5)
    with ([Value v1; Value v2; Value v3; Value v4; Value v5; Newline], 5).
  destruct (foldl_emit_prefix rest
    ([Value v1; Value v2; Value v3; Value v4; Value v5; Newline], 5)) as [more ->].
  reflexivity.
Qed.

End facts.

(** C9. A grid of twelve cells is written as lines of five, six and one
    values: the line break follows the values numbered 5, 11, 17, ..., so the
    first line holds five values and not six. *)
Theorem cube_body_first_line_five_values :
  lines (cube_body [[[1; 2; 3; 4; 5; 6; 7; 8; 9; 10; 11; 12]]]) =
    [[1; 2; 3; 4; 5]; [6; 7; 8; 9; 10; 11]; [12]].
Proof. reflexivity. Qed.

End CubeFacts.

(** ** The density grid *)

Module DensityFacts.
Import Density.

Lemma cells_Forall {A} (P : A → Prop) (g : grid A) :
  Forall (Forall (Forall P)) g → Forall P (cells g).
Proof. intros H. unfold cells. apply Forall_concat, Forall_concat. done. Qed.

Lemma cells_map {A B} (f : A → B) (g : grid A) :
  cells (map (map (map f)) g) = map f (cells g).
Proof. unfold cells. by rewrite !concat_map. Qed.

Lemma zeros_cells shape : Forall (λ c, c = 0%Qc) (cells (zeros shape)).
Proof.
  apply cells_Forall. unfold zeros.
  by do 3 apply Forall_replicate.
Qed.

Lemma py_max_spec l m :
  py_max l = Ok m → m ∈ l ∧ Forall (λ x, (x ≤ m)%Qc) l.
Proof.
  destruct l as [|x l]; [done|]. simpl. intros [= <-].
  assert (∀ l a, let r := foldl (λ m y : Qc, if bool_decide (m < y)%Qc then y else m) a l in
            (r = a ∨ r ∈ l) ∧ (a ≤ r)%Qc ∧ Forall (λ x, (x ≤ r)%Qc) l) as H.
  { clear. induction l as [|y l IH]; intros a; simpl.
    - split; [by left|]. split; [apply Qcle_refl | constructor].
    - case_bool_decide as Hlt.
      + destruct (IH y) as ([->|Hin] & Hle & Hall).
        * split; [right; left|]. split; [by apply Qclt_le_weak|]. constructor; [apply Qcle_refl|done].
        * split; [right; by right|]. split; [|by constructor].
          eapply Qcle_trans; [apply Qclt_le_weak, Hlt | done].
      + destruct (IH a) as ([->|Hin] & Hle & Hall).
        * split; [by left|]. split; [apply Qcle_refl|]. constructor; [|done].
          by apply Qcnot_lt_le.
        * split; [right; by right|]. split; [done|]. constructor; [|done].
          eapply Qcle_trans; [apply Qcnot_lt_le, Hlt | done]. }
  destruct (H l x) as ([->|Hin] & Hle & Hall).
  - split; [left|]. constructor; [apply Qcle_refl|done].
  - split; [by right|]. by constructor.
Qed.

Lemma py_max_nonempty l : l ≠ [] → ∃ m, py_max l = Ok m.
Proof. destruct l; [done|]. intros _. by eexists. Qed.

Lemma py_min_nil : py_min [] = Raise ValueError.
Proof. done. Qed.

Section facts.
Variable exp : Qc → Qc.
Variables (voxel_dim stamp_size hardness : Qc).

Abbreviation stamp := (stamp exp voxel_dim stamp_size hardness).
Abbreviation atom_loop := (atom_loop exp voxel_dim stamp_size hardness).
Abbreviation conformer_loop := (conformer_loop exp voxel_dim stamp_size hardness).
Abbreviation accumulate := (accumulate exp voxel_dim stamp_size hardness).
Abbreviation compute_CoDe := (compute_CoDe exp voxel_dim stamp_size hardness).

Lemma accumulate_inv self acc :
  accumulate self = Ok acc →
  ∃ shape stamp_len mx my mz,
    conformer_loop self shape stamp_len mx my mz 0 (atomcoords self) (zeros shape) = Ok acc.
Proof.
  unfold Density.accumulate. case_decide; [done|]. case_decide; [done|].
  destruct (py_min _) as [mx|]; [|done]. cbn [rbind].
  destruct (py_min _) as [my|]; [|done]. cbn [rbind].
  destruct (py_min _) as [mz|]; [|done]. cbn [rbind].
  destruct (py_max _) as [Mx|]; [|done]. cbn [rbind].
  destruct (py_max _) as [My|]; [|done]. cbn [rbind].
  destruct (py_max _) as [Mz|]; [|done]. cbn [rbind].
  case_decide; [done|]. intros H'. do 5 eexists. exact H'.
Qed.

(** The loop leaves the grid alone when no conformer is below the cut. *)
Lemma conformer_loop_all_excluded self shape stamp_len mx my mz i rest box box' :
  Forall (λ e, ¬ (e < frac 10 1)%Qc) (energies self) →
  conformer_loop self shape stamp_len mx my mz i rest box = Ok box' → box' = box.
Proof.
  intros Hen. revert i box. induction rest as [|conformer rest IH]; intros i box;
    cbn [Density.conformer_loop].
  - by intros [= <-].
  - unfold py_index. destruct (energies self !! i) as [energy|] eqn:Hi; [|done].
    cbn [rbind]. rewrite bool_decide_eq_false_2.
    + cbn [rbind]. apply IH.
    + eapply Forall_forall in Hen; [done|]. by eapply list_elem_of_lookup_2.
Qed.

Lemma accumulate_all_excluded self acc :
  Forall (λ e, ¬ (e < frac 10 1)%Qc) (energies self) →
  accumulate self = Ok acc → Forall (λ c, c = 0%Qc) (cells acc).
Proof.
  intros Hen (shape & stamp_len & mx & my & mz & Hloop)%accumulate_inv.
  apply conformer_loop_all_excluded in Hloop as ->; [|done].
  apply zeros_cells.
Qed.

Lemma accumulate_no_atoms self : atoms self = [] → raises (accumulate self).
Proof.
  intros Hnil. unfold Density.accumulate. rewrite Hnil.
  case_decide; [by eexists|]. case_decide; by eexists.
Qed.

(** C5, as the code has it.  The normalization has no guard.  An ensemble
    without atoms does not reach it ([min] of the empty coordinate list
    raises); a grid that is entirely zero after the accumulation, as it is
    when no conformer has an energy below 10, is divided by its zero
    maximum and comes back with every cell not-a-number, without an
    error. *)
Theorem compute_CoDe_zero_grid_unguarded self :
  (atoms self = [] → raises (compute_CoDe self)) ∧
  (∀ acc, accumulate self = Ok acc →
     (Forall (λ e, ¬ (e < frac 10 1)%Qc) (energies self) →
        Forall (λ c, c = 0%Qc) (cells acc)) ∧
     (cells acc ≠ [] → Forall (λ c, c = 0%Qc) (cells acc) →
        ∃ box, compute_CoDe self = Ok box ∧ cells box ≠ [] ∧
               Forall (λ c, c = NaN) (cells box))).
Proof.
  split.
  - intros [e He]%accumulate_no_atoms. exists e.
    unfold Density.compute_CoDe. by rewrite He.
  - intros acc Hacc. split; [intros Hen; by eapply accumulate_all_excluded|].
    intros Hne Hzero.
    destruct (py_max_nonempty _ Hne) as [m Hm].
    destruct (py_max_spec _ _ Hm) as [Hin _].
    eapply Forall_forall in Hin; [|apply Hzero]. simpl in Hin. subst m.
    unfold Density.compute_CoDe, normalize. rewrite Hacc. cbn [rbind]. rewrite Hm. cbn [rbind].
    eexists. split; [done|]. rewrite cells_map. split.
    + destruct (cells acc); [done|]. done.
    + apply Forall_forall. intros c (c' & -> & Hc')%list_elem_of_fmap.
      eapply Forall_forall in Hzero; [|apply Hc']. simpl in Hzero. subst c'.
      unfold np_div. rewrite decide_True by done.
      rewrite decide_True; [done|]. apply Qcmult_0_r.
Qed.

End facts.

Lemma all_zero_cells_found (g : grid Qc) :
  forallb (λ c, bool_decide (c = 0%Qc)) (cells g) = true →
  Forall (λ c, c = 0%Qc) (cells g).
Proof.
  intros H. apply Forall_forall. intros c Hc%list_elem_of_In.
  rewrite forallb_forall in H. apply H in Hc. by apply bool_decide_eq_true_1 in Hc.
Qed.

(** C5, as stated, fails: with every conformer above the cut the grid stays
    zero, and the call returns a grid of not-a-number cells instead of
    raising. *)
Lemma compute_CoDe_all_excluded_returns_nan :
  Forall (λ c, c = 0%Qc)
    (cells (grid_of (accumulate exp_rat (frac 1 2) (frac 1 1) (frac 5 1) all_excluded))) ∧
  compute_CoDe exp_rat (frac 1 2) (frac 1 1) (frac 5 1) all_excluded =
    Ok (replicate 5 (replicate 4 (replicate 4 NaN))).
Proof.
  split.
  - apply all_zero_cells_found. vm_compute. reflexivity.
  - vm_compute. reflexivity.
Qed.

Lemma compute_CoDe_zero_grid_unguarded_witness :
  ∃ box,
    compute_CoDe exp_rat (frac 1 2) (frac 1 1) (frac 5 1) all_excluded = Ok box ∧
    cells box ≠ [] ∧ Forall (λ c, c = NaN) (cells box).
Proof.
  apply (proj2 (compute_CoDe_zero_grid_unguarded exp_rat (frac 1 2) (frac 1 1) (frac 5 1)
                  all_excluded)
           (grid_of (accumulate exp_rat (frac 1 2) (frac 1 1) (frac 5 1) all_excluded))).
  - vm_compute. reflexivity.
  - vm_compute. discriminate.
  - apply all_zero_cells_found. vm_compute. reflexivity.
Defined.

End DensityFacts.


(** ** Pruning *)

Module PruneFacts.
Import Prune.

(** *** The graph *)

Lemma elem_of_add_node x v ns : x ∈ add_node v ns ↔ x = v ∨ x ∈ ns.
Proof.
  unfold add_node. case_decide.
  - split; [by right|]. intros [->|]; done.
  - rewrite elem_of_app, list_elem_of_singleton. tauto.
Qed.

Lemma elem_of_foldl_add_node x (E : list (nat * nat)) acc :
  x ∈ foldl (λ ns e, add_node e.2 (add_node e.1 ns)) acc E ↔
  x ∈ acc ∨ ∃ e, e ∈ E ∧ (x = e.1 ∨ x = e.2).
Proof.
  revert acc. induction E as [|e E IH]; intros acc; cbn [foldl].
  - split; [by left|]. intros [?|(e & He & _)]; [done|]. by apply elem_of_nil in He.
  - rewrite IH, !elem_of_add_node. split.
    + intros [[->|[->|?]]|(e' & He' & Hx)].
      * right. exists e. split; [left|by right].
      * right. exists e. split; [left|by left].
      * by left.
      * right. exists e'. split; [by right|done].
    + intros [?|(e' & He' & Hx)]; [left; by do 2 right|].
      apply elem_of_cons in He' as [->|He'].
      * left. destruct Hx as [->| ->]; [right; by left | by left].
      * right. by exists e'.
Qed.

Lemma elem_of_graph_nodes x E :
  x ∈ graph_nodes E ↔ ∃ e, e ∈ E ∧ (x = e.1 ∨ x = e.2).
Proof.
  unfold graph_nodes. rewrite elem_of_foldl_add_node. split; [|by right].
  intros [H|H]; [by apply elem_of_nil in H | done].
Qed.

Lemma NoDup_add_node v ns : NoDup ns → NoDup (add_node v ns).
Proof.
  intros Hns. unfold add_node. case_decide; [done|].
  apply NoDup_app. split_and!; [done| |apply NoDup_singleton].
  intros x Hx ->%list_elem_of_singleton. done.
Qed.

Lemma NoDup_graph_nodes E : NoDup (graph_nodes E).
Proof.
  unfold graph_nodes. generalize (NoDup_nil_2 (A:=nat)). generalize (@nil nat).
  induction E as [|e E IH]; intros acc Hacc; cbn [foldl]; [done|].
  by apply IH, NoDup_add_node, NoDup_add_node.
Qed.

Lemma edge_graph_nodes E u v : sc (edge E) u v → u ∈ graph_nodes E ∧ v ∈ graph_nodes E.
Proof.
  intros [H|H]; split; apply elem_of_graph_nodes; eexists; (split; [exact H|]); simpl; auto.
Qed.

Lemma elem_of_neighbours E v x : x ∈ neighbours E v ↔ sc (edge E) v x.
Proof.
  unfold neighbours, sc, edge. rewrite elem_of_list_to_set, list_elem_of_In, in_flat_map.
  split.
  - intros ([a b] & He%list_elem_of_In & Hx). simpl in Hx.
    apply in_app_or in Hx as [Hx|Hx]; case_decide; subst;
      try (by destruct Hx); destruct Hx as [<-|[]]; auto.
  - intros [H|H].
    + exists (v, x). split; [by apply list_elem_of_In|]. simpl.
      apply in_or_app. left. rewrite decide_True by done. by left.
    + exists (x, v). split; [by apply list_elem_of_In|]. simpl.
      apply in_or_app. right. rewrite decide_True by done. by left.
Qed.

Lemma elem_of_neighbours_of E (vs : gset nat) x :
  x ∈ neighbours_of E vs ↔ ∃ v, v ∈ vs ∧ sc (edge E) v x.
Proof.
  unfold neighbours_of. rewrite elem_of_union_list. split.
  - intros (X & (v & -> & Hv%elem_of_elements)%list_elem_of_fmap & Hx).
    exists v. split; [done|]. by apply elem_of_neighbours.
  - intros (v & Hv & Hx). exists (neighbours E v). split; [|by apply elem_of_neighbours].
    apply list_elem_of_fmap. exists v. split; [done|]. by apply elem_of_elements.
Qed.

Lemma similar_step E s x y : similar E s x → sc (edge E) x y → similar E s y.
Proof. intros Hsx Hxy. eapply rtc_r; done. Qed.

(** A set that holds [s], stays inside the class of [s] and is closed under
    the edges is that class. *)
Lemma closed_set_is_class E s (S : gset nat) :
  (∀ x, x ∈ S → similar E s x) → s ∈ S →
  (∀ x y, x ∈ S → sc (edge E) x y → y ∈ S) →
  ∀ x, x ∈ S ↔ similar E s x.
Proof.
  intros Hin Hs Hclosed x. split; [apply Hin|].
  revert x. unfold similar, rtsc. apply rtc_ind_r; [done|].
  intros y z _ Hyz Hy. eauto.
Qed.

Lemma bfs_loop_empty E fuel seen : bfs_loop E fuel seen ∅ = seen.
Proof. destruct fuel; [done|]. cbn [bfs_loop]. by rewrite decide_True. Qed.

Lemma bfs_loop_spec E s fuel seen level :
  (∀ x, x ∈ seen ∪ level → similar E s x) →
  (∀ x y, x ∈ seen → sc (edge E) x y → y ∈ seen ∪ level) →
  s ∈ seen ∪ level →
  seen ∪ level ⊆ list_to_set (graph_nodes E) →
  size (list_to_set (graph_nodes E) ∖ seen : gset nat) + 1 ≤ fuel →
  ∀ x, x ∈ bfs_loop E fuel seen level ↔ similar E s x.
Proof.
  revert seen level. induction fuel as [|fuel IH]; intros seen level Hin Hcl Hs HN Hfuel;
    [lia|].
  cbn [bfs_loop]. case_decide as Hlevel.
  - subst level. apply closed_set_is_class.
    + intros x Hx. apply Hin. set_solver.
    + set_solver.
    + intros x y Hx Hxy. specialize (Hcl x y Hx Hxy). set_solver.
  - destruct (decide (level ∖ seen = ∅)) as [Hfresh|Hfresh].
    + rewrite Hfresh. replace (neighbours_of E ∅) with (∅ : gset nat).
      2:{ unfold neighbours_of. by rewrite elements_empty. }
      rewrite bfs_loop_empty. rewrite union_empty_r_L.
      apply closed_set_is_class.
      * intros x Hx. apply Hin. set_solver.
      * set_solver.
      * intros x y Hx Hxy. specialize (Hcl x y Hx Hxy). set_solver.
    + apply IH.
      * intros x [[Hx|Hx]%elem_of_union|Hx]%elem_of_union.
        -- apply Hin. set_solver.
        -- apply Hin. set_solver.
        -- apply elem_of_neighbours_of in Hx as (v & Hv & Hvx).
           eapply similar_step; [|done]. apply Hin. set_solver.
      * intros x y [Hx|Hx]%elem_of_union Hxy.
        -- specialize (Hcl x y Hx Hxy).
           destruct (decide (y ∈ seen)); set_solver.
        -- apply elem_of_union. right. apply elem_of_neighbours_of. eauto.
      * destruct (decide (s ∈ seen)); set_solver.
      * intros x [[Hx|Hx]%elem_of_union|Hx]%elem_of_union.
        -- set_solver.
        -- set_solver.
        -- apply elem_of_neighbours_of in Hx as (v & Hv & Hvx).
           apply elem_of_list_to_set. by apply (edge_graph_nodes E v x).
      * apply set_choose_L in Hfresh as [w Hw].
        assert (list_to_set (graph_nodes E) ∖ (seen ∪ level ∖ seen)
                  ⊂ (list_to_set (graph_nodes E) ∖ seen : gset nat)) as Hsub.
        { split; [set_solver|]. intros Hsub. specialize (Hsub w). set_solver. }
        apply subset_size in Hsub. lia.
Qed.

Lemma plain_bfs_spec E s :
  s ∈ graph_nodes E → ∀ x, x ∈ plain_bfs E s ↔ similar E s x.
Proof.
  intros Hs. unfold plain_bfs. apply bfs_loop_spec.
  - intros x Hx. assert (x = s) as -> by set_solver. done.
  - set_solver.
  - set_solver.
  - set_solver.
  - rewrite difference_empty_L, size_list_to_set by apply NoDup_graph_nodes. lia.
Qed.

Lemma similar_nodes E v x : similar E v x → v ∈ graph_nodes E → x ∈ graph_nodes E.
Proof.
  unfold similar, rtsc. intros H. induction H as [|a b c Hab _ IH]; [done|].
  intros _. apply IH. by apply (edge_graph_nodes E a b).
Qed.

Lemma similar_outside E v x : similar E v x → v ∉ graph_nodes E → x = v.
Proof.
  unfold similar, rtsc. intros H Hv. destruct H as [|a b c Hab _]; [done|].
  destruct Hv. by apply (edge_graph_nodes E a b).
Qed.

Lemma cc_loop_spec E vs seen :
  (∀ v, v ∈ vs → v ∈ graph_nodes E) →
  (∀ x y, x ∈ seen → similar E x y → y ∈ seen) →
  (∀ c, c ∈ cc_loop E vs seen → ∃ v, v ∈ vs ∧ ∀ x, x ∈ c ↔ similar E v x) ∧
  (∀ v, v ∈ vs → v ∈ seen ∨ ∃ c, c ∈ cc_loop E vs seen ∧ v ∈ c).
Proof.
  revert seen. induction vs as [|v vs IH]; intros seen Hvs Hseen; cbn [cc_loop].
  - split; [by intros c ?%elem_of_nil | by intros v ?%elem_of_nil].
  - assert (∀ u, u ∈ vs → u ∈ graph_nodes E) as Hvs' by (intros u Hu; apply Hvs; by right).
    case_decide as Hv.
    + destruct (IH seen Hvs' Hseen) as [HA HB]. split.
      * intros c (u & Hu & Hc)%HA. exists u. split; [by right|done].
      * intros u [->|Hu]%elem_of_cons; [by left | by apply HB].
    + pose proof (plain_bfs_spec E v (Hvs v ltac:(left))) as Hclass.
      destruct (IH (seen ∪ plain_bfs E v) Hvs') as [HA HB].
      { intros x y [Hx|Hx]%elem_of_union Hxy; apply elem_of_union.
        - left. by eapply Hseen.
        - right. apply Hclass. etrans; [|done]. by apply Hclass. }
      split.
      * intros c [->|Hc]%elem_of_cons.
        -- exists v. split; [left|done].
        -- destruct (HA c Hc) as (u & Hu & Hcu). exists u. split; [by right|done].
      * intros u [->|Hu]%elem_of_cons.
        -- right. exists (plain_bfs E v). split; [left|]. by apply Hclass.
        -- destruct (HB u Hu) as [[?|?]%elem_of_union|(c & Hc & Huc)].
           ++ by left.
           ++ right. exists (plain_bfs E v). split; [left|done].
           ++ right. exists c. split; [by right|done].
Qed.

(** The components are the classes of the nodes, and every node is in one. *)
Lemma connected_components_class E c :
  c ∈ connected_components E →
  ∃ v, v ∈ graph_nodes E ∧ ∀ x, x ∈ c ↔ similar E v x.
Proof.
  intros Hc. unfold connected_components in Hc.
  destruct (cc_loop_spec E (graph_nodes E) ∅) as [HA _]; [done|set_solver|].
  by apply HA.
Qed.

Lemma connected_components_cover E v :
  v ∈ graph_nodes E → ∃ c, c ∈ connected_components E ∧ v ∈ c.
Proof.
  intros Hv. unfold connected_components.
  destruct (cc_loop_spec E (graph_nodes E) ∅) as [_ HB]; [done|set_solver|].
  destruct (HB v Hv) as [?|?]; [set_solver|done].
Qed.

Lemma connected_components_nodes E c x :
  c ∈ connected_components E → x ∈ c → x ∈ graph_nodes E.
Proof.
  intros (v & Hv & Hc)%connected_components_class Hx.
  eapply similar_nodes; [by apply Hc|done].
Qed.

(** Two components that share a node are the same set. *)
Lemma connected_components_eq E c c' x :
  c ∈ connected_components E → c' ∈ connected_components E → x ∈ c → x ∈ c' → c = c'.
Proof.
  intros (v & _ & Hc)%connected_components_class (v' & _ & Hc')%connected_components_class
    Hx Hx'.
  apply Hc in Hx. apply Hc' in Hx'. apply set_eq. intros y. rewrite Hc, Hc'.
  split; intros Hy.
  - etrans; [exact Hx'|]. etrans; [symmetry; exact Hx|done].
  - etrans; [exact Hx|]. etrans; [symmetry; exact Hx'|done].
Qed.

(** *** The order of the nodes *)

Section node_order.
Variable P : nat → Prop.
Context `{!∀ x, Decision (P x)}.

Lemma head_filter_add_node v acc rest :
  head (filter P (add_node v acc ++ rest)) = head (filter P (acc ++ v :: rest)).
Proof.
  unfold add_node. case_decide as Hv; [|by rewrite <-app_assoc].
  rewrite !filter_app. destruct (decide (P v)) as [HP|HP].
  - assert (v ∈ filter P acc) as Hin by (by apply list_elem_of_filter).
    destruct (filter P acc); [by apply elem_of_nil in Hin|done].
  - by rewrite (filter_cons_False _ v) by done.
Qed.

Lemma head_filter_foldl_add_node (E : list (nat * nat)) acc :
  head (filter P (foldl (λ ns e, add_node e.2 (add_node e.1 ns)) acc E)) =
  head (filter P (acc ++ endpoints E)).
Proof.
  revert acc. induction E as [|e E IH]; intros acc; cbn [foldl].
  - unfold endpoints. simpl. by rewrite app_nil_r.
  - rewrite IH. rewrite head_filter_add_node, head_filter_add_node.
    unfold endpoints. cbn [flat_map]. done.
Qed.

(** The first node of the graph with a property is the first endpoint of an
    edge with it. *)
Lemma head_filter_graph_nodes E :
  head (filter P (graph_nodes E)) = head (filter P (endpoints E)).
Proof. unfold graph_nodes. by rewrite head_filter_foldl_add_node. Qed.

Lemma head_filter_endpoints_least E r :
  row_ordered E →
  (∀ e, e ∈ E → P e.1 ↔ P e.2) →
  head (filter P (endpoints E)) = Some r →
  ∀ e, e ∈ E → P e.1 → r ≤ e.1.
Proof.
  intros [Hsorted Hlt]. induction Hsorted as [|e0 E Hsorted IH Hle]; intros Hends Hhead e He Pe.
  - by apply elem_of_nil in He.
  - apply Forall_cons in Hlt as [Hlt0 Hlt].
    unfold endpoints in Hhead. cbn [flat_map app] in Hhead.
    destruct (decide (P e0.1)) as [HP|HP].
    + rewrite filter_cons_True in Hhead by done. injection Hhead as <-.
      apply elem_of_cons in He as [->|He]; [done|].
      eapply Forall_forall in Hle; [exact Hle|done].
    + rewrite filter_cons_False in Hhead by done.
      rewrite filter_cons_False in Hhead by (rewrite <-Hends; [done|left]).
      apply elem_of_cons in He as [->|He]; [done|].
      apply IH; [done| |done..]. intros e' He'. apply Hends. by right.
Qed.

End node_order.

Lemma np_where_lt_sorted (m : matrix) t :
  StronglySorted (λ e e' : nat * nat, e.1 ≤ e'.1) (np_where_lt m t).
Proof.
  unfold np_where_lt.
  set (g := λ (i : nat) (row : list Qc),
    omap id (imap (λ j v, if bool_decide (v < t)%Qc then Some (i, j) else None) row)).
  assert (∀ i row e, e ∈ g i row → e.1 = i) as Hg.
  { intros i row e (o & (j & v & -> & _)%elem_of_lookup_imap & Ho)%list_elem_of_omap.
    cbn in Ho. case_bool_decide; [|done]. by injection Ho as <-. }
  assert (∀ k, StronglySorted (λ e e' : nat * nat, e.1 ≤ e'.1)
                 (concat (imap (λ i row, g (k + i) row) m)) ∧
               Forall (λ e : nat * nat, k ≤ e.1) (concat (imap (λ i row, g (k + i) row) m)))
    as H.
  { induction m as [|row m IH]; intros k; [split; constructor|].
    rewrite imap_cons. cbn [concat].
    destruct (IH (S k)) as [Hs Hf].
    rewrite (imap_ext _ (λ i row, g (S k + i) row)) by (intros; cbn; f_equal; lia).
    split.
    - apply StronglySorted_app. split_and!; [| |done].
      + intros e e' He He'. apply Hg in He. eapply Forall_forall in Hf; [|done].
        simpl in Hf. lia.
      + assert (Forall (λ e : nat * nat, e.1 = k + 0) (g (k + 0) row)) as Hall.
        { apply Forall_forall. intros e. apply Hg. }
        induction Hall as [|e l He Hl IHl]; [constructor|].
        constructor; [exact IHl|].
        eapply Forall_impl; [exact Hl|]. intros e' He'. simpl in *. lia.
    - apply Forall_app. split.
      + apply Forall_forall. intros e He%Hg. lia.
      + eapply Forall_impl; [done|]. intros e He. simpl in *. lia. }
  destruct (H 0) as [Hs _]. exact Hs.
Qed.

Lemma insertion_order_lists g (c : gset nat) :
  (∀ x, x ∈ c → x ∈ g) → ∀ x, x ∈ insertion_order g c ↔ x ∈ c.
Proof.
  intros Hsub x. unfold insertion_order. rewrite list_elem_of_filter. split; [tauto|].
  intros Hx. split; [done|by apply Hsub].
Qed.

(** In insertion order the representative of a component is its least
    index. *)
Lemma insertion_order_least E c r :
  row_ordered E → c ∈ connected_components E →
  representative insertion_order E c = Some r → ∀ x, x ∈ c → r ≤ x.
Proof.
  intros Hrow Hc Hr x Hx. unfold representative, insertion_order in Hr.
  rewrite head_filter_graph_nodes in Hr.
  destruct (connected_components_class E c Hc) as (v & Hv & Hclass).
  assert (∀ e, e ∈ E → e.1 ∈ c ↔ e.2 ∈ c) as Hends.
  { intros [a b] He. rewrite !Hclass. simpl.
    split; intros H; (eapply similar_step; [exact H|]); [by left | by right]. }
  pose proof (head_filter_endpoints_least (λ x, x ∈ c) E r Hrow Hends Hr) as Hleast.
  destruct (proj1 (elem_of_graph_nodes x E)) as ([a b] & He & Hab).
  { by eapply connected_components_nodes. }
  destruct Hrow as [_ Hlt]. eapply Forall_forall in Hlt; [|exact He].
  simpl in *. destruct Hab as [->| ->].
  - by apply (Hleast (a, b)).
  - assert (a ∈ c) as Ha by (by apply (Hends (a, b))).
    specialize (Hleast (a, b) He Ha). simpl in Hleast. lia.
Qed.

(** *** The mask *)

Lemma mask_clear_all_spec mask rejects :
  Forall (λ i, i < length mask) rejects →
  ∃ mask', mask_clear_all mask rejects = Ok mask' ∧ length mask' = length mask ∧
    ∀ i b, mask !! i = Some b →
      mask' !! i = Some (if decide (i ∈ rejects) then false else b).
Proof.
  revert mask. induction rejects as [|r rejects IH]; intros mask Hall; cbn [mask_clear_all].
  - exists mask. split_and!; [done..|]. intros i b Hi. by rewrite decide_False by apply not_elem_of_nil.
  - apply Forall_cons in Hall as [Hr Hall]. unfold mask_clear.
    rewrite decide_True by done. cbn [rbind].
    destruct (IH (<[r:=false]> mask)) as (mask' & -> & Hlen & Hget).
    { by rewrite length_insert. }
    exists mask'. split_and!; [done|by rewrite Hlen, length_insert|].
    intros i b Hi. destruct (decide (i = r)) as [->|Hne].
    + rewrite (Hget r false) by (by apply list_lookup_insert_eq).
      rewrite (decide_True (P:=r ∈ r :: rejects)) by left. by case_decide.
    + rewrite (Hget i b) by (by rewrite list_lookup_insert_ne).
      f_equal. repeat case_decide; set_solver.
Qed.

Lemma mapM_heads (groups : list (list nat)) best :
  mapM (λ group, py_index group 0) groups = Ok best →
  Forall2 (λ group b, head group = Some b) groups best.
Proof.
  intros H%mapM_Ok. eapply Forall2_impl; [done|].
  intros [|x group] b; cbn; [done|]. by intros [= ->].
Qed.

Lemma elem_of_rejects (groups : list (list nat)) best x :
  Forall2 (λ group b, head group = Some b) groups best →
  x ∈ concat (elements <$>
        zip_with (λ a b, list_to_set a ∖ {[b]} : gset nat) groups best) ↔
  ∃ group, group ∈ groups ∧ x ∈ group ∧ head group ≠ Some x.
Proof.
  induction 1 as [|group b groups best Hb _ IH]; cbn.
  - split; [by intros ?%elem_of_nil|]. by intros (g & ?%elem_of_nil & _).
  - rewrite elem_of_app, IH, elem_of_elements, elem_of_difference, elem_of_list_to_set,
      elem_of_singleton.
    split.
    + intros [[Hx Hne]|(g & Hg & Hx & Hne)].
      * exists group. split_and!; [left|done|congruence].
      * exists g. split_and!; [by right|done..].
    + intros (g & [->|Hg]%elem_of_cons & Hx & Hne).
      * left. split; [done|congruence].
      * right. by exists g.
Qed.

(** *** The matrix *)

Lemma shape_ok_mat_full l v : shape_ok l (mat_full l v).
Proof.
  split; [apply length_replicate|]. apply Forall_replicate, length_replicate.
Qed.

Lemma shape_ok_mat_set l i j v m : shape_ok l m → shape_ok l (mat_set i j v m).
Proof.
  intros [Hlen Hrows]. unfold mat_set. split; [by rewrite length_alter|].
  apply Forall_forall. intros row (k & Hk)%list_elem_of_lookup_1.
  rewrite list_lookup_alter in Hk. case_decide as Hik.
  - subst k. destruct (m !! i) as [row'|] eqn:Hrow; [|done].
    injection Hk as <-. rewrite length_insert.
    eapply Forall_forall in Hrows; [done|]. by eapply list_elem_of_lookup_2.
  - eapply Forall_forall in Hrows; [done|]. by eapply list_elem_of_lookup_2.
Qed.

Lemma mat_get_mat_set l i j v m a b :
  shape_ok l m → i < l → j < l →
  mat_get (mat_set i j v m) a b = if decide (a = i ∧ b = j) then Some v else mat_get m a b.
Proof.
  intros [Hlen Hrows] Hi Hj. unfold mat_get, mat_set.
  rewrite list_lookup_alter. destruct (decide (i = a)) as [->|Hne].
  - destruct (lookup_lt_is_Some_2 m a) as [row Hrow]; [lia|]. rewrite Hrow. cbn.
    assert (length row = l) as Hrowlen.
    { eapply Forall_forall in Hrows; [done|]. by eapply list_elem_of_lookup_2. }
    destruct (decide (b = j)) as [->|Hbj].
    + rewrite decide_True by done. apply list_lookup_insert_eq. lia.
    + rewrite decide_False by tauto. by apply list_lookup_insert_ne.
  - rewrite decide_False; [done|]. intros [-> _]. done.
Qed.

Lemma mat_get_lt l m a b v : shape_ok l m → mat_get m a b = Some v → a < l ∧ b < l.
Proof.
  intros [Hlen Hrows]. unfold mat_get.
  destruct (m !! a) as [row|] eqn:Hrow; [|done]. cbn. intros Hb.
  split; [rewrite <-Hlen; by eapply lookup_lt_Some|].
  eapply Forall_forall in Hrows; [|by eapply list_elem_of_lookup_2].
  simpl in Hrows. rewrite <-Hrows. by eapply lookup_lt_Some.
Qed.

Lemma elem_of_concat {A} (ls : list (list A)) x : x ∈ concat ls ↔ ∃ l, l ∈ ls ∧ x ∈ l.
Proof.
  rewrite list_elem_of_In, in_concat. split; intros (l & H1 & H2); exists l;
    by rewrite ?list_elem_of_In in *.
Qed.

Lemma elem_of_np_where_lt m t a b :
  (a, b) ∈ np_where_lt m t ↔ ∃ v, mat_get m a b = Some v ∧ (v < t)%Qc.
Proof.
  unfold np_where_lt, mat_get. rewrite elem_of_concat. split.
  - intros (l & (i & row & -> & Hrow)%elem_of_lookup_imap & Hab).
    apply list_elem_of_omap in Hab as (o & (j & v & -> & Hv)%elem_of_lookup_imap & Ho).
    cbn in Ho. case_bool_decide; [|done]. injection Ho as <- <-.
    exists v. rewrite Hrow. cbn. done.
  - intros (v & Hget & Hlt). destruct (m !! a) as [row|] eqn:Hrow; [|done]. cbn in Hget.
    eexists. split; [by eapply (elem_of_lookup_imap_2 _ m _ a)|].
    apply list_elem_of_omap. eexists. split.
    + by eapply (elem_of_lookup_imap_2 _ row _ b).
    + cbn. by rewrite bool_decide_eq_true_2.
Qed.

Lemma hit_mat_set l t i j v m a b :
  shape_ok l m → i < l → j < l →
  hit t (mat_set i j v m) a b ↔
    (a = i ∧ b = j ∧ (v < t)%Qc) ∨ (¬ (a = i ∧ b = j) ∧ hit t m a b).
Proof.
  intros Hm Hi Hj. unfold hit. rewrite (mat_get_mat_set l) by done.
  case_decide as Hab.
  - split.
    + intros (v' & [= <-] & Hlt). left. tauto.
    + intros [(_ & _ & Hlt)|[Hn _]]; [by exists v | tauto].
  - split; [intros H; right; tauto | intros [?|[_ H]]; tauto].
Qed.

Lemma hit_mat_full l t a b : ¬ hit t (mat_full l t) a b.
Proof.
  unfold hit, mat_get, mat_full. intros (v & Hget & Hlt).
  destruct (replicate l (replicate l t) !! a) as [row|] eqn:Hrow; [|done]. cbn in Hget.
  apply lookup_replicate in Hrow as [-> _].
  apply lookup_replicate in Hget as [-> _].
  by apply Qclt_not_eq in Hlt.
Qed.

Lemma drop_cons_inv {A} (l : list A) j x rest :
  drop j l = x :: rest → l !! j = Some x ∧ drop (S j) l = rest.
Proof.
  intros Hd. assert (l !! j = Some x) as Hj.
  { rewrite <-(Nat.add_0_r j), <-lookup_drop, Hd. done. }
  split; [done|]. rewrite (drop_S _ _ _ Hj) in Hd. congruence.
Qed.

Lemma drop_nil_inv {A} (l : list A) j : drop j l = [] → length l ≤ j.
Proof. intros Hd. apply (f_equal length) in Hd. rewrite length_drop in Hd. simpl in Hd. lia. Qed.

Section facts.
Context {conformer : Type}.
Variable kabsch_rmsd : conformer → conformer → Qc.
Variable subgraph_nodes : list nat → gset nat → list nat.
Variable max_rmsd : Qc.

Abbreviation below := (below kabsch_rmsd max_rmsd).
Abbreviation first_match := (first_match kabsch_rmsd max_rmsd).
Abbreviation any_match := (any_match kabsch_rmsd max_rmsd).
Abbreviation inner_loop := (inner_loop kabsch_rmsd max_rmsd).
Abbreviation outer_loop := (outer_loop kabsch_rmsd max_rmsd).
Abbreviation rmsd_matrix := (rmsd_matrix kabsch_rmsd max_rmsd).
Abbreviation matches := (matches kabsch_rmsd max_rmsd).
Abbreviation prune_shard := (prune_shard kabsch_rmsd subgraph_nodes max_rmsd).
Abbreviation prune_conformers := (prune_conformers kabsch_rmsd subgraph_nodes max_rmsd).

Lemma first_match_lt subset i j : first_match subset i j → i < j ∧ j < length subset.
Proof.
  intros (Hij & si & sj & Hi & Hj & _). split; [done|]. by eapply lookup_lt_Some.
Qed.

Lemma first_match_any subset i j : first_match subset i j → any_match subset i j.
Proof. intros (Hij & si & sj & Hi & Hj & Hb & _). split; [done|]. by exists si, sj. Qed.

Lemma inner_loop_hit subset l i si rest : ∀ j m,
  length subset = l → shape_ok l m → subset !! i = Some si → i < j →
  rest = drop j subset →
  (∀ b, ¬ hit max_rmsd m i b) →
  (∀ j' sj', i < j' → j' < j → subset !! j' = Some sj' → ¬ below si sj') →
  shape_ok l (inner_loop i si j rest m) ∧
  ∀ a b, hit max_rmsd (inner_loop i si j rest m) a b ↔
    (a ≠ i ∧ hit max_rmsd m a b) ∨ (a = i ∧ first_match subset i b).
Proof.
  induction rest as [|sj rest IH]; intros j m Hl Hm Hi Hij Hrest Hrow Hseen;
    cbn [Prune.inner_loop].
  - split; [done|]. symmetry in Hrest. apply drop_nil_inv in Hrest.
    intros a b. split.
    + intros Hhit. destruct (decide (a = i)) as [->|]; [by destruct (Hrow b)|by left].
    + intros [[_ ?]|[-> (Hib & si' & sb & Hi' & Hb & Hbelow & _)]]; [done|].
      assert (si' = si) as -> by congruence.
      destruct (Hseen b sb); [done| |done..].
      apply lookup_lt_Some in Hb. lia.
  - symmetry in Hrest. apply drop_cons_inv in Hrest as [Hj Hrest].
    assert (i < l) by (rewrite <-Hl; by eapply lookup_lt_Some).
    assert (j < l) by (rewrite <-Hl; by eapply lookup_lt_Some).
    case_bool_decide as Hval.
    + split; [by apply shape_ok_mat_set|]. intros a b.
      rewrite (hit_mat_set l) by done. split.
      * intros [(-> & -> & _)|[Hn Hhit]].
        -- right. split; [done|]. split; [done|]. exists si, sj. done.
        -- left. split; [|done]. intros ->. by destruct (Hrow b).
      * intros [[Ha Hhit]|[-> Hfm]].
        -- right. split; [tauto|done].
        -- left. split; [done|]. split; [|done].
           destruct Hfm as (Hib & si' & sb & Hi' & Hb & Hbelow & Hfirst).
           assert (si' = si) as -> by congruence.
           destruct (Nat.lt_trichotomy b j) as [Hlt|[->|Hgt]]; [|done|].
           ++ by destruct (Hseen b sb).
           ++ by destruct (Hfirst j sj).
    + destruct (IH (S j) (mat_set i j (kabsch_rmsd si sj) m)) as [Hshape Hhit];
        [done|by apply shape_ok_mat_set|done|lia|done| | |].
      * intros b. rewrite (hit_mat_set l) by done.
        intros [(_ & _ & ?)|[_ ?]]; [done|by destruct (Hrow b)].
      * intros j' sj' Hij' Hj' Hsj'. destruct (decide (j' = j)) as [->|].
        -- assert (sj' = sj) as -> by congruence. done.
        -- apply (Hseen j'); [done|lia|done].
      * split; [done|]. intros a b. rewrite Hhit, (hit_mat_set l) by done.
        split; (intros [[Ha Hab]|?]; [left; split; [done|]|by right]).
        -- destruct Hab as [(-> & _)|[_ ?]]; done.
        -- right. split; [tauto|done].
Qed.

Lemma outer_loop_hit subset l rest : ∀ i m,
  length subset = l → shape_ok l m → rest = drop i subset →
  (∀ a b, i ≤ a → ¬ hit max_rmsd m a b) →
  ∀ a b, hit max_rmsd (outer_loop i rest m) a b ↔
    (a < i ∧ hit max_rmsd m a b) ∨ (i ≤ a ∧ first_match subset a b).
Proof.
  induction rest as [|si rest IH]; intros i m Hl Hm Hrest Hrows; cbn [Prune.outer_loop].
  - symmetry in Hrest. apply drop_nil_inv in Hrest. intros a b. split.
    + intros Hhit. destruct (decide (a < i)); [by left|]. destruct (Hrows a b); [lia|done].
    + intros [[_ ?]|[Ha (_ & sa & _ & Hsa & _)]]; [done|].
      apply lookup_lt_Some in Hsa. lia.
  - symmetry in Hrest. apply drop_cons_inv in Hrest as [Hi Hrest].
    destruct (inner_loop_hit subset l i si rest (S i) m) as [Hshape Hhit];
      [done|done|done|lia|done|by intros b; apply Hrows|intros; lia|].
    intros a b. rewrite (IH (S i)); [|done|done|done|].
    + rewrite Hhit. split.
      * intros [[Ha [[Hne ?]|[-> ?]]]|[Ha ?]].
        -- left. split; [lia|done].
        -- right. done.
        -- right. split; [lia|done].
      * intros [[Ha ?]|[Ha Hfm]].
        -- left. split; [lia|]. left. split; [lia|done].
        -- destruct (decide (a = i)) as [->|].
           ++ left. split; [lia|]. by right.
           ++ right. split; [lia|done].
    + intros a' b' Ha'. rewrite Hhit. intros [[_ ?]|[-> _]]; [|lia].
      destruct (Hrows a' b'); [lia|done].
Qed.

(** The recorded matches are the first matches of each row. *)
Lemma elem_of_matches subset i j : (i, j) ∈ matches subset ↔ first_match subset i j.
Proof.
  unfold Prune.matches. rewrite elem_of_np_where_lt.
  change (hit max_rmsd (rmsd_matrix subset) i j ↔ first_match subset i j).
  unfold Prune.rmsd_matrix.
  rewrite (outer_loop_hit subset (length subset)); [|done|apply shape_ok_mat_full|done|].
  - split; [intros [[? _]|[_ ?]]; [lia|done] | intros ?; right; split; [lia|done]].
  - intros a b _. apply hit_mat_full.
Qed.

Lemma graph_nodes_matches_lt subset x :
  x ∈ graph_nodes (matches subset) → x < length subset.
Proof.
  intros ([i j] & He & Hx)%elem_of_graph_nodes.
  apply elem_of_matches, first_match_lt in He. simpl in Hx. lia.
Qed.

Hypothesis subgraph_nodes_lists :
  ∀ g (c : gset nat), (∀ x, x ∈ c → x ∈ g) → ∀ x, x ∈ subgraph_nodes g c ↔ x ∈ c.

Lemma representative_in E c :
  c ∈ connected_components E →
  ∃ r, representative subgraph_nodes E c = Some r ∧ r ∈ c.
Proof using subgraph_nodes_lists.
  intros Hc. pose proof (subgraph_nodes_lists (graph_nodes E) c
    (λ x, connected_components_nodes E c x Hc)) as Hlist.
  destruct (connected_components_class E c Hc) as (v & Hv & Hclass).
  assert (v ∈ subgraph_nodes (graph_nodes E) c) as Hin by (by apply Hlist, Hclass).
  unfold representative. destruct (subgraph_nodes (graph_nodes E) c) as [|r group] eqn:Hg.
  - by apply elem_of_nil in Hin.
  - exists r. split; [done|]. apply Hlist. left.
Qed.

(** What [prune_shard] returns: a mask as long as the shard, in which the
    entries cleared are the members of a component other than its
    representative. *)
Lemma prune_shard_mask subset :
  ∃ mask, prune_shard subset = Ok mask ∧ length mask = length subset ∧
    ∀ i, i < length subset →
      ∃ b, mask !! i = Some b ∧
        (b = false ↔ ∃ c, c ∈ connected_components (matches subset) ∧ i ∈ c ∧
                          representative subgraph_nodes (matches subset) c ≠ Some i).
Proof using subgraph_nodes_lists.
  unfold Prune.prune_shard.
  set (E := matches subset). set (N := graph_nodes E).
  set (groups := subgraph_nodes N <$> connected_components E).
  assert (∀ group, group ∈ groups →
            ∃ c, c ∈ connected_components E ∧ group = subgraph_nodes N c ∧
                 ∀ x, x ∈ group ↔ x ∈ c) as Hgroups.
  { intros group (c & -> & Hc)%list_elem_of_fmap. exists c. split_and!; [done..|].
    apply subgraph_nodes_lists. intros x. by apply connected_components_nodes. }
  destruct (mapM_total (λ group : list nat, py_index group 0) groups) as [best Hbest].
  { apply Forall_forall. intros group (c & Hc & -> & _)%Hgroups.
    destruct (representative_in E c Hc) as (r & Hr & _). exists r.
    unfold representative in Hr. fold N in Hr.
    destruct (subgraph_nodes N c); [done|]. cbn in *. congruence. }
  rewrite Hbest. cbn [rbind]. apply mapM_heads in Hbest.
  set (rejects := concat (elements <$> _)).
  assert (∀ x, x ∈ rejects ↔
            ∃ c, c ∈ connected_components E ∧ x ∈ c ∧
                 representative subgraph_nodes E c ≠ Some x) as Hrejects.
  { intros x. unfold rejects. rewrite (elem_of_rejects groups best x Hbest). split.
    - intros (group & (c & Hc & -> & Hin)%Hgroups & Hx & Hne).
      exists c. split_and!; [done|by apply Hin|done].
    - intros (c & Hc & Hx & Hne). exists (subgraph_nodes N c). split_and!; [|  |done].
      + apply list_elem_of_fmap. by exists c.
      + apply subgraph_nodes_lists; [|done]. intros y. by apply connected_components_nodes. }
  destruct (mask_clear_all_spec (replicate (length subset) true) rejects)
    as (mask & Hmask & Hlen & Hget).
  { apply Forall_forall. intros x (c & Hc & Hx & _)%Hrejects. rewrite length_replicate.
    eapply graph_nodes_matches_lt, connected_components_nodes; done. }
  exists mask. rewrite length_replicate in Hlen. split_and!; [done..|].
  intros i Hi. eexists. split.
  { apply Hget. by apply lookup_replicate_2. }
  rewrite <-Hrejects. case_decide; split; done.
Qed.

Lemma prune_shard_length subset mask :
  prune_shard subset = Ok mask → length mask = length subset.
Proof using subgraph_nodes_lists.
  destruct (prune_shard_mask subset) as (mask' & -> & Hlen & _). by intros [= <-].
Qed.

Lemma matches_row_ordered subset : row_ordered (matches subset).
Proof.
  split; [apply np_where_lt_sorted|].
  apply Forall_forall. intros [i j] He%elem_of_matches%first_match_lt. simpl. lia.
Qed.

(** One member of every component is kept, the first of its listing, and the
    other members are cleared. *)
Lemma prune_shard_component subset mask i :
  prune_shard subset = Ok mask →
  i ∈ graph_nodes (matches subset) →
  ∃ c r, c ∈ connected_components (matches subset) ∧
    (∀ x, x ∈ c ↔ similar (matches subset) i x) ∧
    representative subgraph_nodes (matches subset) c = Some r ∧ r ∈ c ∧
    ∀ x, x ∈ c → mask !! x = Some (bool_decide (x = r)).
Proof using subgraph_nodes_lists.
  intros Hmask Hi.
  destruct (prune_shard_mask subset) as (mask' & Hmask' & Hlen & Hget).
  assert (mask' = mask) as -> by congruence.
  destruct (connected_components_cover _ i Hi) as (c & Hc & Hic).
  destruct (representative_in _ c Hc) as (r & Hr & Hrc).
  exists c, r. split_and!; [done| |done..|].
  - destruct (connected_components_class _ c Hc) as (v & _ & Hclass).
    intros x. rewrite Hclass. apply Hclass in Hic.
    split; intros H; [etrans; [symmetry; exact Hic|done] | etrans; done].
  - intros x Hx.
    destruct (Hget x) as (b & Hb & Hrej).
    { eapply graph_nodes_matches_lt, connected_components_nodes; done. }
    rewrite Hb. f_equal. case_bool_decide as Hxr.
    + subst x. destruct b; [done|]. destruct (proj1 Hrej eq_refl) as (c' & Hc' & Hrc' & Hne).
      assert (c' = c) as -> by (by eapply connected_components_eq). done.
    + apply Hrej. exists c. split_and!; [done..|]. congruence.
Qed.

Lemma prune_shard_isolated subset mask i :
  prune_shard subset = Ok mask →
  i < length subset → i ∉ graph_nodes (matches subset) → mask !! i = Some true.
Proof using subgraph_nodes_lists.
  intros Hmask Hi Hnode.
  destruct (prune_shard_mask subset) as (mask' & Hmask' & Hlen & Hget).
  assert (mask' = mask) as -> by congruence.
  destruct (Hget i Hi) as (b & -> & Hrej). f_equal. destruct b; [done|].
  destruct (proj1 Hrej eq_refl) as (c & Hc & Hic & _).
  destruct Hnode. by eapply connected_components_nodes.
Qed.

End facts.

(** *** Shuffling and its inverse *)

Lemma scramble_Ok {A} (a : list A) sequence a' :
  scramble a sequence = Ok a' ↔ Forall2 (λ s y, a !! s = Some y) sequence a'.
Proof.
  unfold scramble. rewrite mapM_Ok. split; intros H; (eapply Forall2_impl; [exact H|]);
    intros s y; unfold py_index; destruct (a !! s); naive_solver.
Qed.

Lemma first_index_Ok sequence i p :
  first_index sequence i = Ok p → sequence !! p = Some i.
Proof.
  unfold first_index. destruct (list_find _ sequence) as [[p' x]|] eqn:Hfind; [|done].
  intros [= <-]. apply list_find_Some in Hfind as (Hp & -> & _). done.
Qed.

Section permutation.
Variable sequence : list nat.
Variable L : nat.
Hypothesis sequence_perm : sequence ≡ₚ seq 0 L.

Lemma sequence_length : length sequence = L.
Proof using sequence_perm. by rewrite sequence_perm, length_seq. Qed.

Lemma sequence_lt p s : sequence !! p = Some s → s < L.
Proof using sequence_perm.
  intros Hs%list_elem_of_lookup_2. rewrite sequence_perm in Hs.
  apply elem_of_seq in Hs. lia.
Qed.

Lemma inv_sequence_total :
  ∃ inv, mapM (first_index sequence) (seq 0 L) = Ok inv ∧ length inv = L ∧
    ∀ i p, inv !! i = Some p ↔ sequence !! p = Some i.
Proof using sequence_perm.
  assert (NoDup sequence) as Hnodup by (rewrite sequence_perm; apply NoDup_seq).
  destruct (mapM_total (first_index sequence) (seq 0 L)) as [inv Hinv].
  { apply Forall_forall. intros i Hi. rewrite <-sequence_perm in Hi.
    destruct (list_find_elem_of (λ s, s = i) sequence i Hi eq_refl) as [[p x] Hfind].
    exists p. unfold first_index. by rewrite Hfind. }
  exists inv. split; [done|]. pose proof (mapM_length _ _ _ Hinv) as Hlen.
  rewrite length_seq in Hlen. split; [done|].
  apply mapM_Ok in Hinv.
  assert (∀ i p, inv !! i = Some p → sequence !! p = Some i) as Hfwd.
  { intros i p Hp.
    destruct (Forall2_lookup_r _ _ _ _ _ Hinv Hp) as (i' & Hi' & Hfirst).
    apply lookup_seq in Hi' as [-> _]. by apply first_index_Ok. }
  intros i p. split; [apply Hfwd|]. intros Hp.
  assert (i < L) as Hi by (by eapply sequence_lt).
  destruct (lookup_lt_is_Some_2 inv i) as [p' Hp']; [lia|].
  pose proof (Hfwd i p' Hp') as Hp''.
  by rewrite (NoDup_lookup _ _ _ _ Hnodup Hp Hp'').
Qed.

(** Scrambling by the sequence and then by its inverse gives the array
    back. *)
Lemma scramble_inverse {A} (a : list A) inv :
  length a = L → mapM (first_index sequence) (seq 0 L) = Ok inv →
  ∃ a', scramble a sequence = Ok a' ∧ length a' = L ∧ scramble a' inv = Ok a.
Proof using sequence_perm.
  intros Ha Hinv.
  destruct inv_sequence_total as (inv' & Hinv' & Hlen & Hlookup).
  assert (inv' = inv) as -> by congruence.
  destruct (mapM_total (py_index a) sequence) as [a' Ha'].
  { apply Forall_forall. intros s (p & Hp)%list_elem_of_lookup_1.
    destruct (py_index_lt a s) as (y & -> & _); [|by eexists].
    rewrite Ha. by eapply sequence_lt. }
  exists a'. split; [done|].
  pose proof (mapM_length _ _ _ Ha') as Hlen'. rewrite sequence_length in Hlen'.
  split; [done|]. apply scramble_Ok in Ha'. apply scramble_Ok.
  apply Forall2_same_length_lookup_2; [lia|].
  intros i p y Hp Hy. apply Hlookup in Hp.
  destruct (Forall2_lookup_l _ _ _ _ _ Ha' Hp) as (y' & Hy' & Hai). congruence.
Qed.

(** Scrambling an array by the inverse gives the array whose scramble by the
    sequence is the given one. *)
Lemma scramble_by_inverse {A} (m : list A) inv :
  length m = L → mapM (first_index sequence) (seq 0 L) = Ok inv →
  ∃ m2, scramble m inv = Ok m2 ∧ length m2 = L ∧ scramble m2 sequence = Ok m.
Proof using sequence_perm.
  intros Hm Hinv.
  destruct inv_sequence_total as (inv' & Hinv' & Hlen & Hlookup).
  assert (inv' = inv) as -> by congruence.
  destruct (mapM_total (py_index m) inv) as [m2 Hm2].
  { apply Forall_forall. intros p (i & Hi)%list_elem_of_lookup_1.
    destruct (py_index_lt m p) as (y & -> & _); [|by eexists].
    apply Hlookup, lookup_lt_Some in Hi. rewrite sequence_length in Hi. lia. }
  exists m2. split; [done|].
  pose proof (mapM_length _ _ _ Hm2) as Hlen2. split; [lia|].
  apply scramble_Ok in Hm2. apply scramble_Ok.
  apply Forall2_same_length_lookup_2; [rewrite sequence_length; lia|].
  intros p s y Hs Hy. apply Hlookup in Hs.
  destruct (Forall2_lookup_l _ _ _ _ _ Hm2 Hs) as (y' & Hy' & Hmp). congruence.
Qed.

End permutation.

(** *** The shards *)

Lemma concat_take_shards {A} (s : list A) d n :
  concat ((λ step, take d (drop (d * step) s)) <$> seq 0 n) = take (d * n) s.
Proof.
  induction n as [|n IH].
  - by rewrite Nat.mul_0_r, take_0.
  - rewrite seq_S, fmap_app, concat_app, IH. cbn [fmap list_fmap concat].
    rewrite app_nil_r, take_take_drop. f_equal. lia.
Qed.

Lemma concat_shards {A} (s : list A) d k :
  k ≠ 0 → concat ((λ step, @shard A s d k step) <$> seq 0 k) = s.
Proof.
  destruct k as [|n]; [done|]. intros _.
  rewrite seq_S, fmap_app, concat_app. cbn [fmap list_fmap concat].
  rewrite app_nil_r. unfold shard at 2. rewrite decide_True by lia.
  replace (S n - 1) with n by lia.
  etrans; [|apply (take_drop (d * n) s)]. f_equal.
  rewrite <-concat_take_shards. f_equal. apply list_fmap_ext.
  intros i step Hstep. apply lookup_seq in Hstep as [-> Hi].
  unfold shard. rewrite decide_False by lia. f_equal. lia.
Qed.

Lemma length_concat_Forall2 {A B C} (f : A → list B) (xs : list A) (ms : list (list C)) :
  Forall2 (λ x m, length m = length (f x)) xs ms →
  length (concat ms) = length (concat (f <$> xs)).
Proof.
  induction 1 as [|x m xs ms Hm _ IH]; [done|].
  cbn. rewrite !length_app. congruence.
Qed.

(** *** The whole function *)

Section conformers.
Context {conformer : Type}.
Variable kabsch_rmsd : conformer → conformer → Qc.
Variable subgraph_nodes : list nat → gset nat → list nat.
Variable max_rmsd : Qc.
Hypothesis subgraph_nodes_lists :
  ∀ g (c : gset nat), (∀ x, x ∈ c → x ∈ g) → ∀ x, x ∈ subgraph_nodes g c ↔ x ∈ c.

Abbreviation prune_shard := (prune_shard kabsch_rmsd subgraph_nodes max_rmsd).
Abbreviation shard_masks := (shard_masks kabsch_rmsd subgraph_nodes max_rmsd).
Abbreviation prune_conformers := (prune_conformers kabsch_rmsd subgraph_nodes max_rmsd).

Lemma shard_masks_total structures k :
  k ≠ 0 → ∃ mask, shard_masks structures k = Ok mask ∧ length mask = length structures.
Proof using subgraph_nodes_lists.
  intros Hk. unfold Prune.shard_masks.
  set (d := length structures / k).
  destruct (mapM_total (λ step, prune_shard (shard structures d k step)) (seq 0 k))
    as [mask_out Hout].
  { apply Forall_forall. intros step _.
    destruct (prune_shard_mask kabsch_rmsd subgraph_nodes max_rmsd subgraph_nodes_lists
                (shard structures d k step)) as (mask & Hmask & _).
    by exists mask. }
  rewrite Hout. cbn [rbind]. eexists. split; [done|].
  apply mapM_Ok in Hout.
  rewrite (length_concat_Forall2 (λ step, shard structures d k step) (seq 0 k)).
  - rewrite (concat_shards structures d k Hk). done.
  - eapply Forall2_impl; [exact Hout|]. intros step mask Hmask. simpl.
    exact (prune_shard_length kabsch_rmsd subgraph_nodes max_rmsd subgraph_nodes_lists
             _ _ Hmask).
Qed.

Lemma shard_masks_one structures mask :
  prune_shard structures = Ok mask → shard_masks structures 1 = Ok mask.
Proof.
  intros Hmask. unfold Prune.shard_masks. cbn [seq mapM].
  unfold shard. rewrite decide_True by done. rewrite Nat.mul_0_r, drop_0.
  rewrite Hmask. cbn [rbind concat]. by rewrite app_nil_r.
Qed.

Lemma prune_conformers_one structures sequence mask :
  prune_shard structures = Ok mask →
  prune_conformers structures 1 sequence = Ok (select structures mask, mask).
Proof using subgraph_nodes_lists.
  intros Hmask. unfold Prune.prune_conformers.
  rewrite (decide_False (P:=1 ≠ 1)) by tauto. cbn [rbind].
  rewrite decide_False by done.
  pose proof (shard_masks_one structures mask Hmask) as Hone.
  unfold Prune.shard_masks in Hone.
  destruct (mapM _ (seq 0 1)) as [mask_out|]; [|done]. cbn [rbind] in *.
  injection Hone as ->. unfold mask_index.
  rewrite decide_True; [done|].
  exact (prune_shard_length kabsch_rmsd subgraph_nodes max_rmsd subgraph_nodes_lists
           _ _ Hmask).
Qed.

Lemma prune_conformers_shuffled structures k sequence inv shuffled mask_shuffled mask :
  k ≠ 0 → k ≠ 1 →
  mapM (first_index sequence) (seq 0 (length structures)) = Ok inv →
  scramble structures sequence = Ok shuffled →
  shard_masks shuffled k = Ok mask_shuffled →
  scramble_mask mask_shuffled inv = Ok mask →
  scramble shuffled inv = Ok structures →
  length mask = length structures →
  prune_conformers structures k sequence = Ok (select structures mask, mask).
Proof.
  intros Hk0 Hk1 Hinv Hshuffled Hmasks Hmask Hback Hlen.
  unfold Prune.prune_conformers. rewrite decide_True by done.
  rewrite Hinv. cbn [rbind]. rewrite Hshuffled. cbn [rbind].
  rewrite decide_False by done. unfold Prune.shard_masks in Hmasks.
  destruct (mapM _ (seq 0 k)) as [mask_out|]; [|done]. cbn [rbind] in *.
  injection Hmasks as ->. rewrite Hmask. cbn [rbind]. rewrite Hback. cbn [rbind].
  unfold mask_index. rewrite decide_True by done. done.
Qed.

(** What the function returns for a sequence that is a permutation. *)
Lemma prune_conformers_result structures k sequence :
  sequence ≡ₚ seq 0 (length structures) → k ≠ 0 →
  ∃ shuffled mask_shuffled mask,
    (if decide (k = 1) then shuffled = structures ∧ mask = mask_shuffled
     else scramble structures sequence = Ok shuffled ∧
          scramble_mask mask sequence = Ok mask_shuffled) ∧
    shard_masks shuffled k = Ok mask_shuffled ∧
    length mask = length structures ∧
    prune_conformers structures k sequence = Ok (select structures mask, mask).
Proof using subgraph_nodes_lists.
  intros Hperm Hk. case_decide as Hk1.
  - subst k. destruct (shard_masks_total structures 1) as (mask & Hmask & Hlen); [done|].
    exists structures, mask, mask. split_and!; [done..|].
    apply prune_conformers_one.
    destruct (prune_shard_mask kabsch_rmsd subgraph_nodes max_rmsd subgraph_nodes_lists
                structures) as (mask' & Hmask' & _).
    rewrite (shard_masks_one structures mask' Hmask') in Hmask. congruence.
  - destruct (inv_sequence_total sequence _ Hperm) as (inv & Hinv & Hinvlen & _).
    destruct (scramble_inverse sequence _ Hperm structures inv eq_refl Hinv)
      as (shuffled & Hshuffled & Hslen & Hback).
    destruct (shard_masks_total shuffled k Hk) as (mask_shuffled & Hmasks & Hmlen).
    destruct (scramble_by_inverse sequence _ Hperm mask_shuffled inv) as
      (mask & Hmask & Hlen & Hfwd); [lia|done|].
    exists shuffled, mask_shuffled, mask. split_and!; [done..|].
    by eapply prune_conformers_shuffled.
Qed.

(** C7. For a shuffle that is a permutation of the indices and every
    [k >= 1], in particular for every [k] from 1 to the length of the
    ensemble, [prune_conformers] returns, and the mask it returns is as long
    as the ensemble. *)
Theorem prune_conformers_mask_length structures k sequence :
  sequence ≡ₚ seq 0 (length structures) → 1 ≤ k →
  ∃ subset mask,
    prune_conformers structures k sequence = Ok (subset, mask) ∧
    length mask = length structures.
Proof using subgraph_nodes_lists.
  intros Hperm Hk.
  destruct (prune_conformers_result structures k sequence Hperm)
    as (shuffled & mask_shuffled & mask & _ & _ & Hlen & Hres); [lia|].
  by exists (select structures mask), mask.
Qed.

(** C8. Scrambling any array by the sequence puts at every position [p] the
    entry whose index the sequence holds at [p], and scrambling the result
    by the computed inverse gives the array back, with [scramble] and with
    [scramble_mask] alike.  With [k = 1] the result does not depend on the
    sequence: the mask is the one of the single shard, which is the ensemble
    in its own order.  With [k > 1] the shards are cut from the shuffled
    ensemble, and the entry of the returned mask at an original index [i] is
    the entry of the concatenated shard masks at the position [p] the
    shuffle moved [i] to: the mask is back in the order of the input.  In
    both cases the subset is the ensemble, in its original order, filtered
    by the mask. *)
Theorem prune_conformers_restores_order structures k sequence :
  sequence ≡ₚ seq 0 (length structures) → 1 ≤ k →
  (∀ (A : Type) (a : list A), length a = length structures →
     ∃ a' inv, scramble a sequence = Ok a' ∧ scramble_mask a sequence = Ok a' ∧
       (∀ p i, sequence !! p = Some i → a' !! p = a !! i) ∧
       mapM (first_index sequence) (seq 0 (length structures)) = Ok inv ∧
       scramble a' inv = Ok a ∧ scramble_mask a' inv = Ok a) ∧
  (k = 1 →
     ∃ mask, prune_shard structures = Ok mask ∧
       ∀ sequence', prune_conformers structures 1 sequence' =
                      Ok (select structures mask, mask)) ∧
  (1 < k →
     ∃ shuffled mask_shuffled mask,
       length shuffled = length structures ∧
       (∀ p i, sequence !! p = Some i → shuffled !! p = structures !! i) ∧
       shard_masks shuffled k = Ok mask_shuffled ∧
       length mask = length structures ∧
       (∀ p i, sequence !! p = Some i → mask !! i = mask_shuffled !! p) ∧
       prune_conformers structures k sequence = Ok (select structures mask, mask)).
Proof using subgraph_nodes_lists.
  intros Hperm Hk.
  assert (∀ (A : Type) (a a' : list A), scramble a sequence = Ok a' →
            ∀ p i, sequence !! p = Some i → a' !! p = a !! i) as Hlookup.
  { intros A a a' Ha' p i Hp. apply scramble_Ok in Ha'.
    destruct (Forall2_lookup_l _ _ _ _ _ Ha' Hp) as (y & Hy & Hai). congruence. }
  split_and!.
  - intros A a Ha.
    destruct (inv_sequence_total sequence _ Hperm) as (inv & Hinv & _).
    destruct (scramble_inverse sequence _ Hperm a inv Ha Hinv) as (a' & Ha' & _ & Hback).
    exists a', inv. split_and!; [exact Ha'|exact Ha'|by apply Hlookup|exact Hinv|
                                 exact Hback|exact Hback].
  - intros _.
    destruct (prune_shard_mask kabsch_rmsd subgraph_nodes max_rmsd subgraph_nodes_lists
                structures) as (mask & Hmask & _).
    exists mask. split; [done|]. intros sequence'. by apply prune_conformers_one.
  - intros Hk1.
    destruct (prune_conformers_result structures k sequence Hperm)
      as (shuffled & mask_shuffled & mask & Hcase & Hmasks & Hlen & Hres); [lia|].
    rewrite decide_False in Hcase by lia. destruct Hcase as [Hshuffled Hmask].
    exists shuffled, mask_shuffled, mask. split_and!; [|by apply Hlookup|done|done| |done].
    + apply scramble_Ok, Forall2_length in Hshuffled.
      rewrite <-Hshuffled, Hperm. apply length_seq.
    + intros p i Hp. symmetry. by apply (Hlookup bool mask mask_shuffled Hmask).
Qed.

End conformers.

(** C1, as the code has it.  In a shard the graph has an edge [(i, j)] only
    when [j] is the first index after [i] whose RMSD to [i] is below the
    threshold, because the inner loop stops at the first match.  The mask is
    made from the connected components of that graph: in the component of
    every index that has an edge exactly one member, the first of the
    component's node listing, is kept and all its other members are
    rejected; an index that has no edge is kept.  When the listing follows
    the insertion order of the graph, a member that is kept is the least
    index of its component. *)
Theorem prune_shard_components_of_first_matches {conformer : Type}
    (kabsch_rmsd : conformer → conformer → Qc)
    (subgraph_nodes : list nat → gset nat → list nat) (max_rmsd : Qc)
    (subset : list conformer) :
  (∀ g (c : gset nat), (∀ x, x ∈ c → x ∈ g) → ∀ x, x ∈ subgraph_nodes g c ↔ x ∈ c) →
  let E := matches kabsch_rmsd max_rmsd subset in
  (∀ i j, (i, j) ∈ E ↔ first_match kabsch_rmsd max_rmsd subset i j) ∧
  (∃ mask,
     prune_shard kabsch_rmsd subgraph_nodes max_rmsd subset = Ok mask ∧
     length mask = length subset ∧
     (∀ i, i ∈ graph_nodes E →
        ∃ c r, c ∈ connected_components E ∧
          (∀ x, x ∈ c ↔ similar E i x) ∧
          representative subgraph_nodes E c = Some r ∧ r ∈ c ∧
          ∀ x, x ∈ c → mask !! x = Some (bool_decide (x = r))) ∧
     (∀ i, i < length subset → i ∉ graph_nodes E → mask !! i = Some true)) ∧
  (∃ mask,
     prune_shard kabsch_rmsd insertion_order max_rmsd subset = Ok mask ∧
     ∀ i r, similar E i r → mask !! r = Some true → r ≤ i).
Proof.
  intros Hlists E. split_and!.
  - intros i j. apply elem_of_matches.
  - destruct (prune_shard_mask kabsch_rmsd subgraph_nodes max_rmsd Hlists subset)
      as (mask & Hmask & Hlen & _).
    exists mask. split_and!; [done..| |].
    + intros i Hi. by apply prune_shard_component.
    + intros i Hi Hnode. by eapply prune_shard_isolated.
  - destruct (prune_shard_mask kabsch_rmsd insertion_order max_rmsd insertion_order_lists
                subset) as (mask & Hmask & Hlen & _).
    exists mask. split; [done|]. intros i r Hir Hr.
    destruct (decide (i ∈ graph_nodes E)) as [Hi|Hi].
    + destruct (prune_shard_component kabsch_rmsd insertion_order max_rmsd
                  insertion_order_lists subset mask i Hmask Hi)
        as (c & r' & Hc & Hclass & Hrep & Hr' & Hkeep).
      assert (r ∈ c) as Hrc by (by apply Hclass).
      rewrite (Hkeep r Hrc) in Hr. injection Hr as Hr%bool_decide_eq_true_1. subst r'.
      eapply insertion_order_least;
        [apply (matches_row_ordered kabsch_rmsd max_rmsd subset)|done|done|].
      by apply Hclass.
    + apply similar_outside in Hir; [lia|done].
Qed.

Lemma elements_lists (g : list nat) (c : gset nat) :
  (∀ x, x ∈ c → x ∈ g) → ∀ x, x ∈ elements c ↔ x ∈ c.
Proof. intros _ x. apply elem_of_elements. Qed.

Lemma prune_shard_components_of_first_matches_witness :
  let E := matches diatomic_rmsd 1 three_diatomics in
  (∀ i j, (i, j) ∈ E ↔ first_match diatomic_rmsd 1 three_diatomics i j) ∧
  (∃ mask,
     prune_shard diatomic_rmsd (λ _ c, elements c) 1 three_diatomics = Ok mask ∧
     length mask = length three_diatomics ∧
     (∀ i, i ∈ graph_nodes E →
        ∃ c r, c ∈ connected_components E ∧
          (∀ x, x ∈ c ↔ similar E i x) ∧
          representative (λ _ c, elements c) E c = Some r ∧ r ∈ c ∧
          ∀ x, x ∈ c → mask !! x = Some (bool_decide (x = r))) ∧
     (∀ i, i < length three_diatomics → i ∉ graph_nodes E → mask !! i = Some true)) ∧
  (∃ mask,
     prune_shard diatomic_rmsd insertion_order 1 three_diatomics = Ok mask ∧
     ∀ i r, similar E i r → mask !! r = Some true → r ≤ i).
Proof.
  apply (prune_shard_components_of_first_matches diatomic_rmsd (λ _ c, elements c) 1
           three_diatomics elements_lists).
Defined.

(** C1, as stated, fails: the conformers 0 and 2 are closer than the
    threshold, but the loop for row 0 stopped at conformer 1, so there is no
    edge between them, they are in different components, and both are
    kept. *)
Lemma prune_shard_misses_later_match :
  any_match diatomic_rmsd 1 three_diatomics 0 2 ∧
  matches diatomic_rmsd 1 three_diatomics = [(0, 1)] ∧
  ¬ similar (matches diatomic_rmsd 1 three_diatomics) 0 2 ∧
  prune_shard diatomic_rmsd insertion_order 1 three_diatomics = Ok [true; false; true].
Proof.
  assert (matches diatomic_rmsd 1 three_diatomics = [(0, 1)]) as HE
    by (vm_compute; reflexivity).
  split_and!.
  - split; [lia|]. exists (frac 2 1), (frac 1 2). split_and!; [done..|].
    unfold below. by vm_compute.
  - exact HE.
  - rewrite HE. intros H%similar_nodes.
    + vm_compute in H. apply list_elem_of_In in H. simpl in H. intuition lia.
    + vm_compute. left.
  - vm_compute. reflexivity.
Qed.

Lemma shuffle_201 : [2; 0; 1] ≡ₚ seq 0 (length three_diatomics).
Proof. etrans; [apply perm_swap|]. apply perm_skip, perm_swap. Defined.

Lemma prune_conformers_mask_length_witness :
  ∃ subset mask,
    prune_conformers diatomic_rmsd insertion_order 1 three_diatomics 2 [2; 0; 1] =
      Ok (subset, mask) ∧
    length mask = length three_diatomics.
Proof.
  apply (prune_conformers_mask_length diatomic_rmsd insertion_order 1 insertion_order_lists
           three_diatomics 2 [2; 0; 1] shuffle_201).
  lia.
Defined.

Lemma prune_conformers_restores_order_witness :
  (∀ (A : Type) (a : list A), length a = length three_diatomics →
     ∃ a' inv, scramble a [2; 0; 1] = Ok a' ∧ scramble_mask a [2; 0; 1] = Ok a' ∧
       (∀ p i, [2; 0; 1] !! p = Some i → a' !! p = a !! i) ∧
       mapM (first_index [2; 0; 1]) (seq 0 (length three_diatomics)) = Ok inv ∧
       scramble a' inv = Ok a ∧ scramble_mask a' inv = Ok a) ∧
  (2 = 1 →
     ∃ mask, prune_shard diatomic_rmsd insertion_order 1 three_diatomics = Ok mask ∧
       ∀ sequence', prune_conformers diatomic_rmsd insertion_order 1 three_diatomics 1
                      sequence' = Ok (select three_diatomics mask, mask)) ∧
  (1 < 2 →
     ∃ shuffled mask_shuffled mask,
       length shuffled = length three_diatomics ∧
       (∀ p i, [2; 0; 1] !! p = Some i → shuffled !! p = three_diatomics !! i) ∧
       shard_masks diatomic_rmsd insertion_order 1 shuffled 2 = Ok mask_shuffled ∧
       length mask = length three_diatomics ∧
       (∀ p i, [2; 0; 1] !! p = Some i → mask !! i = mask_shuffled !! p) ∧
       prune_conformers diatomic_rmsd insertion_order 1 three_diatomics 2 [2; 0; 1] =
         Ok (select three_diatomics mask, mask)).
Proof.
  apply (prune_conformers_restores_order diatomic_rmsd insertion_order 1
           insertion_order_lists three_diatomics 2 [2; 0; 1] shuffle_201).
  lia.
Defined.

(** The shuffled ensemble is [0.5, 2, 3.5]; its shards are [0.5] and
    [2, 3.5], of which 3.5 is rejected; in the original order that is the
    conformer of index 1. *)
Example prune_conformers_two_shards :
  prune_conformers diatomic_rmsd insertion_order 1 three_diatomics 2 [2; 0; 1] =
    Ok ([frac 2 1; frac 1 2], [true; false; true]).
Proof. vm_compute. reflexivity. Qed.

End PruneFacts.

(** * Further properties *)

(** ** The clash detector: thresholds and tolerances *)

Module ClashMore.
Import Clash.

Section more.
Variable sqrt : Qc → Qc.

Lemma inner_loop_more_tolerant thresh (m m' : Z) v1 m2 c c' :
  (m ≤ m')%Z → inner_loop sqrt thresh m v1 m2 c = Some c' →
  inner_loop sqrt thresh m' v1 m2 c = Some c'.
Proof.
  intros Hm. revert c. induction m2 as [|v2 m2 IH]; intros c; cbn [inner_loop]; [done|].
  destruct (bool_decide (norm_of sqrt (vsub v1 v2) < thresh)%Qc);
    (case_bool_decide as H1; [done|]); intros Hrec;
    rewrite bool_decide_eq_false_2 by lia; by apply IH.
Qed.

Lemma pair_loop_more_tolerant thresh (m m' : Z) m1 m2 c c' :
  (m ≤ m')%Z → pair_loop sqrt thresh m m1 m2 c = Some c' →
  pair_loop sqrt thresh m' m1 m2 c = Some c'.
Proof.
  intros Hm. revert c. induction m1 as [|v1 m1 IH]; intros c; cbn [pair_loop]; [done|].
  destruct (inner_loop sqrt thresh m v1 m2 c) as [c1|] eqn:H1; [|done].
  rewrite (inner_loop_more_tolerant thresh m m' v1 m2 c c1 Hm H1). apply IH.
Qed.

(** X1. A geometry accepted with some tolerated number of clashes is accepted
    with every larger one, whatever the atom counts say. *)
Theorem compenetration_check_more_tolerant thresh (m m' : Z) coords ids :
  (m ≤ m')%Z →
  compenetration_check sqrt thresh m coords ids = Ok true →
  compenetration_check sqrt thresh m' coords ids = Ok true.
Proof.
  intros Hm. unfold compenetration_check. case_decide.
  - destruct (py_index ids 0) as [i0|]; [|done]. cbn [rbind].
    destruct (pair_loop sqrt thresh m _ _ _) as [c|] eqn:H1; [|done].
    by rewrite (pair_loop_more_tolerant _ _ _ _ _ _ _ Hm H1).
  - destruct (py_index ids 0) as [i0|]; [|done]. cbn [rbind].
    destruct (py_index ids 1) as [i1|]; [|done]. cbn [rbind].
    destruct (pair_loop sqrt thresh m _ _ _) as [c12|] eqn:H1; [|done].
    rewrite (pair_loop_more_tolerant _ _ _ _ _ _ _ Hm H1).
    destruct (pair_loop sqrt thresh m _ _ c12) as [c23|] eqn:H2; [|done].
    rewrite (pair_loop_more_tolerant _ _ _ _ _ _ _ Hm H2).
    destruct (pair_loop sqrt thresh m _ _ c23) as [c31|] eqn:H3; [|done].
    by rewrite (pair_loop_more_tolerant _ _ _ _ _ _ _ Hm H3).
Qed.

Lemma inner_loop_smaller_threshold (t t' : Qc) (m : Z) v1 m2 (c d d' : Z) :
  (t ≤ t')%Qc → (c ≤ d)%Z →
  inner_loop sqrt t' m v1 m2 d = Some d' →
  ∃ c', inner_loop sqrt t m v1 m2 c = Some c' ∧ (c' ≤ d')%Z.
Proof.
  intros Ht. revert c d. induction m2 as [|v2 m2 IH]; intros c d Hcd; cbn [inner_loop].
  - intros [= <-]. by exists c.
  - set (dist := norm_of sqrt (vsub v1 v2)).
    destruct (bool_decide (dist < t')%Qc) eqn:Hd'; intros Hrec.
    + destruct (decide (d + 1 > m)%Z) as [Hgt|Hgt];
        [by rewrite bool_decide_eq_true_2 in Hrec|].
      rewrite bool_decide_eq_false_2 in Hrec by done.
      destruct (bool_decide (dist < t)%Qc);
        rewrite bool_decide_eq_false_2 by lia; (eapply IH; [|done]); lia.
    + destruct (decide (d > m)%Z) as [Hgt|Hgt];
        [by rewrite bool_decide_eq_true_2 in Hrec|].
      rewrite bool_decide_eq_false_2 in Hrec by done.
      rewrite (bool_decide_eq_false_2 (dist < t)%Qc).
      * rewrite bool_decide_eq_false_2 by lia. eapply IH; [|done]. lia.
      * intros Hlt. apply bool_decide_eq_false_1 in Hd'. apply Hd'.
        by eapply Qclt_le_trans.
Qed.

Lemma pair_loop_smaller_threshold (t t' : Qc) (m : Z) m1 m2 (c d d' : Z) :
  (t ≤ t')%Qc → (c ≤ d)%Z →
  pair_loop sqrt t' m m1 m2 d = Some d' →
  ∃ c', pair_loop sqrt t m m1 m2 c = Some c' ∧ (c' ≤ d')%Z.
Proof.
  intros Ht. revert c d. induction m1 as [|v1 m1 IH]; intros c d Hcd; cbn [pair_loop].
  - intros [= <-]. by exists c.
  - destruct (inner_loop sqrt t' m v1 m2 d) as [d1|] eqn:H1; [|done]. intros Hrec.
    destruct (inner_loop_smaller_threshold t t' m v1 m2 c d d1 Ht Hcd H1) as (c1 & -> & Hc1).
    by eapply IH.
Qed.

(** X2. A geometry accepted at some distance threshold is accepted at every
    smaller one. *)
Theorem compenetration_check_smaller_threshold (t t' : Qc) (m : Z) coords ids :
  (t ≤ t')%Qc →
  compenetration_check sqrt t' m coords ids = Ok true →
  compenetration_check sqrt t m coords ids = Ok true.
Proof.
  intros Ht. unfold compenetration_check. case_decide.
  - destruct (py_index ids 0) as [i0|]; [|done]. cbn [rbind].
    destruct (pair_loop sqrt t' m _ _ _) as [d|] eqn:H1; [|done].
    by destruct (pair_loop_smaller_threshold t t' m _ _ 0 0 d Ht ltac:(done) H1) as (c & -> & _).
  - destruct (py_index ids 0) as [i0|]; [|done]. cbn [rbind].
    destruct (py_index ids 1) as [i1|]; [|done]. cbn [rbind].
    destruct (pair_loop sqrt t' m _ _ _) as [d12|] eqn:H1; [|done].
    destruct (pair_loop_smaller_threshold t t' m _ _ 0 0 d12 Ht ltac:(done) H1)
      as (c12 & -> & H12).
    destruct (pair_loop sqrt t' m _ _ d12) as [d23|] eqn:H2; [|done].
    destruct (pair_loop_smaller_threshold t t' m _ _ c12 d12 d23 Ht H12 H2)
      as (c23 & -> & H23).
    destruct (pair_loop sqrt t' m _ _ d23) as [d31|] eqn:H3; [|done].
    by destruct (pair_loop_smaller_threshold t t' m _ _ c23 d23 d31 Ht H23 H3)
      as (c31 & -> & _).
Qed.

End more.

Lemma compenetration_check_more_tolerant_witness :
  compenetration_check sqrt_int (of_Z 6) 2 four_atoms [1; 1; 2] = Ok true.
Proof.
  apply (compenetration_check_more_tolerant sqrt_int (of_Z 6) 1 2 four_atoms [1; 1; 2]);
    [lia | vm_compute; reflexivity].
Defined.

Lemma compenetration_check_smaller_threshold_witness :
  compenetration_check sqrt_int (of_Z 4) 0 four_atoms [1; 1; 2] = Ok true.
Proof.
  apply (compenetration_check_smaller_threshold sqrt_int (of_Z 4) (of_Z 5) 0 four_atoms
           [1; 1; 2]); [by vm_compute | vm_compute; reflexivity].
Defined.

End ClashMore.

(** ** Pruning: edge cases and what the mask guarantees *)

Module PruneMore.
Import Prune PruneFacts.

Lemma select_all {A} (l : list A) : select l (replicate (length l) true) = l.
Proof. induction l as [|x l IH]; [done|]. cbn. by rewrite IH. Qed.

Lemma select_none {A} (l : list A) mask :
  (∀ x, x < length l → mask !! x = Some false) → select l mask = [].
Proof.
  revert mask. induction l as [|y l IH]; intros mask Hm; [by destruct mask|].
  destruct mask as [|b mask]; [done|].
  assert (b = false) as -> by (specialize (Hm 0 ltac:(simpl; lia)); by injection Hm).
  cbn. apply IH. intros x Hx. apply (Hm (S x)). simpl. lia.
Qed.

Lemma select_indicator {A} (l : list A) mask r s :
  (∀ x, x < length l → mask !! x = Some (bool_decide (x = r))) →
  l !! r = Some s → select l mask = [s].
Proof.
  revert mask r. induction l as [|y l IH]; intros mask r Hm Hr; [done|].
  destruct mask as [|b mask]; [by specialize (Hm 0 ltac:(simpl; lia))|].
  pose proof (Hm 0 ltac:(simpl; lia)) as H0. cbn in H0. injection H0 as ->.
  destruct r as [|r].
  - cbn in Hr. injection Hr as ->. cbn. f_equal.
    apply select_none. intros x Hx. by apply (Hm (S x) ltac:(simpl; lia)).
  - cbn. apply (IH mask r); [|done].
    intros x Hx. etrans; [exact (Hm (S x) ltac:(simpl; lia))|].
    f_equal. apply bool_decide_ext. lia.
Qed.

Section more.
Context {conformer : Type}.
Variable kabsch_rmsd : conformer → conformer → Qc.
Variable subgraph_nodes : list nat → gset nat → list nat.
Variable max_rmsd : Qc.

Abbreviation below := (below kabsch_rmsd max_rmsd).
Abbreviation first_match := (first_match kabsch_rmsd max_rmsd).
Abbreviation any_match := (any_match kabsch_rmsd max_rmsd).
Abbreviation matches := (matches kabsch_rmsd max_rmsd).
Abbreviation prune_shard := (prune_shard kabsch_rmsd subgraph_nodes max_rmsd).
Abbreviation prune_conformers := (prune_conformers kabsch_rmsd subgraph_nodes max_rmsd).

(** X5. Zero shards: the division [len(structures) // k] raises. *)
Theorem prune_conformers_zero_shards structures sequence :
  sequence ≡ₚ seq 0 (length structures) →
  prune_conformers structures 0 sequence = Raise ZeroDivisionError.
Proof.
  intros Hperm. unfold Prune.prune_conformers. rewrite decide_True by done.
  destruct (inv_sequence_total sequence _ Hperm) as (inv & Hinv & _).
  destruct (scramble_inverse sequence _ Hperm structures inv eq_refl Hinv)
    as (shuffled & Hshuffled & _).
  rewrite Hinv. cbn [rbind]. rewrite Hshuffled. cbn [rbind]. done.
Qed.

Lemma matches_nil subset :
  (∀ i j, ¬ any_match subset i j) → matches subset = [].
Proof.
  intros Hnone. destruct (matches subset) as [|[i j] E] eqn:HE; [done|].
  destruct (Hnone i j). apply first_match_any, elem_of_matches. rewrite HE. left.
Qed.

Lemma prune_shard_no_match subset :
  (∀ i j, ¬ any_match subset i j) → prune_shard subset = Ok (replicate (length subset) true).
Proof.
  intros Hnone. unfold Prune.prune_shard. fold (matches subset).
  rewrite (matches_nil subset Hnone). reflexivity.
Qed.

(** X6. With a threshold of zero or less and a metric that is never negative no
    pair is a match, exact duplicates included: every conformer is kept. *)
Theorem prune_conformers_threshold_not_positive structures sequence :
  (∀ a b, (0 ≤ kabsch_rmsd a b)%Qc) → (max_rmsd ≤ 0)%Qc →
  prune_conformers structures 1 sequence =
    Ok (structures, replicate (length structures) true).
Proof.
  intros Hnonneg Hmax.
  assert (prune_shard structures = Ok (replicate (length structures) true)) as Hshard.
  { apply prune_shard_no_match. intros i j (_ & si & sj & _ & _ & Hbelow).
    unfold Prune.below in Hbelow. apply (Qclt_not_le _ _ Hbelow).
    etrans; [exact Hmax|apply Hnonneg]. }
  unfold Prune.prune_conformers. rewrite (decide_False (P:=1 ≠ 1)) by tauto.
  cbn [rbind]. rewrite decide_False by done. cbn [seq mapM].
  unfold shard. rewrite decide_True by done. rewrite Nat.mul_0_r, drop_0, Hshard.
  cbn [rbind concat]. rewrite app_nil_r. unfold mask_index.
  rewrite decide_True by (by rewrite length_replicate). cbn [rbind].
  by rewrite select_all.
Qed.

Lemma earlier_match_dec (subset : list conformer) i si n :
  (∀ j' sj', i < j' → j' < n → subset !! j' = Some sj' → ¬ below si sj') ∨
  (∃ j' sj', i < j' ∧ j' < n ∧ subset !! j' = Some sj' ∧ below si sj').
Proof.
  induction n as [|n [IH|IH]].
  - left. intros; lia.
  - destruct (subset !! n) as [sn|] eqn:Hn.
    + assert (Decision (i < n ∧ below si sn)) as Hdec
        by (unfold Prune.below; apply _).
      destruct Hdec as [[Hin Hb]|Hno].
      * right. exists n, sn. split_and!; [done|lia|done..].
      * left. intros j' sj' Hij' Hj' Hsj' Hb.
        destruct (decide (j' = n)) as [->|]; [|eapply (IH j'); [done|lia|done..]].
        apply Hno. split; [done|]. congruence.
    + left. intros j' sj' Hij' Hj' Hsj' Hb.
      destruct (decide (j' = n)) as [->|]; [congruence|].
      eapply (IH j'); [done|lia|done..].
  - right. destruct IH as (j' & sj' & ? & ? & ? & ?). exists j', sj'.
    split_and!; [done|lia|done..].
Qed.

(** A conformer that has a later match has a first one. *)
Lemma first_match_exists (subset : list conformer) i j :
  any_match subset i j → ∃ j', first_match subset i j'.
Proof.
  induction (lt_wf j) as [j _ IH]. intros (Hij & si & sj & Hi & Hj & Hb).
  destruct (earlier_match_dec subset i si j) as [Hfirst|(j' & sj' & Hij' & Hj' & Hsj' & Hb')].
  - exists j. split; [done|]. by exists si, sj.
  - apply (IH j' Hj'). split; [done|]. by exists si, sj'.
Qed.

(** When every conformer but the last has a later match, all indices are in
    the component of the last one. *)
Lemma chain_connected (subset : list conformer) :
  (∀ i si, subset !! i = Some si → S i < length subset → ∃ j, any_match subset i j) →
  ∀ i, i < length subset → similar (matches subset) i (length subset - 1).
Proof.
  intros Hchain i Hi.
  remember (length subset - 1 - i) as n eqn:Hn. revert i Hi Hn.
  induction (lt_wf n) as [n _ IH]. intros i Hi Hn.
  destruct (decide (S i < length subset)) as [Hlt|Hge].
  - destruct (lookup_lt_is_Some_2 subset i Hi) as [si Hsi].
    destruct (Hchain i si Hsi Hlt) as [j Hany].
    destruct (first_match_exists subset i j Hany) as [j' Hfirst].
    pose proof (first_match_lt _ _ _ _ _ Hfirst) as [Hij' Hj'].
    etrans.
    + apply rtsc_lr. unfold edge. by apply (elem_of_matches kabsch_rmsd max_rmsd).
    + apply (IH (length subset - 1 - j')); [lia|done..].
  - replace (length subset - 1) with i by lia. done.
Qed.

End more.

Section kept.
Context {conformer : Type}.
Variable kabsch_rmsd : conformer → conformer → Qc.
Variable subgraph_nodes : list nat → gset nat → list nat.
Variable max_rmsd : Qc.
Hypothesis subgraph_nodes_lists :
  ∀ g (c : gset nat), (∀ x, x ∈ c → x ∈ g) → ∀ x, x ∈ subgraph_nodes g c ↔ x ∈ c.

Abbreviation any_match := (any_match kabsch_rmsd max_rmsd).
Abbreviation matches := (matches kabsch_rmsd max_rmsd).
Abbreviation prune_shard := (prune_shard kabsch_rmsd subgraph_nodes max_rmsd).
Abbreviation prune_conformers := (prune_conformers kabsch_rmsd subgraph_nodes max_rmsd).

Lemma prune_conformers_one_inv structures sequence subset mask :
  prune_conformers structures 1 sequence = Ok (subset, mask) →
  prune_shard structures = Ok mask ∧ subset = select structures mask.
Proof using subgraph_nodes_lists.
  intros Hres.
  destruct (prune_shard_mask kabsch_rmsd subgraph_nodes max_rmsd subgraph_nodes_lists
              structures) as (mask' & Hmask' & _).
  rewrite (prune_conformers_one kabsch_rmsd subgraph_nodes max_rmsd subgraph_nodes_lists
             structures sequence mask' Hmask') in Hres.
  injection Hres as <- <-. done.
Qed.

(** X7. When every conformer but the last has a later conformer closer than the
    threshold, as in an ensemble of copies of one structure, exactly one
    conformer is retained. *)
Theorem prune_conformers_chain_keeps_one structures sequence :
  structures ≠ [] →
  (∀ i si, structures !! i = Some si → S i < length structures →
     ∃ j, any_match structures i j) →
  ∃ s mask, s ∈ structures ∧ prune_conformers structures 1 sequence = Ok ([s], mask).
Proof using subgraph_nodes_lists.
  intros Hne Hchain.
  destruct (prune_shard_mask kabsch_rmsd subgraph_nodes max_rmsd subgraph_nodes_lists
              structures) as (mask & Hmask & Hlen & _).
  assert (0 < length structures) as Hpos by (destruct structures; [done|simpl; lia]).
  assert (∃ r, r < length structures ∧
               ∀ x, x < length structures → mask !! x = Some (bool_decide (x = r)))
    as (r & Hr & Hkeep).
  { destruct (decide (0 ∈ graph_nodes (matches structures))) as [Hnode|Hnode].
    - destruct (prune_shard_component kabsch_rmsd subgraph_nodes max_rmsd
                  subgraph_nodes_lists structures mask 0 Hmask Hnode)
        as (c & r & Hc & Hclass & _ & Hrc & Hkeep).
      exists r. split.
      + eapply graph_nodes_matches_lt, connected_components_nodes; done.
      + intros x Hx. apply Hkeep, Hclass.
        etrans; [by apply (chain_connected kabsch_rmsd max_rmsd structures Hchain 0)|].
        symmetry. by apply (chain_connected kabsch_rmsd max_rmsd structures Hchain x).
    - exists 0. split; [done|]. intros x Hx.
      destruct (decide (1 < length structures)) as [Hlong|Hshort].
      + destruct Hnode. destruct (lookup_lt_is_Some_2 structures 0 Hpos) as [s0 Hs0].
        destruct (Hchain 0 s0 Hs0 Hlong) as [j Hany].
        destruct (first_match_exists kabsch_rmsd max_rmsd structures 0 j Hany)
          as [j' Hfirst%elem_of_matches].
        apply elem_of_graph_nodes. exists (0, j'). split; [done|by left].
      + assert (x = 0) as -> by lia.
        rewrite (prune_shard_isolated kabsch_rmsd subgraph_nodes max_rmsd
                   subgraph_nodes_lists structures mask 0 Hmask Hpos Hnode).
        done. }
  destruct (lookup_lt_is_Some_2 structures r Hr) as [s Hs].
  exists s, mask. split; [by eapply list_elem_of_lookup_2|].
  rewrite (prune_conformers_one kabsch_rmsd subgraph_nodes max_rmsd subgraph_nodes_lists
             structures sequence mask Hmask).
  by rewrite (select_indicator structures mask r s Hkeep Hs).
Qed.

(** X8. A conformer is rejected only if a retained conformer is linked to it by
    a chain of pairs that are each closer than the threshold. *)
Theorem prune_conformers_rejected_has_kept_relative structures sequence subset mask i :
  prune_conformers structures 1 sequence = Ok (subset, mask) →
  mask !! i = Some false →
  ∃ r, mask !! r = Some true ∧ rtsc (any_match structures) i r.
Proof using subgraph_nodes_lists.
  intros [Hmask _]%prune_conformers_one_inv Hi.
  pose proof (prune_shard_length kabsch_rmsd subgraph_nodes max_rmsd subgraph_nodes_lists
                _ _ Hmask) as Hlen.
  assert (i < length structures) as Hlt by (rewrite <-Hlen; by eapply lookup_lt_Some).
  destruct (decide (i ∈ graph_nodes (matches structures))) as [Hnode|Hnode].
  - destruct (prune_shard_component kabsch_rmsd subgraph_nodes max_rmsd
                subgraph_nodes_lists structures mask i Hmask Hnode)
      as (c & r & Hc & Hclass & _ & Hrc & Hkeep).
    exists r. split.
    + rewrite (Hkeep r Hrc). by rewrite bool_decide_eq_true_2.
    + apply Hclass in Hrc. eapply (rtsc_congruence id); [|exact Hrc].
      intros x y Hxy. by apply first_match_any, elem_of_matches.
  - rewrite (prune_shard_isolated kabsch_rmsd subgraph_nodes max_rmsd
               subgraph_nodes_lists structures mask i Hmask Hlt Hnode) in Hi.
    done.
Qed.

End kept.

(** X9. When the nodes of a component are listed in the insertion order of the
    graph, the first conformer of the ensemble is always retained. *)
Theorem prune_conformers_keeps_first {conformer : Type}
    (kabsch_rmsd : conformer → conformer → Qc) (max_rmsd : Qc) s0 rest sequence :
  ∃ subset mask,
    prune_conformers kabsch_rmsd insertion_order max_rmsd (s0 :: rest) 1 sequence =
      Ok (s0 :: subset, true :: mask).
Proof.
  destruct (prune_shard_mask kabsch_rmsd insertion_order max_rmsd insertion_order_lists
              (s0 :: rest)) as (mask & Hmask & Hlen & _).
  assert (mask !! 0 = Some true) as H0.
  { destruct (decide (0 ∈ graph_nodes (matches kabsch_rmsd max_rmsd (s0 :: rest))))
      as [Hnode|Hnode].
    - destruct (prune_shard_component kabsch_rmsd insertion_order max_rmsd
                  insertion_order_lists (s0 :: rest) mask 0 Hmask Hnode)
        as (c & r & Hc & Hclass & Hrep & Hrc & Hkeep).
      assert (0 ∈ c) as H0c by (by apply Hclass).
      pose proof (insertion_order_least _ c r
                    (matches_row_ordered kabsch_rmsd max_rmsd (s0 :: rest)) Hc Hrep 0 H0c).
      rewrite (Hkeep 0 H0c). f_equal. apply bool_decide_eq_true_2. lia.
    - apply (prune_shard_isolated kabsch_rmsd insertion_order max_rmsd
               insertion_order_lists (s0 :: rest) mask 0 Hmask); [simpl; lia|done]. }
  destruct mask as [|b mask]; [done|]. cbn in H0. injection H0 as ->.
  exists (select rest mask), mask.
  by rewrite (prune_conformers_one kabsch_rmsd insertion_order max_rmsd
                insertion_order_lists (s0 :: rest) sequence (true :: mask) Hmask).
Qed.

(** X10. The slices of the shards, put together in step order, are the ensemble:
    the slicing loses or repeats no conformer, every shard but the last has
    [len // k] conformers and the last takes the rest. *)
Theorem shards_partition {conformer : Type} (structures : list conformer) k :
  1 ≤ k →
  concat ((λ step, shard structures (length structures / k) k step) <$> seq 0 k) =
    structures ∧
  ∀ step, S step < k →
    length (shard structures (length structures / k) k step) = length structures / k.
Proof.
  intros Hk. split; [apply concat_shards; lia|].
  intros step Hstep. unfold shard. rewrite decide_False by lia.
  rewrite length_take, length_drop.
  pose proof (Nat.Div0.mul_div_le (length structures) k) as Hle.
  assert (length structures / k * S step ≤ length structures / k * k) as Hmul
    by (apply Nat.mul_le_mono_l; lia).
  lia.
Qed.

Lemma prune_conformers_zero_shards_witness :
  prune_conformers diatomic_rmsd insertion_order 1 three_diatomics 0 [2; 0; 1] =
    Raise ZeroDivisionError.
Proof. apply prune_conformers_zero_shards. exact shuffle_201. Defined.

Lemma diatomic_rmsd_nonneg a b : (0 ≤ diatomic_rmsd a b)%Qc.
Proof.
  unfold diatomic_rmsd, Qc_abs. apply Qcmult_nonneg_nonneg; [|done].
  case_bool_decide as Hneg.
  - apply Qclt_le_weak in Hneg. apply Qcopp_le_compat in Hneg. exact Hneg.
  - by apply Qcnot_lt_le.
Qed.

Lemma prune_conformers_threshold_not_positive_witness :
  prune_conformers diatomic_rmsd insertion_order 0 three_diatomics 1 [] =
    Ok (three_diatomics, replicate (length three_diatomics) true).
Proof.
  apply prune_conformers_threshold_not_positive; [apply diatomic_rmsd_nonneg|done].
Defined.

(** Four copies of one conformer. *)
Lemma four_copies_chain i si :
  replicate 4 (frac 2 1) !! i = Some si → S i < length (replicate 4 (frac 2 1)) →
  ∃ j, any_match diatomic_rmsd (frac 1 10) (replicate 4 (frac 2 1)) i j.
Proof.
  intros Hi Hlt. exists (S i). split; [lia|].
  apply lookup_replicate in Hi as [-> _].
  exists (frac 2 1), (frac 2 1). split_and!.
  - apply lookup_replicate_2. simpl in Hlt. lia.
  - apply lookup_replicate_2. simpl in Hlt. lia.
  - unfold below. by vm_compute.
Defined.

Lemma prune_conformers_chain_keeps_one_witness :
  ∃ s mask, s ∈ replicate 4 (frac 2 1) ∧
    prune_conformers diatomic_rmsd insertion_order (frac 1 10) (replicate 4 (frac 2 1)) 1 [] =
      Ok ([s], mask).
Proof.
  apply (prune_conformers_chain_keeps_one diatomic_rmsd insertion_order (frac 1 10)
           insertion_order_lists (replicate 4 (frac 2 1)) []); [done|].
  exact four_copies_chain.
Defined.

Lemma prune_conformers_rejected_has_kept_relative_witness :
  ∃ r, [true; false; true] !! r = Some true ∧
       rtsc (any_match diatomic_rmsd 1 three_diatomics) 1 r.
Proof.
  apply (prune_conformers_rejected_has_kept_relative diatomic_rmsd insertion_order 1
           insertion_order_lists three_diatomics [] [frac 2 1; frac 1 2] [true; false; true] 1);
    [vm_compute; reflexivity | reflexivity].
Defined.

Lemma shards_partition_witness :
  concat ((λ step, shard three_diatomics (length three_diatomics / 2) 2 step) <$> seq 0 2) =
    three_diatomics ∧
  ∀ step, S step < 2 →
    length (shard three_diatomics (length three_diatomics / 2) 2 step) =
      length three_diatomics / 2.
Proof. apply shards_partition. lia. Defined.

End PruneMore.

(** ** The RMSD metric: the steps before the eigenvalue routine *)

Module RmsdMore.
Import Rmsd.

Lemma item_matmul a b g i j :
  matmul a b = Ok g → i < nrows a → j < ncols b → ∃ x, item g i j = Ok x.
Proof.
  unfold matmul. case_decide; [|done]. intros [= <-] Hi Hj. unfold item. cbn [rows].
  unfold py_index. rewrite list_lookup_fmap, lookup_seq_lt by done. cbn [fmap option_fmap option_map rbind].
  rewrite list_lookup_fmap, lookup_seq_lt by done. by eexists.
Qed.

Lemma K_mtx_total M :
  (∀ i j, i < 3 → j < 3 → ∃ x, item M i j = Ok x) → ∃ K, K_mtx M = Ok K.
Proof.
  intros Hitem. unfold K_mtx.
  destruct (Hitem 0 0) as [? ->]; [lia..|]. cbn [rbind].
  destruct (Hitem 0 1) as [? ->]; [lia..|]. cbn [rbind].
  destruct (Hitem 0 2) as [? ->]; [lia..|]. cbn [rbind].
  destruct (Hitem 1 0) as [? ->]; [lia..|]. cbn [rbind].
  destruct (Hitem 1 1) as [? ->]; [lia..|]. cbn [rbind].
  destruct (Hitem 1 2) as [? ->]; [lia..|]. cbn [rbind].
  destruct (Hitem 2 0) as [? ->]; [lia..|]. cbn [rbind].
  destruct (Hitem 2 1) as [? ->]; [lia..|]. cbn [rbind].
  destruct (Hitem 2 2) as [? ->]; [lia..|]. cbn [rbind].
  by eexists.
Qed.

Lemma K_mtx_symmetric M K :
  K_mtx M = Ok K → nrows K = 4 ∧ ncols K = 4 ∧ ∀ i j, entry K i j = entry K j i.
Proof.
  unfold K_mtx.
  destruct (item M 0 0) as [S_xx|]; [|done]. cbn [rbind].
  destruct (item M 0 1) as [S_xy|]; [|done]. cbn [rbind].
  destruct (item M 0 2) as [S_xz|]; [|done]. cbn [rbind].
  destruct (item M 1 0) as [S_yx|]; [|done]. cbn [rbind].
  destruct (item M 1 1) as [S_yy|]; [|done]. cbn [rbind].
  destruct (item M 1 2) as [S_yz|]; [|done]. cbn [rbind].
  destruct (item M 2 0) as [S_zx|]; [|done]. cbn [rbind].
  destruct (item M 2 1) as [S_zy|]; [|done]. cbn [rbind].
  destruct (item M 2 2) as [S_zz|]; [|done]. cbn [rbind].
  intros [= <-]. split_and!; [done..|].
  intros i j. unfold entry. cbn [rows].
  destruct i as [|[|[|[|i]]]], j as [|[|[|[|j]]]]; reflexivity.
Qed.

Lemma M_mtx_shape A B M : M_mtx A B = Ok M → nrows M = ncols B ∧ ncols M = ncols A.
Proof. unfold M_mtx, matmul. case_decide; [|done]. by intros [= <-]. Qed.



End RmsdMore.

(** ** The cube file body: the layout of the lines *)

Module CubeMore.
Import Density CubeFacts.

Section more.
Context {A : Type}.

Lemma emit_state (v : A) pl c :
  emit (pl, c) v = (pl ++ (emit ([], c) v).1, c + 1).
Proof. unfold emit. destruct (decide ((c + 1) `mod` 6 = 5)); cbn; by rewrite <-?app_assoc. Qed.

Lemma foldl_emit_state (vs : list A) pl c :
  foldl emit (pl, c) vs = (pl ++ (foldl emit ([], c) vs).1, c + length vs).
Proof.
  revert pl c. induction vs as [|v vs IH]; intros pl c; cbn [foldl length].
  - by rewrite app_nil_r, Nat.add_0_r.
  - rewrite (emit_state v pl c), IH. rewrite (emit_state v [] c), (IH (_ ++ _)).
    cbn [fst app]. rewrite <-app_assoc. f_equal. lia.
Qed.

(** Reading the lines back: with the closing line break nothing is left
    over. *)
Lemma concat_lines_from (toks : list (token A)) cur :
  concat (lines_from cur (toks ++ [Newline])) = cur ++ values toks.
Proof.
  revert cur. induction toks as [|[v|] toks IH]; intros cur; cbn [lines_from app].
  - unfold values. cbn. by rewrite !app_nil_r.
  - rewrite IH. unfold values. cbn. by rewrite <-app_assoc.
  - cbn [concat]. rewrite IH. unfold values. by cbn.
Qed.

Lemma emit_break (v : A) pl c :
  (c + 1) `mod` 6 = 5 → emit (pl, c) v = (pl ++ [Value v; Newline], c + 1).
Proof. intros H. unfold emit. rewrite decide_True by done. by rewrite <-app_assoc. Qed.

Lemma emit_no_break (v : A) pl c :
  (c + 1) `mod` 6 ≠ 5 → emit (pl, c) v = (pl ++ [Value v], c + 1).
Proof. intros H. unfold emit. by rewrite decide_False by done. Qed.

(** After a line break that follows a value numbered 5, 11, 17, ... the
    values go six to a line. *)
Lemma lines_from_chunks (vs : list A) c :
  c `mod` 6 = 5 →
  lines_from [] ((foldl emit ([], c) vs).1 ++ [Newline]) =
    (λ k, take 6 (drop (6 * k) vs)) <$> seq 0 (length vs / 6 + 1).
Proof.
  revert c. induction vs as [vs IH] using (induction_ltof1 _ length).
  unfold ltof in IH. intros c Hc.
  assert ((c + 1) `mod` 6 ≠ 5 ∧ (c + 1 + 1) `mod` 6 ≠ 5 ∧ (c + 1 + 1 + 1) `mod` 6 ≠ 5 ∧
          (c + 1 + 1 + 1 + 1) `mod` 6 ≠ 5 ∧ (c + 1 + 1 + 1 + 1 + 1) `mod` 6 ≠ 5 ∧
          (c + 1 + 1 + 1 + 1 + 1 + 1) `mod` 6 = 5) as (H1 & H2 & H3 & H4 & H5 & H6).
  { assert (∀ k r, (5 + k) `mod` 6 = r → (c + k) `mod` 6 = r) as Hshift.
    { intros k r Hr. pose proof (Nat.div_mod_eq c 6) as Hq. rewrite Hc in Hq.
      replace (c + k) with (5 + k + c / 6 * 6) by lia.
      by rewrite Nat.Div0.mod_add. }
    rewrite <-!Nat.add_assoc. cbn [Nat.add].
    rewrite (Hshift 1 0), (Hshift 2 1), (Hshift 3 2), (Hshift 4 3), (Hshift 5 4),
      (Hshift 6 5) by done.
    repeat split; lia. }
  destruct vs as [|v1 [|v2 [|v3 [|v4 [|v5 [|v6 rest]]]]]]; cbn [foldl];
    rewrite ?(emit_no_break _ _ _ H1), ?(emit_no_break _ _ _ H2), ?(emit_no_break _ _ _ H3),
      ?(emit_no_break _ _ _ H4), ?(emit_no_break _ _ _ H5); try reflexivity.
  rewrite (emit_break _ _ _ H6), foldl_emit_state. cbn [fst app lines_from].
  rewrite (IH rest ltac:(cbn; lia) _ H6). cbn [length].
  replace (S (S (S (S (S (S (length rest)))))) / 6 + 1) with (S (length rest / 6 + 1)).
  - cbn [seq fmap list_fmap]. rewrite <-fmap_S_seq, <-list_fmap_compose.
    f_equal. apply list_fmap_ext. intros _ k _. cbn [compose].
    by replace (6 * S k) with (6 + 6 * k) by lia.
  - change (S (S (S (S (S (S (length rest))))))) with (1 * 6 + length rest).
    rewrite Nat.div_add_l by done. lia.
Qed.

(** X15. The layout of the body, whatever the grid: the first line holds the
    first five cells, every later line the next six, and the last line what
    is left, which may be nothing. *)
Theorem cube_body_lines (box : grid A) :
  lines (cube_body box) =
    (λ k, take (if decide (k = 0) then 5 else 6) (drop (6 * k - 1) (cells box)))
      <$> seq 0 ((length (cells box) + 1) / 6 + 1).
Proof.
  unfold cube_body, lines. rewrite foldl_planes_flat.
  destruct (cells box) as [|v1 [|v2 [|v3 [|v4 [|v5 rest]]]]]; try reflexivity.
  cbn [foldl]. change (emit (emit (emit (emit (emit ([], 0) v1) v2) v3) v4) v5)
    with ([Value v1; Value v2; Value v3; Value v4; Value v5; Newline], 5).
  rewrite foldl_emit_state. cbn [fst app lines_from].
  rewrite (lines_from_chunks rest 5) by done. cbn [length].
  replace ((S (S (S (S (S (length rest))))) + 1) / 6 + 1) with (S (length rest / 6 + 1)).
  - cbn [seq fmap list_fmap]. rewrite <-fmap_S_seq, <-list_fmap_compose.
    f_equal. apply list_fmap_ext. intros _ k _. cbn [compose].
    rewrite decide_False by done.
    by replace (6 * S k - 1) with (5 + 6 * k) by lia.
  - replace (S (S (S (S (S (length rest))))) + 1) with (1 * 6 + length rest) by lia.
    rewrite Nat.div_add_l by done. lia.
Qed.

(** X16. Reading the body back line by line gives every cell once, in row-major
    order: the line breaks lose and reorder nothing. *)
Theorem cube_body_lines_concat (box : grid A) :
  concat (lines (cube_body box)) = cells box.
Proof.
  unfold lines, cube_body. rewrite concat_lines_from. cbn [app].
  pose proof (cube_body_row_major box) as H. unfold cube_body, values in H.
  rewrite omap_app in H. cbn in H. by rewrite app_nil_r in H.
Qed.

End more.
End CubeMore.

(** ** The clash detector: the order of the fragments *)

Module ClashOrder.
Import Clash ClashFacts.

Section more.
Variable sqrt : Qc → Qc.
Variable thresh : Qc.
Variable max_clashes : Z.

Abbreviation count_between := (count_between sqrt thresh).
Abbreviation pair_loop := (pair_loop sqrt thresh max_clashes).
Abbreviation compenetration_check := (compenetration_check sqrt thresh max_clashes).

Lemma two_fragments_verdict (m1 m2 : list vec) :
  (0 ≤ max_clashes)%Z →
  compenetration_check (m1 ++ m2) [length m1; length m2] =
    Ok (bool_decide (Z.of_nat (count_between m1 m2) ≤ max_clashes)%Z).
Proof.
  intros Hmax. unfold Clash.compenetration_check. rewrite decide_True by done.
  cbn -[Clash.pair_loop take drop]. rewrite take_app_length, drop_app_length.
  rewrite pair_loop_count by done. rewrite Z.add_0_l.
  case_decide; [by rewrite bool_decide_eq_true_2 | by rewrite bool_decide_eq_false_2].
Qed.

Lemma three_fragments_verdict (m1 m2 m3 : list vec) :
  (0 ≤ max_clashes)%Z →
  compenetration_check (m1 ++ m2 ++ m3) [length m1; length m2; length m3] =
    Ok (bool_decide (Z.of_nat (count_between m1 m2 + count_between m2 m3
                               + count_between m3 m1) ≤ max_clashes)%Z).
Proof.
  intros Hmax. unfold Clash.compenetration_check. rewrite decide_False by done.
  cbn -[Clash.pair_loop take drop].
  rewrite take_app_length, drop_app_length, take_app_length.
  replace (drop (length m1 + length m2) (m1 ++ m2 ++ m3)) with m3
    by (by rewrite <-drop_drop, drop_app_length, drop_app_length).
  rewrite pair_loop_count by done. rewrite Z.add_0_l.
  case_decide as H12; [|rewrite bool_decide_eq_false_2; [done | lia]].
  rewrite pair_loop_count by done.
  case_decide as H23; [|rewrite bool_decide_eq_false_2; [done | lia]].
  rewrite pair_loop_count by done.
  case_decide as H31; [rewrite bool_decide_eq_true_2 | rewrite bool_decide_eq_false_2];
    first [done | lia].
Qed.

(** X4. The verdict does not depend on the order in which the fragments are
    given: two fragments can be exchanged, and three can be exchanged and
    rotated, which gives every order. *)
Theorem compenetration_check_fragment_order (m1 m2 m3 : list vec) :
  (0 ≤ max_clashes)%Z →
  compenetration_check (m1 ++ m2) [length m1; length m2] =
    compenetration_check (m2 ++ m1) [length m2; length m1] ∧
  compenetration_check (m1 ++ m2 ++ m3) [length m1; length m2; length m3] =
    compenetration_check (m2 ++ m1 ++ m3) [length m2; length m1; length m3] ∧
  compenetration_check (m1 ++ m2 ++ m3) [length m1; length m2; length m3] =
    compenetration_check (m2 ++ m3 ++ m1) [length m2; length m3; length m1].
Proof.
  intros Hmax. rewrite !two_fragments_verdict, !three_fragments_verdict by done.
  rewrite (count_between_sym _ _ m2 m1), (count_between_sym _ _ m1 m3),
    (count_between_sym _ _ m3 m2).
  repeat split; f_equal; apply bool_decide_ext; lia.
Qed.

End more.

Lemma compenetration_check_fragment_order_witness :
  let m1 := take 1 four_atoms in
  let m2 := take 1 (drop 1 four_atoms) in
  let m3 := drop 2 four_atoms in
  compenetration_check sqrt_int (of_Z 6) 0 (m1 ++ m2) [length m1; length m2] =
    compenetration_check sqrt_int (of_Z 6) 0 (m2 ++ m1) [length m2; length m1] ∧
  compenetration_check sqrt_int (of_Z 6) 0 (m1 ++ m2 ++ m3) [length m1; length m2; length m3] =
    compenetration_check sqrt_int (of_Z 6) 0 (m2 ++ m1 ++ m3) [length m2; length m1; length m3] ∧
  compenetration_check sqrt_int (of_Z 6) 0 (m1 ++ m2 ++ m3) [length m1; length m2; length m3] =
    compenetration_check sqrt_int (of_Z 6) 0 (m2 ++ m3 ++ m1) [length m2; length m3; length m1].
Proof.
  apply (compenetration_check_fragment_order sqrt_int (of_Z 6) 0
           (take 1 four_atoms) (take 1 (drop 1 four_atoms)) (drop 2 four_atoms)).
  lia.
Defined.

End ClashOrder.

(** ** Shuffling: [scramble] and [scramble_mask] *)

Module ScrambleMore.
Import Prune PruneFacts.

(** X11. [scramble] either returns one entry per index of the sequence, all
    indices being inside the array, or raises [IndexError], some index being
    outside it. *)
Theorem scramble_index_error {A} (array : list A) (sequence : list nat) :
  match scramble array sequence with
  | Ok out => Forall (λ s, s < length array) sequence ∧ length out = length sequence
  | Raise e => e = IndexError ∧ Exists (λ s, length array ≤ s) sequence
  end.
Proof.
  unfold scramble. induction sequence as [|s sequence IH]; cbn [mapM]; [done|].
  destruct (decide (s < length array)) as [Hs|Hs].
  - destruct (py_index_lt array s Hs) as (a & -> & _). cbn [rbind].
    destruct (mapM _ sequence) as [out|e]; cbn [rbind].
    + destruct IH as [Hall Hlen]. split; [by constructor|]. cbn. by rewrite Hlen.
    + destruct IH as [-> Hex]. split; [done|]. by right.
  - rewrite py_index_ge by lia. cbn [rbind]. split; [done|]. left. lia.
Qed.

End ScrambleMore.

(** ** Rounding *)

Module NumberFacts.

Lemma of_Z_Qc_of_Z z : of_Z z = Qc_of_Z z.
Proof. unfold of_Z. apply Qc_is_canon. simpl. apply Qred_correct. Qed.

Lemma Qc_floor_Qfloor (q : Qc) : Qc_floor q = Qfloor q.
Proof. by destruct q as [[n d] ?]. Qed.

Lemma of_Z_le (a b : Z) : (a ≤ b)%Z ↔ (of_Z a ≤ of_Z b)%Qc.
Proof. rewrite !of_Z_Qc_of_Z. apply Z2Qc_inj_le. Qed.

Lemma of_Z_lt (a b : Z) : (a < b)%Z ↔ (of_Z a < of_Z b)%Qc.
Proof. rewrite !of_Z_Qc_of_Z. apply Z2Qc_inj_lt. Qed.

Lemma of_Z_add (a b : Z) : of_Z (a + b) = (of_Z a + of_Z b)%Qc.
Proof. rewrite !of_Z_Qc_of_Z. apply Z2Qc_inj_add. Qed.

Lemma of_Z_opp (a : Z) : of_Z (- a) = (- of_Z a)%Qc.
Proof. rewrite !of_Z_Qc_of_Z. apply Z2Qc_inj_opp. Qed.

Lemma Qc_floor_le (q : Qc) : (of_Z (Qc_floor q) ≤ q)%Qc.
Proof.
  rewrite Qc_floor_Qfloor. unfold of_Z, Qcle. cbn [this Q2Qc].
  rewrite Qred_correct. apply Qfloor_le.
Qed.

Lemma Qc_lt_floor (q : Qc) : (q < of_Z (Qc_floor q + 1))%Qc.
Proof.
  rewrite Qc_floor_Qfloor. unfold of_Z, Qclt. cbn [this Q2Qc].
  rewrite Qred_correct. apply Qlt_floor.
Qed.

Lemma Qc_floor_ge (z : Z) (q : Qc) : (of_Z z ≤ q)%Qc → (z ≤ Qc_floor q)%Z.
Proof.
  intros H. pose proof (Qc_lt_floor q) as Hlt.
  assert (of_Z z < of_Z (Qc_floor q + 1))%Qc as H' by (by eapply Qcle_lt_trans).
  apply of_Z_lt in H'. lia.
Qed.

Lemma Qc_le_ceil (q : Qc) : (q ≤ of_Z (Qc_ceil q))%Qc.
Proof.
  unfold Qc_ceil. pose proof (Qc_floor_le (- q)) as H.
  apply Qcopp_le_compat in H. rewrite Qcopp_involutive in H.
  by rewrite of_Z_opp.
Qed.

Lemma Qc_ceil_le (z : Z) (q : Qc) : (q ≤ of_Z z)%Qc → (Qc_ceil q ≤ z)%Z.
Proof.
  intros H. unfold Qc_ceil. apply Qcopp_le_compat in H.
  rewrite <-of_Z_opp in H. apply Qc_floor_ge in H. lia.
Qed.

(** [round] never goes below an integer at or below its argument, nor above
    one at or above it. *)
Lemma py_round_ge (z : Z) (q : Qc) : (of_Z z ≤ q)%Qc → (z ≤ py_round q)%Z.
Proof.
  intros H%Qc_floor_ge. unfold py_round.
  repeat case_bool_decide; try destruct (Z.even _); lia.
Qed.

Lemma py_round_le (z : Z) (q : Qc) : (q ≤ of_Z z)%Qc → (py_round q ≤ z)%Z.
Proof.
  intros H. pose proof (Qc_floor_le q) as Hf.
  assert (Qc_floor q ≤ z)%Z as Hfz.
  { apply of_Z_le. by eapply Qcle_trans. }
  assert ((of_Z (Qc_floor q) < q)%Qc → (Qc_floor q + 1 ≤ z)%Z) as Hup.
  { intros Hlt. assert (of_Z (Qc_floor q) < of_Z z)%Qc as H' by (by eapply Qclt_le_trans).
    apply of_Z_lt in H'. lia. }
  assert ((frac 1 2 ≤ q - of_Z (Qc_floor q))%Qc → (of_Z (Qc_floor q) < q)%Qc) as Hhalf.
  { intros Hr. apply Qclt_minus_iff. eapply Qclt_le_trans; [|exact Hr]. done. }
  unfold py_round. case_bool_decide as H1; [done|].
  apply Qcnot_lt_le in H1. specialize (Hup (Hhalf H1)).
  case_bool_decide; [done|]. destruct (Z.even _); lia.
Qed.

End NumberFacts.

(** ** The density grid: when the call returns *)

Module DensityMore.
Import Density DensityFacts NumberFacts Box.

Lemma py_min_spec l m :
  py_min l = Ok m → m ∈ l ∧ Forall (λ x, (m ≤ x)%Qc) l.
Proof.
  destruct l as [|x l]; [done|]. simpl. intros [= <-].
  assert (∀ l a, let r := foldl (λ m y : Qc, if bool_decide (y < m)%Qc then y else m) a l in
            (r = a ∨ r ∈ l) ∧ (r ≤ a)%Qc ∧ Forall (λ x, (r ≤ x)%Qc) l) as H.
  { clear. induction l as [|y l IH]; intros a; simpl.
    - split; [by left|]. split; [apply Qcle_refl | constructor].
    - case_bool_decide as Hlt.
      + destruct (IH y) as ([->|Hin] & Hle & Hall).
        * split; [right; left|]. split; [by apply Qclt_le_weak|]. constructor; [apply Qcle_refl|done].
        * split; [right; by right|]. split; [|by constructor].
          eapply Qcle_trans; [done | apply Qclt_le_weak, Hlt].
      + destruct (IH a) as ([->|Hin] & Hle & Hall).
        * split; [by left|]. split; [apply Qcle_refl|]. constructor; [|done].
          by apply Qcnot_lt_le.
        * split; [right; by right|]. split; [done|]. constructor; [|done].
          eapply Qcle_trans; [done | apply Qcnot_lt_le, Hlt]. }
  destruct (H l x) as ([->|Hin] & Hle & Hall).
  - split; [left|]. constructor; [apply Qcle_refl|done].
  - split; [by right|]. by constructor.
Qed.

Lemma py_min_nonempty l : l ≠ [] → ∃ m, py_min l = Ok m.
Proof. destruct l; [done|]. intros _. by eexists. Qed.

Lemma slice_fits (n x s : Z) :
  (0 ≤ x)%Z → (0 ≤ s)%Z → (x + s ≤ n)%Z →
  slice (Z.to_nat n) x (x + s) = (Z.to_nat x, Z.to_nat s).
Proof.
  intros Hx Hs Hn. unfold slice, slice_bound.
  rewrite !decide_False by lia. f_equal; lia.
Qed.

Lemma stamp_add_fits (n1 n2 n3 : Z) box (x y z sl : Z) stamp w :
  (0 ≤ sl)%Z →
  (0 ≤ x)%Z → (x + sl ≤ n1)%Z →
  (0 ≤ y)%Z → (y + sl ≤ n2)%Z →
  (0 ≤ z)%Z → (z + sl ≤ n3)%Z →
  ∃ box', stamp_add (Z.to_nat n1, Z.to_nat n2, Z.to_nat n3) box x y z (Z.to_nat sl) stamp w
            = Ok box'.
Proof.
  intros Hs Hx1 Hx2 Hy1 Hy2 Hz1 Hz2. unfold stamp_add. cbn [fst snd].
  rewrite Z2Nat.id by done.
  rewrite !slice_fits by done.
  unfold broadcasts. rewrite !bool_decide_eq_true_2 by done. cbn. by eexists.
Qed.

Lemma half_outline (sl : Z) : (of_Z (2 * sl) / frac 2 1)%Qc = of_Z sl.
Proof.
  replace (2 * sl)%Z with (sl + sl)%Z by lia. rewrite of_Z_add.
  assert (frac 2 1 = 1 + 1)%Qc as -> by (by apply Qc_is_canon).
  field. done.
Qed.

(** The voxel an atom is stamped at leaves room for the stamp on both
    sides. *)
Lemma position_fits (v m M a : Qc) (sl : Z) :
  (0 < v)%Qc → (m ≤ a)%Qc → (a ≤ M)%Qc →
  let pos := py_round ((a - m) / v + of_Z (2 * sl) / frac 2 1)%Qc in
  (sl ≤ pos)%Z ∧ (pos + sl ≤ Qc_ceil ((M - m) / v) + 2 * sl)%Z.
Proof.
  intros Hv Hm HM pos. subst pos. rewrite half_outline.
  assert (0 ≤ / v)%Qc as Hinv by (by apply Qclt_le_weak, Qcinv_pos).
  assert (0 ≤ (a - m) / v)%Qc as H0.
  { apply Qcmult_nonneg_nonneg; [|done].
    apply Qcle_minus_iff in Hm. exact Hm. }
  assert ((a - m) / v ≤ (M - m) / v)%Qc as H1.
  { apply Qcmult_le_compat_r; [|done]. by apply Qcplus_le_mono_r. }
  split.
  - apply py_round_ge. rewrite <-(Qcplus_0_l (of_Z sl)) at 1.
    by apply Qcplus_le_mono_r.
  - assert (py_round ((a - m) / v + of_Z sl) ≤ Qc_ceil ((M - m) / v) + sl)%Z; [|lia].
    apply py_round_le. rewrite of_Z_add. apply Qcplus_le_mono_r.
    eapply Qcle_trans; [exact H1|]. apply Qc_le_ceil.
Qed.

Lemma fmap_imap_keeps {A B} (g : A → B) (f : nat → A → A) (l : list A) :
  (∀ i x, g (f i x) = g x) → g <$> imap f l = g <$> l.
Proof.
  revert f. induction l as [|x l IH]; intros f Hf; [done|].
  cbn [imap fmap list_fmap]. rewrite Hf. f_equal. apply IH. intros i y. apply Hf.
Qed.

Lemma imap_keeps {A} (f : nat → A → A) (l : list A) :
  (∀ i x, f i x = x) → imap f l = l.
Proof.
  revert f. induction l as [|x l IH]; intros f Hf; [done|].
  cbn [imap]. rewrite Hf. f_equal. apply IH. intros i y. apply Hf.
Qed.

(** The lengths of the rows of every plane: the shape of the grid. *)
Abbreviation dims g := (fmap (M:=list) (fmap (M:=list) length) g).

Lemma stamp_add_dims shape box x y z sl stamp w box' :
  stamp_add shape box x y z sl stamp w = Ok box' →
  dims box' = dims box.
Proof.
  unfold stamp_add.
  destruct (slice _ x _) as [x0 nx], (slice _ y _) as [y0 ny], (slice _ z _) as [z0 nz].
  destruct (_ && _); [|done]. intros [= <-].
  apply fmap_imap_keeps. intros i plane.
  apply fmap_imap_keeps. intros j row. apply length_imap.
Qed.

Lemma inside_empty lo i : inside lo 0 i = false.
Proof.
  apply not_true_is_false. unfold inside.
  rewrite andb_true_iff, !bool_decide_eq_true. lia.
Qed.

(** A stamp of no voxels changes nothing. *)
Lemma stamp_add_empty shape box x y z stamp w box' :
  stamp_add shape box x y z (Z.to_nat 0) stamp w = Ok box' → box' = box.
Proof.
  unfold stamp_add, slice. cbn [Z.to_nat Z.of_nat]. rewrite !Z.add_0_r, !Nat.sub_diag.
  destruct (_ && _); [|done]. intros [= <-].
  apply imap_keeps. intros i plane. apply imap_keeps. intros j row.
  apply imap_keeps. intros k c. by rewrite inside_empty.
Qed.

Lemma cells_nonempty {A} (g : grid A) a b c :
  dims g = replicate (S a) (replicate (S b) (S c)) → cells g ≠ [].
Proof. destruct g as [|[|[|cell row] plane] g]; done. Qed.

Lemma zeros_dims shape :
  dims (zeros shape) = replicate shape.1.1 (replicate shape.1.2 shape.2).
Proof.
  unfold zeros. rewrite fmap_replicate. f_equal.
  rewrite fmap_replicate. f_equal. apply length_replicate.
Qed.

Section more.
Variable exp : Qc → Qc.
Variables (voxel_dim stamp_size hardness : Qc).

Abbreviation atom_loop := (atom_loop exp voxel_dim stamp_size hardness).
Abbreviation conformer_loop := (conformer_loop exp voxel_dim stamp_size hardness).
Abbreviation accumulate := (accumulate exp voxel_dim stamp_size hardness).
Abbreviation compute_CoDe := (compute_CoDe exp voxel_dim stamp_size hardness).

Lemma atom_loop_returns self (sl : Z) (lo hi : vec) energy conformer box :
  (0 < voxel_dim)%Qc → T self ≠ 0%Qc → (0 ≤ sl)%Z →
  Forall (within lo hi) conformer →
  ∃ box',
    atom_loop self
      (Z.to_nat (Qc_ceil ((hi.1.1 - lo.1.1) / voxel_dim) + 2 * sl),
       Z.to_nat (Qc_ceil ((hi.1.2 - lo.1.2) / voxel_dim) + 2 * sl),
       Z.to_nat (Qc_ceil ((hi.2 - lo.2) / voxel_dim) + 2 * sl))
      sl lo.1.1 lo.1.2 lo.2 energy conformer box = Ok box'.
Proof.
  intros Hv HT Hs Hall. revert box.
  induction Hall as [|atom conformer (Hx1 & Hx2 & Hy1 & Hy2 & Hz1 & Hz2) _ IH];
    intros box; cbn [Density.atom_loop].
  - by eexists.
  - rewrite decide_False by done.
    destruct (position_fits voxel_dim _ _ _ sl Hv Hx1 Hx2) as [Hxa Hxb].
    destruct (position_fits voxel_dim _ _ _ sl Hv Hy1 Hy2) as [Hya Hyb].
    destruct (position_fits voxel_dim _ _ _ sl Hv Hz1 Hz2) as [Hza Hzb].
    cbn zeta in Hxa, Hxb, Hya, Hyb, Hza, Hzb.
    edestruct (stamp_add_fits) as [box1 ->]; [exact Hs| | exact Hxb | | exact Hyb | | exact Hzb |];
      [lia..|].
    cbn [rbind]. apply IH.
Qed.

Lemma conformer_loop_returns self (sl : Z) (lo hi : vec) i rest box :
  (0 < voxel_dim)%Qc → T self ≠ 0%Qc → (0 ≤ sl)%Z →
  Forall (Forall (within lo hi)) rest →
  i + length rest ≤ length (energies self) →
  ∃ box',
    conformer_loop self
      (Z.to_nat (Qc_ceil ((hi.1.1 - lo.1.1) / voxel_dim) + 2 * sl),
       Z.to_nat (Qc_ceil ((hi.1.2 - lo.1.2) / voxel_dim) + 2 * sl),
       Z.to_nat (Qc_ceil ((hi.2 - lo.2) / voxel_dim) + 2 * sl))
      sl lo.1.1 lo.1.2 lo.2 i rest box = Ok box'.
Proof.
  intros Hv HT Hs Hall. revert i box.
  induction Hall as [|conformer rest Hc _ IH]; intros i box Hlen;
    cbn [Density.conformer_loop].
  - by eexists.
  - cbn [length] in Hlen.
    destruct (py_index_lt (energies self) i ltac:(lia)) as (energy & -> & _).
    cbn [rbind]. case_bool_decide.
    + destruct (atom_loop_returns self sl lo hi energy conformer box) as [box1 ->]; try done.
      cbn [rbind]. apply IH. lia.
    + cbn [rbind]. apply IH. lia.
Qed.

Lemma of_Z_0 : of_Z 0 = 0%Qc.
Proof. by apply Qc_is_canon. Qed.

Lemma Qc_ceil_nonneg (q : Qc) : (0 ≤ q)%Qc → (0 ≤ Qc_ceil q)%Z.
Proof.
  intros Hq. apply of_Z_le. rewrite of_Z_0.
  exact (Qcle_trans _ _ _ Hq (Qc_le_ceil q)).
Qed.

Lemma extent_nonneg (m M a : Qc) :
  (0 < voxel_dim)%Qc → (m ≤ a)%Qc → (a ≤ M)%Qc → (0 ≤ Qc_ceil ((M - m) / voxel_dim))%Z.
Proof.
  intros Hv Hm HM. apply Qc_ceil_nonneg, Qcmult_nonneg_nonneg.
  - exact (proj1 (Qcle_minus_iff m M) (Qcle_trans _ _ _ Hm HM)).
  - by apply Qclt_le_weak, Qcinv_pos.
Qed.

Lemma stamp_len_nonneg :
  (0 < voxel_dim)%Qc → (0 ≤ stamp_size)%Qc → (0 ≤ py_round (stamp_size / voxel_dim))%Z.
Proof.
  intros Hv Hs. apply py_round_ge. rewrite of_Z_0.
  apply Qcmult_nonneg_nonneg; [done|]. by apply Qclt_le_weak, Qcinv_pos.
Qed.

(** What [accumulate] computes before the loop, when it gets that far. *)
Lemma accumulate_unfold self :
  (0 < voxel_dim)%Qc → (0 ≤ stamp_size)%Qc → atoms self ≠ [] →
  ∃ lo hi : vec,
    Forall (within lo hi) (atoms self) ∧
    accumulate self =
      conformer_loop self
        (Z.to_nat (Qc_ceil ((hi.1.1 - lo.1.1) / voxel_dim)
                   + 2 * py_round (stamp_size / voxel_dim)),
         Z.to_nat (Qc_ceil ((hi.1.2 - lo.1.2) / voxel_dim)
                   + 2 * py_round (stamp_size / voxel_dim)),
         Z.to_nat (Qc_ceil ((hi.2 - lo.2) / voxel_dim)
                   + 2 * py_round (stamp_size / voxel_dim)))
        (py_round (stamp_size / voxel_dim)) lo.1.1 lo.1.2 lo.2 0 (atomcoords self)
        (zeros
          (Z.to_nat (Qc_ceil ((hi.1.1 - lo.1.1) / voxel_dim)
                     + 2 * py_round (stamp_size / voxel_dim)),
           Z.to_nat (Qc_ceil ((hi.1.2 - lo.1.2) / voxel_dim)
                     + 2 * py_round (stamp_size / voxel_dim)),
           Z.to_nat (Qc_ceil ((hi.2 - lo.2) / voxel_dim)
                     + 2 * py_round (stamp_size / voxel_dim)))).
Proof.
  intros Hv Hs Hne. pose proof (stamp_len_nonneg Hv Hs) as Hsl.
  unfold Density.accumulate.
  rewrite decide_False by (by apply not_eq_sym, Qclt_not_eq).
  rewrite decide_False by lia.
  destruct (atoms self) as [|a0 rest] eqn:Hatoms; [done|]. clear Hne.
  rewrite <-Hatoms.
  assert (∀ f : vec → Qc, f <$> atoms self ≠ []) as Hnil by (by rewrite Hatoms).
  destruct (py_min_nonempty _ (Hnil (λ pos, pos.1.1))) as [mx Hmx].
  destruct (py_min_nonempty _ (Hnil (λ pos, pos.1.2))) as [my Hmy].
  destruct (py_min_nonempty _ (Hnil (λ pos, pos.2))) as [mz Hmz].
  destruct (py_max_nonempty _ (Hnil (λ pos, pos.1.1))) as [Mx HMx].
  destruct (py_max_nonempty _ (Hnil (λ pos, pos.1.2))) as [My HMy].
  destruct (py_max_nonempty _ (Hnil (λ pos, pos.2))) as [Mz HMz].
  rewrite Hmx, Hmy, Hmz, HMx, HMy, HMz. cbn [rbind fst snd].
  apply py_min_spec in Hmx as [_ Hmx], Hmy as [_ Hmy], Hmz as [_ Hmz].
  apply py_max_spec in HMx as [_ HMx], HMy as [_ HMy], HMz as [_ HMz].
  rewrite Forall_fmap in Hmx, Hmy, Hmz, HMx, HMy, HMz.
  assert (Forall (within (mx, my, mz) (Mx, My, Mz)) (atoms self)) as Hin.
  { apply Forall_forall. intros a Ha. unfold within. cbn [fst snd].
    repeat split;
      match goal with
      | H : Forall _ (atoms self) |- _ =>
          eapply Forall_forall in H; [exact H | exact Ha]
      end. }
  exists (mx, my, mz), (Mx, My, Mz). split; [done|]. cbn [fst snd].
  rewrite Hatoms in Hin. apply Forall_cons_1 in Hin as [(X1 & X2 & Y1 & Y2 & Z1 & Z2) _].
  cbn [fst snd] in *.
  pose proof (extent_nonneg _ _ _ Hv X1 X2). pose proof (extent_nonneg _ _ _ Hv Y1 Y2).
  pose proof (extent_nonneg _ _ _ Hv Z1 Z2).
  rewrite decide_False by lia. reflexivity.
Qed.

Lemma atoms_within lo hi self :
  Forall (within lo hi) (atoms self) → Forall (Forall (within lo hi)) (atomcoords self).
Proof.
  unfold atoms. intros H. apply Forall_forall. intros c Hc. apply Forall_forall.
  intros a Ha. eapply Forall_forall in H; [exact H|].
  apply list_elem_of_In, in_concat. exists c. split; by apply list_elem_of_In.
Qed.


Lemma atom_loop_dims self shape sl mx my mz energy conformer box box' :
  atom_loop self shape sl mx my mz energy conformer box = Ok box' → dims box' = dims box.
Proof.
  revert box. induction conformer as [|atom conformer IH]; intros box;
    cbn [Density.atom_loop].
  - by intros [= <-].
  - case_decide; [done|].
    destruct (stamp_add _ _ _ _ _ _ _ _) as [box1|] eqn:Hadd; [|done].
    cbn [rbind]. intros Hloop. rewrite (IH _ Hloop). by eapply stamp_add_dims.
Qed.

Lemma conformer_loop_dims self shape sl mx my mz i rest box box' :
  conformer_loop self shape sl mx my mz i rest box = Ok box' → dims box' = dims box.
Proof.
  revert i box. induction rest as [|conformer rest IH]; intros i box;
    cbn [Density.conformer_loop].
  - by intros [= <-].
  - destruct (py_index _ i) as [energy|]; [|done]. cbn [rbind].
    case_bool_decide.
    + destruct (atom_loop _ _ _ _ _ _ _ _ _) as [box1|] eqn:Hatoms; [|done].
      cbn [rbind]. intros Hloop. rewrite (IH _ _ Hloop). by eapply atom_loop_dims.
    + cbn [rbind]. apply IH.
Qed.

Lemma stamp_len_pos :
  (0 < voxel_dim)%Qc → (voxel_dim ≤ stamp_size)%Qc → (1 ≤ py_round (stamp_size / voxel_dim))%Z.
Proof.
  intros Hv Hs. apply py_round_ge.
  assert (of_Z 1 = voxel_dim / voxel_dim)%Qc as ->.
  { unfold Qcdiv. rewrite Qcmult_inv_r by (by apply not_eq_sym, Qclt_not_eq).
    by apply Qc_is_canon. }
  apply Qcmult_le_compat_r; [done|]. by apply Qclt_le_weak, Qcinv_pos.
Qed.


Lemma accumulate_inv_stamp self acc :
  accumulate self = Ok acc →
  ∃ shape mx my mz,
    conformer_loop self shape (py_round (stamp_size / voxel_dim)) mx my mz 0
      (atomcoords self) (zeros shape) = Ok acc.
Proof.
  unfold Density.accumulate. case_decide; [done|]. case_decide; [done|].
  destruct (py_min _) as [mx|]; [|done]. cbn [rbind].
  destruct (py_min _) as [my|]; [|done]. cbn [rbind].
  destruct (py_min _) as [mz|]; [|done]. cbn [rbind].
  destruct (py_max _) as [Mx|]; [|done]. cbn [rbind].
  destruct (py_max _) as [My|]; [|done]. cbn [rbind].
  destruct (py_max _) as [Mz|]; [|done]. cbn [rbind].
  case_decide; [done|]. intros H'. do 4 eexists. exact H'.
Qed.

Lemma atom_loop_empty_stamp self shape mx my mz energy conformer box box' :
  atom_loop self shape 0 mx my mz energy conformer box = Ok box' → box' = box.
Proof.
  revert box. induction conformer as [|atom conformer IH]; intros box;
    cbn [Density.atom_loop].
  - by intros [= <-].
  - case_decide; [done|].
    destruct (stamp_add _ _ _ _ _ _ _ _) as [box1|] eqn:Hadd; [|done].
    cbn [rbind]. intros Hloop. apply IH in Hloop as ->. by eapply stamp_add_empty.
Qed.

Lemma conformer_loop_empty_stamp self shape mx my mz i rest box box' :
  conformer_loop self shape 0 mx my mz i rest box = Ok box' → box' = box.
Proof.
  revert i box. induction rest as [|conformer rest IH]; intros i box;
    cbn [Density.conformer_loop].
  - by intros [= <-].
  - destruct (py_index _ i) as [energy|]; [|done]. cbn [rbind].
    case_bool_decide.
    + destruct (atom_loop _ _ _ _ _ _ _ _ _) as [box1|] eqn:Hatoms; [|done].
      cbn [rbind]. intros Hloop. apply IH in Hloop as ->. by eapply atom_loop_empty_stamp.
    + cbn [rbind]. apply IH.
Qed.

(** X19. A stamp narrower than half a voxel leaves no density.  When
    [stamp_size / voxel_dim] rounds to zero the stamp has no voxels, and the
    accumulation ends with every cell of the grid still zero. *)
Theorem accumulate_empty_stamp self acc :
  py_round (stamp_size / voxel_dim) = 0%Z →
  accumulate self = Ok acc → Forall (λ c, c = 0%Qc) (cells acc).
Proof.
  intros Hsl (shape & mx & my & mz & Hloop)%accumulate_inv_stamp.
  rewrite Hsl in Hloop. apply conformer_loop_empty_stamp in Hloop as ->.
  apply zeros_cells.
Qed.

End more.



Lemma accumulate_empty_stamp_witness :
  Forall (λ c, c = 0%Qc)
    (cells (grid_of (accumulate exp_rat (frac 1 1) (frac 1 4) (frac 5 1) bent_conformer))).
Proof.
  apply (accumulate_empty_stamp exp_rat (frac 1 1) (frac 1 4) (frac 5 1) bent_conformer).
  - vm_compute. reflexivity.
  - vm_compute. reflexivity.
Defined.

End DensityMore.

(** ** The ring dihedrals *)

Module AutomepFacts.
Import Automep.

Lemma mapM_ext_Ok {A B} (f : A → result B) (g : A → B) l :
  (∀ x, x ∈ l → f x = Ok (g x)) → mapM f l = Ok (g <$> l).
Proof.
  induction l as [|x l IH]; intros H; [done|].
  cbn [mapM fmap list_fmap]. rewrite H by left. cbn [rbind].
  rewrite IH; [done|]. intros y Hy. apply H. by right.
Qed.

(** The dihedral that starts at position [i] of the ring. *)
Lemma cycle_to_dihedrals_closed (cycle : list nat) :
  cycle_to_dihedrals cycle =
    Ok ((λ i, [cycle !!! (i `mod` length cycle); cycle !!! ((i + 1) `mod` length cycle);
               cycle !!! ((i + 2) `mod` length cycle);
               cycle !!! ((i + 3) `mod` length cycle)]) <$> seq 0 (length cycle)).
Proof.
  unfold cycle_to_dihedrals. apply mapM_ext_Ok. intros i Hi%elem_of_seq.
  assert (length cycle ≠ 0) as Hn by lia.
  unfold py_mod. rewrite !decide_False by done. cbn [rbind].
  assert (∀ j, py_index cycle (j `mod` length cycle) = Ok (cycle !!! (j `mod` length cycle)))
    as Hidx.
  { intros j. apply py_index_Ok, list_lookup_lookup_total_lt.
    by apply Nat.mod_upper_bound. }
  rewrite !Hidx. done.
Qed.

(** X21. [cycle_to_dihedrals] never raises, whatever the ring: all indices are
    taken modulo its length.  It returns one dihedral of four entries per
    ring atom, and the [k]-th entries of the dihedrals, read in order, are
    the ring turned by [k] places. *)
Theorem cycle_to_dihedrals_returns (cycle : list nat) :
  ∃ ds, cycle_to_dihedrals cycle = Ok ds ∧ length ds = length cycle ∧
        Forall (λ d, length d = 4) ds ∧
        ∀ k, k < 4 → (λ d, d !! k) <$> ds = Some <$> rotate k cycle.
Proof.
  rewrite cycle_to_dihedrals_closed. eexists. split; [done|].
  split; [by rewrite length_fmap, length_seq|]. split.
  - apply Forall_fmap, Forall_forall. by intros i _.
  - intros k Hk. rewrite <-list_fmap_compose.
    apply list_eq. intros i. rewrite !list_lookup_fmap.
    destruct (decide (i < length cycle)) as [Hi|Hi].
    + rewrite lookup_seq_lt by done. rewrite lookup_rotate_r by done.
      assert (rotate_nat_add k i (length cycle) = (i + k) `mod` length cycle) as ->.
      { unfold rotate_nat_add. rewrite <-Nat2Z.inj_add, <-Nat2Z.inj_mod, Nat2Z.id.
        f_equal. lia. }
      rewrite (list_lookup_lookup_total_lt cycle ((i + k) `mod` length cycle))
        by (apply Nat.mod_upper_bound; lia).
      cbn. f_equal.
      destruct k as [|[|[|[|k]]]]; try lia; cbn; by rewrite ?Nat.add_0_r.
    + rewrite lookup_seq_ge by lia. rewrite lookup_ge_None_2; [done|].
      rewrite length_rotate. lia.
Qed.

Lemma mod_add_cases (i k n : nat) :
  i < n → k < n →
  ((i + k) `mod` n = i + k ∧ i + k < n) ∨ ((i + k) `mod` n = i + k - n ∧ n ≤ i + k).
Proof.
  intros Hi Hk. destruct (decide (i + k < n)) as [Hlt|Hge].
  - left. split; [by apply Nat.mod_small|done].
  - right. split; [|lia].
    replace (i + k) with ((i + k - n) + 1 * n) at 1 by lia.
    rewrite Nat.Div0.mod_add. apply Nat.mod_small. lia.
Qed.

(** X22. Four different atoms per dihedral exactly when the ring has at least
    four atoms: in a ring of three the first and the last atom of every
    dihedral are the same atom. *)
Theorem cycle_to_dihedrals_distinct_atoms (cycle : list nat) ds :
  NoDup cycle → cycle ≠ [] → cycle_to_dihedrals cycle = Ok ds →
  Forall NoDup ds ↔ 4 ≤ length cycle.
Proof.
  intros Hnd Hne Hds. split.
  - intros Hall.
    destruct cycle as [|a [|b [|c [|d rest]]]]; [done| | | |cbn; lia];
      vm_compute in Hds; injection Hds as <-;
      apply Forall_cons_1 in Hall as [Hd _];
      repeat (apply NoDup_cons in Hd as [Hni Hd]; try (by destruct Hni; set_solver)).
  - intros Hlen. rewrite cycle_to_dihedrals_closed in Hds. injection Hds as <-.
    apply Forall_fmap, Forall_forall. intros i Hi%elem_of_seq. cbn.
    change (NoDup ((λ j, cycle !!! j) <$>
                     [i `mod` length cycle; (i + 1) `mod` length cycle;
                      (i + 2) `mod` length cycle; (i + 3) `mod` length cycle])).
    assert (∀ j, j `mod` length cycle < length cycle) as Hup
      by (intros j; apply Nat.mod_upper_bound; lia).
    apply NoDup_fmap_2_strong.
    + intros x y Hx Hy Heq.
      assert (x < length cycle ∧ y < length cycle) as [Hxl Hyl].
      { split; [clear Hy; revert Hx | clear Hx; revert Hy];
          rewrite !elem_of_cons, elem_of_nil; intros [->|[->|[->|[->|[]]]]]; apply Hup. }
      eapply NoDup_lookup; [exact Hnd | |].
      * by apply list_lookup_lookup_total_lt.
      * rewrite Heq. by apply list_lookup_lookup_total_lt.
    + destruct (mod_add_cases i 0 (length cycle)) as [[E0 ?]|[E0 ?]]; try lia.
      destruct (mod_add_cases i 1 (length cycle)) as [[E1 ?]|[E1 ?]]; try lia;
      destruct (mod_add_cases i 2 (length cycle)) as [[E2 ?]|[E2 ?]]; try lia;
      destruct (mod_add_cases i 3 (length cycle)) as [[E3 ?]|[E3 ?]]; try lia;
      rewrite Nat.add_0_r in E0; rewrite E0, E1, E2, E3;
      repeat (apply NoDup_cons; split; [rewrite ?elem_of_cons, elem_of_nil; lia|]);
      apply NoDup_nil_2.
Qed.

Lemma rotate_nat_add_mod (k i n : nat) : rotate_nat_add k i n = (i + k) `mod` n.
Proof.
  unfold rotate_nat_add. rewrite <-Nat2Z.inj_add, <-Nat2Z.inj_mod, Nat2Z.id.
  f_equal. lia.
Qed.

Lemma lookup_total_rotate (k i : nat) (cycle : list nat) :
  i < length cycle → rotate k cycle !!! i = cycle !!! ((i + k) `mod` length cycle).
Proof.
  intros Hi. apply list_lookup_total_correct.
  rewrite lookup_rotate_r by done. rewrite rotate_nat_add_mod.
  apply list_lookup_lookup_total_lt, Nat.mod_upper_bound. lia.
Qed.

(** X23. Starting the ring at another atom only turns the list of dihedrals by
    as many places. *)
Theorem cycle_to_dihedrals_rotate (k : nat) (cycle : list nat) ds :
  cycle_to_dihedrals cycle = Ok ds →
  cycle_to_dihedrals (rotate k cycle) = Ok (rotate k ds).
Proof.
  rewrite !cycle_to_dihedrals_closed. intros [= <-]. f_equal.
  rewrite length_rotate. apply list_eq. intros i.
  destruct (decide (i < length cycle)) as [Hi|Hi].
  - rewrite lookup_rotate_r by (by rewrite length_fmap, length_seq).
    rewrite length_fmap, length_seq, rotate_nat_add_mod.
    assert (length cycle ≠ 0) as Hn by lia.
    rewrite !list_lookup_fmap, !lookup_seq_lt by (done || by apply Nat.mod_upper_bound).
    cbn. f_equal.
    rewrite !lookup_total_rotate by (by apply Nat.mod_upper_bound).
    rewrite !Nat.Div0.add_mod_idemp_l, Nat.Div0.mod_mod.
    replace (i + 1 + k) with (i + k + 1) by lia.
    replace (i + 2 + k) with (i + k + 2) by lia.
    by replace (i + 3 + k) with (i + k + 3) by lia.
  - rewrite !lookup_ge_None_2; [done| |].
    + rewrite length_rotate, length_fmap, length_seq. lia.
    + rewrite length_fmap, length_seq. lia.
Qed.

Lemma for_each_inv {A S} (P : S → Prop) (body : S → A → option S) l st st' :
  P st → (∀ s x s', x ∈ l → P s → body s x = Some s' → P s') →
  for_each body st l = Some st' → P st'.
Proof.
  revert st. induction l as [|x l IH]; intros st Hst Hbody; cbn [for_each].
  - by intros [= <-].
  - destruct (body st x) as [s1|] eqn:Hx; [|done]. cbn. apply IH.
    + eapply Hbody; [left|done|done].
    + intros s y s' Hy. apply Hbody. by right.
Qed.

Lemma for_each_total {A S} (body : S → A → option S) l st :
  (∀ s x, x ∈ l → ∃ s', body s x = Some s') → ∃ st', for_each body st l = Some st'.
Proof.
  revert st. induction l as [|x l IH]; intros st Hbody; cbn [for_each].
  - by eexists.
  - destruct (Hbody st x) as [s1 ->]; [left|]. cbn. apply IH.
    intros s y Hy. apply Hbody. by right.
Qed.

Lemma next_Some p cycle x : next p cycle = Some x → x ∈ cycle ∧ p x = true.
Proof. intros [Hin Hp]%find_some. split; [by apply list_elem_of_In|done]. Qed.

Lemma next_exists p cycle x : x ∈ cycle → p x = true → ∃ y, next p cycle = Some y.
Proof.
  intros Hin Hp. unfold next. destruct (find p cycle) as [y|] eqn:Hfind; [by eexists|].
  pose proof (find_none _ _ Hfind x (proj1 (list_elem_of_In _ _) Hin)) as Hx. congruence.
Qed.

Section exocyclic.
Variable neighbors : nat → list nat.

Lemma candidate_true excluded atom i :
  candidate neighbors excluded atom i = true ↔ (i ∉ excluded) ∧ i ∈ neighbors atom.
Proof. unfold candidate. by rewrite andb_true_iff, !bool_decide_eq_true. Qed.

Lemma exo_step_chains cycle index exo_dihs exo_id exo_dihs' :
  index ∈ cycle → exo_id ∈ neighbors index →
  Forall (exo_chain neighbors cycle) exo_dihs →
  exo_step neighbors cycle index exo_dihs exo_id = Some exo_dihs' →
  Forall (exo_chain neighbors cycle) exo_dihs'.
Proof.
  intros Hindex Hexo Hall. unfold exo_step. case_bool_decide as Hout; [|by intros [= <-]].
  destruct (next _ cycle) as [dummy1|] eqn:H1; [|done]. cbn.
  destruct (next (candidate neighbors [exo_id; index; dummy1] dummy1) cycle)
    as [dummy2|] eqn:H2; [|done]. cbn. intros [= <-].
  apply next_Some in H1 as [Hin1 [Hex1 Hn1]%candidate_true].
  apply next_Some in H2 as [Hin2 [Hex2 Hn2]%candidate_true].
  apply Forall_app. split; [done|]. apply Forall_singleton.
  exists exo_id, index, dummy1, dummy2. repeat split; try done.
  rewrite !not_elem_of_cons in Hex1, Hex2.
  destruct Hex1 as (A1 & A2 & _), Hex2 as (B1 & B2 & B3').
  assert (dummy2 ≠ dummy1) as B3 by (intros ->; apply B3'; left).
  assert (exo_id ≠ index) as A0 by (by intros ->).
  apply NoDup_cons. split.
  { rewrite !elem_of_cons, elem_of_nil. intros [?|[?|[?|[]]]]; congruence. }
  apply NoDup_cons. split.
  { rewrite !elem_of_cons, elem_of_nil. intros [?|[?|[]]]; congruence. }
  apply NoDup_cons. split.
  { rewrite !elem_of_cons, elem_of_nil. intros [?|[]]; congruence. }
  apply NoDup_singleton.
Qed.

(** X24. Every dihedral returned is a chain of four different atoms: an atom
    outside the ring, the ring atom it is bound to, a ring neighbour of that
    atom and a ring neighbour of the neighbour. *)
Theorem get_exocyclic_dihedrals_chains cycle ds :
  get_exocyclic_dihedrals neighbors cycle = Some ds → Forall (exo_chain neighbors cycle) ds.
Proof.
  unfold get_exocyclic_dihedrals. apply for_each_inv; [constructor|].
  intros exo_dihs index exo_dihs' Hindex Hall.
  apply for_each_inv; [done|].
  intros s exo_id s' Hexo Hs. by apply exo_step_chains.
Qed.

(** X25. On a ring, where every atom has two ring neighbours, both searches
    find an atom: the function returns and never stops on an exhausted
    generator. *)
Theorem get_exocyclic_dihedrals_returns cycle :
  two_ring_neighbours neighbors cycle → ∃ ds, get_exocyclic_dihedrals neighbors cycle = Some ds.
Proof.
  intros Hring. unfold get_exocyclic_dihedrals. apply for_each_total.
  intros exo_dihs index Hindex. apply for_each_total.
  intros s exo_id _. unfold exo_step. case_bool_decide as Hout; [|by eexists].
  destruct (Hring index Hindex) as (b & c & Hb & Hc & Hbc & Hba & Hca & Hnb & Hnc).
  destruct (next_exists (candidate neighbors [exo_id; index] index) cycle b Hb)
    as [dummy1 H1].
  { apply candidate_true. split; [|done].
    rewrite !not_elem_of_cons. repeat split; [by intros ->|done|apply not_elem_of_nil]. }
  rewrite H1. cbn. apply next_Some in H1 as [Hin1 _].
  destruct (Hring dummy1 Hin1) as (b' & c' & Hb' & Hc' & Hbc' & Hba' & Hca' & Hnb' & Hnc').
  assert (∃ x, x ∈ cycle ∧ x ≠ index ∧ x ≠ dummy1 ∧ x ∈ neighbors dummy1)
    as (x & Hx & Hxi & Hxd & Hxn).
  { destruct (decide (b' = index)) as [->|Hne]; [exists c'|exists b']; by repeat split. }
  destruct (next_exists (candidate neighbors [exo_id; index; dummy1] dummy1) cycle x Hx)
    as [dummy2 ->].
  { apply candidate_true. split; [|done].
    rewrite !not_elem_of_cons. repeat split; [by intros ->|done|done|apply not_elem_of_nil]. }
  cbn. by eexists.
Qed.

Lemma exo_step_bond cycle index acc exo_id acc' :
  exo_step neighbors cycle index acc exo_id = Some acc' →
  take 2 <$> acc' =
    (take 2 <$> acc) ++
    ((λ exo_id, [exo_id; index]) <$> filter (λ e, e ∉ cycle) [exo_id]).
Proof.
  unfold exo_step. destruct (decide (exo_id ∉ cycle)) as [Hout|Hin].
  - rewrite bool_decide_eq_true_2 by done.
    destruct (next _ cycle) as [dummy1|]; [|done]. cbn [mbind option_bind].
    destruct (next _ cycle) as [dummy2|]; [|done]. cbn [mbind option_bind].
    intros [= <-]. rewrite filter_cons_True by done. by rewrite fmap_app.
  - rewrite bool_decide_eq_false_2 by done.
    intros [= <-]. rewrite filter_cons_False by done. by rewrite app_nil_r.
Qed.

Lemma exo_loop_bonds cycle index l acc acc' :
  for_each (exo_step neighbors cycle index) acc l = Some acc' →
  take 2 <$> acc' =
    (take 2 <$> acc) ++ ((λ exo_id, [exo_id; index]) <$> filter (λ e, e ∉ cycle) l).
Proof.
  revert acc. induction l as [|exo_id l IH]; intros acc; cbn [for_each].
  - intros [= <-]. by rewrite app_nil_r.
  - destruct (exo_step _ _ _ _ _) as [acc1|] eqn:Hstep; [|done]. cbn [mbind option_bind].
    intros ->%IH. apply exo_step_bond in Hstep as ->.
    rewrite <-app_assoc, <-fmap_app. f_equal. f_equal.
    change (exo_id :: l) with ([exo_id] ++ l). by rewrite filter_app.
Qed.

(** X26. One dihedral per bond from a ring atom to an atom outside the ring, in
    the order of the ring and of the neighbour lists: the first two atoms of
    the dihedrals are these bonds. *)
Theorem get_exocyclic_dihedrals_bonds cycle ds :
  get_exocyclic_dihedrals neighbors cycle = Some ds →
  take 2 <$> ds =
    concat ((λ index, (λ exo_id, [exo_id; index]) <$> filter (λ e, e ∉ cycle) (neighbors index))
              <$> cycle).
Proof.
  unfold get_exocyclic_dihedrals.
  assert (∀ l acc acc',
            for_each (λ exo_dihs index,
                        for_each (exo_step neighbors cycle index) exo_dihs (neighbors index))
              acc l = Some acc' →
            take 2 <$> acc' =
              (take 2 <$> acc) ++
              concat ((λ index, (λ exo_id, [exo_id; index]) <$>
                                  filter (λ e, e ∉ cycle) (neighbors index)) <$> l)) as H.
  { induction l as [|index l IH]; intros acc acc'; cbn [for_each].
    - intros [= <-]. by rewrite app_nil_r.
    - destruct (for_each _ acc _) as [acc1|] eqn:Hinner; [|done]. cbn [mbind option_bind].
      intros ->%IH. apply exo_loop_bonds in Hinner as ->.
      cbn [fmap list_fmap concat]. by rewrite <-app_assoc. }
  intros Hds. by rewrite (H _ _ _ Hds).
Qed.

End exocyclic.

Lemma seven_ring_NoDup : NoDup seven_ring.
Proof. exact (NoDup_seq 0 7). Qed.

Lemma seven_ring_two_ring_neighbours : two_ring_neighbours seven_ring_neighbors seven_ring.
Proof.
  intros a Ha. unfold seven_ring in *.
  rewrite !elem_of_cons, elem_of_nil in Ha.
  destruct Ha as [->|[->|[->|[->|[->|[->|[->|[]]]]]]]]; cbn [seven_ring_neighbors];
    [exists 1, 6|exists 0, 2|exists 1, 3|exists 2, 4|exists 3, 5|exists 4, 6|exists 5, 0];
    repeat split; try lia; rewrite !elem_of_cons; tauto.
Qed.

Lemma cycle_to_dihedrals_distinct_atoms_witness :
  Forall NoDup (value_or [] (cycle_to_dihedrals seven_ring)) ↔ 4 ≤ length seven_ring.
Proof.
  apply (cycle_to_dihedrals_distinct_atoms seven_ring).
  - exact seven_ring_NoDup.
  - discriminate.
  - vm_compute. reflexivity.
Defined.

Lemma cycle_to_dihedrals_rotate_witness :
  cycle_to_dihedrals (rotate 2 seven_ring) =
    Ok (rotate 2 (value_or [] (cycle_to_dihedrals seven_ring))).
Proof. apply cycle_to_dihedrals_rotate. vm_compute. reflexivity. Defined.

Lemma get_exocyclic_dihedrals_chains_witness :
  Forall (exo_chain seven_ring_neighbors seven_ring)
    (default [] (get_exocyclic_dihedrals seven_ring_neighbors seven_ring)).
Proof. apply get_exocyclic_dihedrals_chains. vm_compute. reflexivity. Defined.

Lemma get_exocyclic_dihedrals_returns_witness :
  ∃ ds, get_exocyclic_dihedrals seven_ring_neighbors seven_ring = Some ds.
Proof. apply get_exocyclic_dihedrals_returns. exact seven_ring_two_ring_neighbours. Defined.

Lemma get_exocyclic_dihedrals_bonds_witness :
  take 2 <$> default [] (get_exocyclic_dihedrals seven_ring_neighbors seven_ring) =
    concat ((λ index, (λ exo_id, [exo_id; index]) <$>
                        filter (λ e, e ∉ seven_ring) (seven_ring_neighbors index))
              <$> seven_ring).
Proof. apply get_exocyclic_dihedrals_bonds. vm_compute. reflexivity. Defined.

(** The ring of the example has two bonds that leave it, 7-0 and 8-3; the
    chains go on to the first ring neighbour in the order of the ring. *)
Example seven_ring_exocyclic :
  get_exocyclic_dihedrals seven_ring_neighbors seven_ring = Some [[7; 0; 1; 2]; [8; 3; 2; 1]].
Proof. vm_compute. reflexivity. Qed.

End AutomepFacts.
